(** * The tiered scene extractor of [natural_language_processor.py]

    A shallow embedding of [NaturalLanguageProcessor]: the three tiers
    (remote, local, fallback), the sub-extractors of the local tier and the
    orchestration by nested [try]/[except].

    Conventions of the model.
    - A Python [str] is a [string]; its characters are read as 7-bit ASCII.
      Characters above 127 have no case, are no white space and are no word
      characters, which is not what Python makes of the code points above
      127 (a no-break space is white space, a long s is an s for
      [re.IGNORECASE], [len] counts code points). The functions of the
      program are embedded under this reading; a property that describes
      their result by notions of its own (white space, letter case, length)
      is stated for the texts on which the reading is exact, those that
      satisfy [is_ascii].
    - A Python [int] is a [Z].
    - A statement that may raise is a computation in the [result] monad;
      [try]/[except Exception] is [try_except].
    - Regular expressions are kept as the source writes them, as pattern
      strings. [re_compile] parses the fragment of the [re] syntax that the
      program uses (and a little more), [rmatch] is a backtracking matcher with
      Python's priorities (leftmost, ordered alternation, greedy and lazy
      repetition). Counted repetition, possessive repetition, back references,
      named groups and inline flags are outside the fragment; [re_compile]
      raises on them.
    - The process-wide behaviours that the program does not define are
      variables of the model: [json_loads] (the JSON parser) and [set_order]
      (the iteration order of a [set] of strings, fixed for a process by its
      hash seed). The remote service is the [chat_completions_create] field
      of the client. Logging is left out. *)

From Stdlib Require Import String Ascii List ZArith NArith Lia Bool Arith.
From Stdlib Require Import DecimalString Permutation.
From Stdlib Require DecimalNat DecimalFacts.
Import ListNotations.
Open Scope list_scope.
Open Scope string_scope.
Open Scope nat_scope.

(** ** Exceptions *)

Inductive exn : Type :=
  | JSONDecodeError
  | AttributeError
  | TypeError
  | re_error
  | Exception (msg : string).

Inductive result (A : Type) : Type :=
  | Ok (a : A)
  | Raise (e : exn).

Arguments Ok {A} a.
Arguments Raise {A} e.

Definition bind {A B : Type} (c : result A) (f : A -> result B) : result B :=
  match c with
  | Ok a => f a
  | Raise e => Raise e
  end.

(** [try: c except Exception as e: h e] *)
Definition try_except {A : Type} (c : result A) (h : exn -> result A) : result A :=
  match c with
  | Ok a => Ok a
  | Raise e => h e
  end.

Declare Scope py_scope.
Delimit Scope py_scope with py.
Notation "x <- c ;; k" := (bind c (fun x => k))
  (at level 61, c at next level, right associativity) : py_scope.
Open Scope py_scope.

Fixpoint mapM {A B : Type} (f : A -> result B) (l : list A) : result (list B) :=
  match l with
  | [] => Ok []
  | a :: l' => b <- f a ;; bs <- mapM f l' ;; Ok (b :: bs)
  end.

(** ** Characters and [str] methods *)

Definition dquote : ascii := "034"%char.
Definition newline : ascii := "010"%char.

Definition code (c : ascii) : nat := nat_of_ascii c.

Definition in_range (lo hi c : ascii) : bool :=
  (code lo <=? code c) && (code c <=? code hi).

Definition is_upper (c : ascii) : bool := in_range "A" "Z" c.
Definition is_lower (c : ascii) : bool := in_range "a" "z" c.
Definition is_digit (c : ascii) : bool := in_range "0" "9" c.
Definition is_letter (c : ascii) : bool := is_upper c || is_lower c.

(** [str.isspace] on ASCII: TAB, LF, VT, FF, CR, FS, GS, RS, US and space. *)
Definition is_space (c : ascii) : bool :=
  ((9 <=? code c) && (code c <=? 13)) || ((28 <=? code c) && (code c <=? 32)).

Definition is_word (c : ascii) : bool :=
  is_upper c || is_lower c || is_digit c || Ascii.eqb c "_".

Definition to_lower (c : ascii) : ascii :=
  if is_upper c then ascii_of_nat (code c + 32) else c.

Definition to_upper (c : ascii) : ascii :=
  if is_lower c then ascii_of_nat (code c - 32) else c.

Fixpoint str_map (f : ascii -> ascii) (s : string) : string :=
  match s with
  | EmptyString => EmptyString
  | String c s' => String (f c) (str_map f s')
  end.

Fixpoint str_exists (f : ascii -> bool) (s : string) : bool :=
  match s with
  | EmptyString => false
  | String c s' => f c || str_exists f s'
  end.

Definition is_empty (s : string) : bool :=
  match s with
  | EmptyString => true
  | String _ _ => false
  end.

(** [s.lower()] *)
Definition py_lower (s : string) : string := str_map to_lower s.

(** [s.isupper()]: some cased character, and no lower-case one. *)
Definition py_isupper (s : string) : bool :=
  str_exists is_upper s && negb (str_exists is_lower s).

(** [s.startswith(sub)] *)
Fixpoint startswith (sub s : string) : bool :=
  match sub, s with
  | EmptyString, _ => true
  | String a sub', String b s' => Ascii.eqb a b && startswith sub' s'
  | String _ _, EmptyString => false
  end.

(** [sub in s] *)
Fixpoint py_in (sub s : string) : bool :=
  startswith sub s ||
  match s with
  | EmptyString => false
  | String _ s' => py_in sub s'
  end.

(** [s[:n]] *)
Fixpoint py_prefix (n : nat) (s : string) : string :=
  match n, s with
  | S n', String c s' => String c (py_prefix n' s')
  | _, _ => EmptyString
  end.

(** [s.split()]: the maximal runs of characters that are no white space.
    [w] is the word being read. *)
Fixpoint py_split_from (w : string) (s : string) : list string :=
  match s with
  | EmptyString => if is_empty w then [] else [w]
  | String c s' =>
      if is_space c
      then if is_empty w then py_split_from EmptyString s'
           else w :: py_split_from EmptyString s'
      else py_split_from (w ++ String c EmptyString) s'
  end.

Definition py_split (s : string) : list string := py_split_from EmptyString s.

Fixpoint py_lstrip (s : string) : string :=
  match s with
  | EmptyString => EmptyString
  | String c s' => if is_space c then py_lstrip s' else s
  end.

Fixpoint py_rstrip (s : string) : string :=
  match s with
  | EmptyString => EmptyString
  | String c s' =>
      let t := py_rstrip s' in
      if is_space c && is_empty t then EmptyString else String c t
  end.

(** [s.strip()] *)
Definition py_strip (s : string) : string := py_rstrip (py_lstrip s).

(** [sep.join(l)] *)
Definition py_join (sep : string) (l : list string) : string := String.concat sep l.

(** [str(n)] for a natural number *)
Definition py_str_nat (n : nat) : string := NilZero.string_of_uint (Nat.to_uint n).

(** [len(s)] *)
Definition py_len (s : string) : Z := Z.of_nat (String.length s).

(** ** Regular expressions: syntax *)

Inductive category : Type := CatSpace | CatDigit | CatWord.

(** One member of a bracketed class. *)
Inductive citem : Type :=
  | CChar (c : ascii)
  | CRange (lo hi : ascii)
  | CCat (negated : bool) (k : category).

Inductive regex : Type :=
  | Eps
  | Chr (c : ascii)
  | Any
  | CSet (negated : bool) (items : list citem)
  | Cat (a b : regex)
  | Alt (a b : regex)
  | Star (greedy : bool) (a : regex)
  | Group (n : nat) (a : regex)
  | Ahead (positive : bool) (a : regex)
  | WordB (negated : bool)
  | Bol
  | Eol
  | Eos.

(** The flags the program passes: [re.IGNORECASE] and [re.DOTALL]. *)
Record flags : Type := { ignorecase : bool; dotall : bool }.

Definition NOFLAG : flags := {| ignorecase := false; dotall := false |}.
Definition IGNORECASE : flags := {| ignorecase := true; dotall := false |}.
Definition DOTALL : flags := {| ignorecase := false; dotall := true |}.

(** ** Regular expressions: the pattern parser

    The grammar is alternation > sequence > quantified atom; [g] counts the
    capturing groups opened so far, so that groups are numbered by their
    opening parenthesis. *)

Definition is_quantifier (c : ascii) : bool :=
  Ascii.eqb c "*" || Ascii.eqb c "+" || Ascii.eqb c "?".

(** A backslash escape that stands for one character, the same inside and
    outside a class. Letters and digits without a meaning are errors. *)
Definition escape_char (c : ascii) : result ascii :=
  if Ascii.eqb c "n" then Ok newline
  else if Ascii.eqb c "t" then Ok "009"%char
  else if Ascii.eqb c "r" then Ok "013"%char
  else if Ascii.eqb c "f" then Ok "012"%char
  else if Ascii.eqb c "v" then Ok "011"%char
  else if Ascii.eqb c "a" then Ok "007"%char
  else if is_upper c || is_lower c || is_digit c then Raise re_error
  else Ok c.

Definition escape_category (c : ascii) : option (bool * category) :=
  if Ascii.eqb c "s" then Some (false, CatSpace)
  else if Ascii.eqb c "S" then Some (true, CatSpace)
  else if Ascii.eqb c "d" then Some (false, CatDigit)
  else if Ascii.eqb c "D" then Some (true, CatDigit)
  else if Ascii.eqb c "w" then Some (false, CatWord)
  else if Ascii.eqb c "W" then Some (true, CatWord)
  else None.

(** One member of a class, without its possible range. *)
Definition parse_class_atom (s : string) : result (citem * string) :=
  match s with
  | EmptyString => Raise re_error
  | String "\" EmptyString => Raise re_error
  | String "\" (String c s') =>
      match escape_category c with
      | Some (neg, k) => Ok (CCat neg k, s')
      | None =>
          if Ascii.eqb c "b" then Ok (CChar "008"%char, s')
          else x <- escape_char c ;; Ok (CChar x, s')
      end
  | String c s' => Ok (CChar c, s')
  end.

(** The members of a class up to the closing bracket. [first] tells that no
    member was read yet: a closing bracket is then an ordinary member. *)
Fixpoint parse_class_items (fuel : nat) (first : bool) (s : string)
  : result (list citem * string) :=
  match fuel with
  | O => Raise re_error
  | S fuel' =>
      match s with
      | EmptyString => Raise re_error
      | String c s' =>
          if Ascii.eqb c "]" && negb first then Ok ([], s')
          else
            r <- parse_class_atom s ;;
            let (it, s1) := r in
            match s1 with
            | String "-" (String c2 s2) =>
                if Ascii.eqb c2 "]"
                then Ok ([it; CChar "-"], s2)
                else
                  r2 <- parse_class_atom (String c2 s2) ;;
                  let (it2, s3) := r2 in
                  match it, it2 with
                  | CChar lo, CChar hi =>
                      if code lo <=? code hi
                      then
                        r3 <- parse_class_items fuel' false s3 ;;
                        let (its, s4) := r3 in Ok (CRange lo hi :: its, s4)
                      else Raise re_error
                  | _, _ => Raise re_error
                  end
            | _ =>
                r3 <- parse_class_items fuel' false s1 ;;
                let (its, s4) := r3 in Ok (it :: its, s4)
            end
      end
  end.

Definition parse_class (s : string) : result (regex * string) :=
  match s with
  | String "^" s' =>
      r <- parse_class_items (S (String.length s')) true s' ;;
      let (its, s1) := r in Ok (CSet true its, s1)
  | _ =>
      r <- parse_class_items (S (String.length s)) true s ;;
      let (its, s1) := r in Ok (CSet false its, s1)
  end.

Definition parse_escape (s : string) : result (regex * string) :=
  match s with
  | EmptyString => Raise re_error
  | String c s' =>
      match escape_category c with
      | Some (neg, k) => Ok (CSet false [CCat neg k], s')
      | None =>
          if Ascii.eqb c "b" then Ok (WordB false, s')
          else if Ascii.eqb c "B" then Ok (WordB true, s')
          else if Ascii.eqb c "A" then Ok (Bol, s')
          else if Ascii.eqb c "Z" then Ok (Eos, s')
          else x <- escape_char c ;; Ok (Chr x, s')
      end
  end.

(** The atoms that read nothing by themselves, which [re] refuses to repeat. *)
Definition is_assertion (a : regex) : bool :=
  match a with
  | Eps | WordB _ | Bol | Eol | Eos => true
  | _ => false
  end.

(** [a*], [a+], [a?] and their lazy forms [a*?], [a+?], [a??]. *)
Definition parse_quantifier (a : regex) (s : string) : result (regex * string) :=
  match s with
  | String c s1 =>
      if is_quantifier c
      then
        if is_assertion a then Raise re_error
        else
          let (lazy, s2) :=
            match s1 with
            | String c2 s2' => if Ascii.eqb c2 "?" then (true, s2') else (false, s1)
            | EmptyString => (false, s1)
            end in
          if Ascii.eqb c "*" then Ok (Star (negb lazy) a, s2)
          else if Ascii.eqb c "+" then Ok (Cat a (Star (negb lazy) a), s2)
          else Ok (if lazy then Alt Eps a else Alt a Eps, s2)
      else Ok (a, s)
  | EmptyString => Ok (a, s)
  end.

Fixpoint skip_digits (s : string) : string :=
  match s with
  | EmptyString => EmptyString
  | String c s' => if is_digit c then skip_digits s' else s
  end.

(** The text after an opening brace spells a counted repetition [{m}],
    [{m,}], [{,n}] or [{m,n}]; any other brace is an ordinary character. *)
Definition is_counted_repeat (s : string) : bool :=
  match s with
  | String "}" _ => false
  | _ =>
      let s1 := skip_digits s in
      let s2 := match s1 with
                | String "," s' => skip_digits s'
                | _ => s1
                end in
      match s2 with
      | String "}" _ => true
      | _ => false
      end
  end.

Definition expect_close (s : string) : result string :=
  match s with
  | String ")" s' => Ok s'
  | _ => Raise re_error
  end.

Definition parser : Type := string -> nat -> result (regex * string * nat).

(** A capturing group: its number is taken when it opens. *)
Definition parse_capture (alt : parser) (s : string) (g : nat)
  : result (regex * string * nat) :=
  r <- alt s (S g) ;;
  let '(a, s2, g1) := r in
  s3 <- expect_close s2 ;; Ok (Group (S g) a, s3, g1).

(** The text after an opening parenthesis: [(?:...)], [(?=...)], [(?!...)]
    or a capturing group. *)
Definition parse_group (alt : parser) (s : string) (g : nat)
  : result (regex * string * nat) :=
  match s with
  | String c (String k s1) =>
      if Ascii.eqb c "?"
      then
        if Ascii.eqb k ":"
        then r <- alt s1 g ;;
             let '(a, s2, g1) := r in
             s3 <- expect_close s2 ;; Ok (a, s3, g1)
        else if Ascii.eqb k "="
        then r <- alt s1 g ;;
             let '(a, s2, g1) := r in
             s3 <- expect_close s2 ;; Ok (Ahead true a, s3, g1)
        else if Ascii.eqb k "!"
        then r <- alt s1 g ;;
             let '(a, s2, g1) := r in
             s3 <- expect_close s2 ;; Ok (Ahead false a, s3, g1)
        else Raise re_error
      else parse_capture alt s g
  | _ => parse_capture alt s g
  end.

(** One atom; [alt] parses the inside of a group. *)
Definition parse_atom (alt : parser) (s : string) (g : nat)
  : result (regex * string * nat) :=
  match s with
  | EmptyString => Raise re_error
  | String c s1 =>
      if Ascii.eqb c "(" then parse_group alt s1 g
      else if Ascii.eqb c "["
      then r <- parse_class s1 ;; let (a, s2) := r in Ok (a, s2, g)
      else if Ascii.eqb c "\"
      then r <- parse_escape s1 ;; let (a, s2) := r in Ok (a, s2, g)
      else if Ascii.eqb c "." then Ok (Any, s1, g)
      else if Ascii.eqb c "^" then Ok (Bol, s1, g)
      else if Ascii.eqb c "$" then Ok (Eol, s1, g)
      else if is_quantifier c || (Ascii.eqb c "{" && is_counted_repeat s1)
      then Raise re_error
      else Ok (Chr c, s1, g)
  end.

(** A sequence of quantified atoms, up to a bar, a closing parenthesis or
    the end. Every item reads a character, so the length of the text plus
    one is fuel enough. *)
Fixpoint parse_seq (atom : parser) (fuel : nat) (s : string) (g : nat)
  : result (regex * string * nat) :=
  match fuel with
  | O => Raise re_error
  | S fuel' =>
      match s with
      | EmptyString => Ok (Eps, s, g)
      | String c _ =>
          if Ascii.eqb c "|" || Ascii.eqb c ")" then Ok (Eps, s, g)
          else
            r <- atom s g ;;
            let '(a, s1, g1) := r in
            rq <- parse_quantifier a s1 ;;
            let (q, s2) := rq in
            r2 <- parse_seq atom fuel' s2 g1 ;;
            let '(b, s3, g2) := r2 in Ok (Cat q b, s3, g2)
      end
  end.

(** Sequences separated by bars. *)
Fixpoint parse_alt (atom : parser) (fuel : nat) (s : string) (g : nat)
  : result (regex * string * nat) :=
  match fuel with
  | O => Raise re_error
  | S fuel' =>
      r <- parse_seq atom (S (String.length s)) s g ;;
      let '(a, s1, g1) := r in
      match s1 with
      | String c s2 =>
          if Ascii.eqb c "|"
          then r2 <- parse_alt atom fuel' s2 g1 ;;
               let '(b, s3, g2) := r2 in Ok (Alt a b, s3, g2)
          else Ok (a, s1, g1)
      | EmptyString => Ok (a, s1, g1)
      end
  end.

(** A whole expression; [depth] bounds the nesting of groups. *)
Fixpoint parse_regex (depth : nat) (s : string) (g : nat)
  : result (regex * string * nat) :=
  match depth with
  | O => Raise re_error
  | S depth' =>
      parse_alt (parse_atom (parse_regex depth')) (S (String.length s)) s g
  end.

(** A compiled pattern: the expression and its number of groups. *)
Record Pattern : Type := { p_regex : regex; p_groups : nat }.

(** [re.compile(pattern)]; text left over is an unbalanced parenthesis. *)
Definition re_compile (pattern : string) : result Pattern :=
  r <- parse_regex (S (String.length pattern)) pattern 0 ;;
  let '(a, rest, g) := r in
  match rest with
  | EmptyString => Ok {| p_regex := a; p_groups := g |}
  | String _ _ => Raise re_error
  end.

(** ** Regular expressions: the backtracking matcher *)

(** The text of the groups closed so far, newest first. *)
Definition caps : Type := list (nat * string).

Fixpoint lookup_group (n : nat) (cs : caps) : option string :=
  match cs with
  | [] => None
  | (m, t) :: cs' => if n =? m then Some t else lookup_group n cs'
  end.

(** A position in the subject: the character before it (for [\b] and [^]),
    the text from it on, and the groups. *)
Definition mstate : Type := (option ascii * string * caps)%type.

Definition kont : Type := option ascii -> string -> caps -> option mstate.

(** What was read between the positions [s] and [s1] of one subject. *)
Definition consumed (s s1 : string) : string :=
  py_prefix (String.length s - String.length s1) s.

Definition chr_eq (fl : flags) (c x : ascii) : bool :=
  if ignorecase fl then Ascii.eqb (to_lower c) (to_lower x) else Ascii.eqb c x.

Definition category_mem (k : category) (x : ascii) : bool :=
  match k with
  | CatSpace => is_space x
  | CatDigit => is_digit x
  | CatWord => is_word x
  end.

Definition citem_mem (fl : flags) (it : citem) (x : ascii) : bool :=
  match it with
  | CChar c => chr_eq fl c x
  | CRange lo hi =>
      in_range lo hi x ||
      (ignorecase fl && (in_range lo hi (to_lower x) || in_range lo hi (to_upper x)))
  | CCat neg k => xorb neg (category_mem k x)
  end.

Definition cset_mem (fl : flags) (neg : bool) (items : list citem) (x : ascii) : bool :=
  xorb neg (existsb (fun it => citem_mem fl it x) items).

Definition is_word_opt (p : option ascii) : bool :=
  match p with
  | Some c => is_word c
  | None => false
  end.

Definition head_char (s : string) : option ascii :=
  match s with
  | EmptyString => None
  | String c _ => Some c
  end.

(** [\b]: exactly one of the two neighbours is a word character. *)
Definition at_word_boundary (p : option ascii) (s : string) : bool :=
  xorb (is_word_opt p) (is_word_opt (head_char s)).

(** [$] without [re.MULTILINE]: the end, or just before a final newline. *)
Definition at_end (s : string) : bool :=
  match s with
  | EmptyString => true
  | String c EmptyString => Ascii.eqb c newline
  | _ => false
  end.

(** The iterations of a repetition whose body is matched by [body]: a greedy
    one tries one more iteration before it goes on with [k], a lazy one goes
    on first. An iteration that reads nothing is given up, so [n], the length
    of the text, bounds the number of iterations. *)
Fixpoint star_loop (body : option ascii -> string -> caps -> kont -> option mstate)
  (greedy : bool) (k : kont) (n : nat) (p0 : option ascii) (s0 : string)
  (cs0 : caps) {struct n} : option mstate :=
  match n with
  | O => k p0 s0 cs0
  | S n' =>
      let again (_ : unit) :=
        body p0 s0 cs0
          (fun p1 s1 cs1 =>
             if String.length s1 <? String.length s0
             then star_loop body greedy k n' p1 s1 cs1 else None) in
      if greedy
      then match again tt with
           | Some m => Some m
           | None => k p0 s0 cs0
           end
      else match k p0 s0 cs0 with
           | Some m => Some m
           | None => again tt
           end
  end.

(** [rmatch fl r p s cs k]: match [r] at the position [(p, s)] and go on
    with [k]; alternatives are tried in Python's order, the first success is
    the answer. *)
Fixpoint rmatch (fl : flags) (r : regex) (p : option ascii) (s : string)
  (cs : caps) (k : kont) {struct r} : option mstate :=
  match r with
  | Eps => k p s cs
  | Chr c =>
      match s with
      | String x s' => if chr_eq fl c x then k (Some x) s' cs else None
      | EmptyString => None
      end
  | Any =>
      match s with
      | String x s' =>
          if dotall fl || negb (Ascii.eqb x newline) then k (Some x) s' cs else None
      | EmptyString => None
      end
  | CSet neg items =>
      match s with
      | String x s' => if cset_mem fl neg items x then k (Some x) s' cs else None
      | EmptyString => None
      end
  | Cat a b =>
      rmatch fl a p s cs (fun p1 s1 cs1 => rmatch fl b p1 s1 cs1 k)
  | Alt a b =>
      match rmatch fl a p s cs k with
      | Some m => Some m
      | None => rmatch fl b p s cs k
      end
  | Star greedy a => star_loop (rmatch fl a) greedy k (String.length s) p s cs
  | Group n a =>
      rmatch fl a p s cs
        (fun p1 s1 cs1 => k p1 s1 ((n, consumed s s1) :: cs1))
  | Ahead positive a =>
      match rmatch fl a p s cs (fun p1 s1 cs1 => Some (p1, s1, cs1)) with
      | Some (_, _, cs1) => if positive then k p s cs1 else None
      | None => if positive then None else k p s cs
      end
  | WordB neg =>
      if xorb neg (at_word_boundary p s) then k p s cs else None
  | Bol =>
      match p with
      | None => k p s cs
      | Some _ => None
      end
  | Eol => if at_end s then k p s cs else None
  | Eos => if is_empty s then k p s cs else None
  end.

(** ** Regular expressions: match objects, [search], [finditer], [findall] *)

Record Match : Type := {
  m_whole : string;          (* group 0 *)
  m_groups : caps;
  m_prev : option ascii;     (* the position after the match *)
  m_rest : string
}.

(** [m.group(n)]; [None] for a group that took no part in the match. *)
Definition group (m : Match) (n : nat) : option string :=
  match n with
  | O => Some (m_whole m)
  | S _ => lookup_group n (m_groups m)
  end.

(** A match starting exactly at [(p, s)]. With [must_advance] the match is
    not allowed to be empty (the search after an empty match). *)
Definition match_here (fl : flags) (r : regex) (must_advance : bool)
  (p : option ascii) (s : string) : option Match :=
  match rmatch fl r p s []
          (fun p1 s1 cs1 =>
             if must_advance && (String.length s1 =? String.length s)
             then None else Some (p1, s1, cs1)) with
  | Some (p1, s1, cs1) =>
      Some {| m_whole := consumed s s1; m_groups := cs1;
              m_prev := p1; m_rest := s1 |}
  | None => None
  end.

(** The leftmost match at or after [(p, s)]. *)
Fixpoint search_from (fl : flags) (r : regex) (must_advance : bool)
  (p : option ascii) (s : string) {struct s} : option Match :=
  match match_here fl r must_advance p s with
  | Some m => Some m
  | None =>
      match s with
      | EmptyString => None
      | String c s' => search_from fl r false (Some c) s'
      end
  end.

(** The successive matches that do not overlap, left to right. *)
Fixpoint finditer_from (fuel : nat) (fl : flags) (r : regex)
  (must_advance : bool) (p : option ascii) (s : string) : list Match :=
  match fuel with
  | O => []
  | S fuel' =>
      match search_from fl r must_advance p s with
      | None => []
      | Some m =>
          m :: finditer_from fuel' fl r (is_empty (m_whole m)) (m_prev m) (m_rest m)
      end
  end.

(** [re.search(pattern, text, flags)] *)
Definition re_search (pattern : string) (text : string) (fl : flags)
  : result (option Match) :=
  pat <- re_compile pattern ;;
  Ok (search_from fl (p_regex pat) false None text).

(** [re.finditer(pattern, text, flags)], as the list of its matches *)
Definition re_finditer (pattern : string) (text : string) (fl : flags)
  : result (list Match) :=
  pat <- re_compile pattern ;;
  Ok (finditer_from (2 * String.length text + 2) fl (p_regex pat) false None text).

Definition group_or_empty (m : Match) (n : nat) : string :=
  match group m n with
  | Some t => t
  | None => EmptyString
  end.

(** [re.findall(pattern, text)] for a pattern with at most one group: the
    text of that group (of the whole match when there is none) for every
    match. With several groups Python returns tuples, which no call of the
    program asks for. *)
Definition re_findall (pattern : string) (text : string) : result (list string) :=
  pat <- re_compile pattern ;;
  let ms := finditer_from (2 * String.length text + 2) NOFLAG (p_regex pat) false None text in
  match p_groups pat with
  | 0 => Ok (map m_whole ms)
  | 1 => Ok (map (fun m => group_or_empty m 1) ms)
  | _ => Raise (Exception "findall with several groups")
  end.

(** ** Python values and the scene schema

    The dataclasses do not check their field types: a field holds whatever the
    constructor is given. The remote tier stores values of a JSON reply, so a
    field is a [pyval]. *)

#[warnings="-register-all"]
Inductive pyval : Type :=
  | PNone
  | PBool (b : bool)
  | PInt (z : Z)
  | PFloat (m e : Z)             (* the decimal m * 10^e *)
  | PStr (s : string)
  | PList (l : list pyval)
  | PDict (d : list (string * pyval)).

Definition PStrs (l : list string) : pyval := PList (map PStr l).

(** The value of an optional string: [None] or the [str]. *)
Definition py_of_option (o : option string) : pyval :=
  match o with
  | Some t => PStr t
  | None => PNone
  end.

Module Character.
Record t : Type := mk {
  name : pyval;
  description : pyval;
  voice_characteristics : pyval;
  emotions : pyval;
  actions : pyval
}.
End Character.

Module DialogueLine.
Record t : Type := mk {
  character : pyval;
  text : pyval;
  emotion : pyval;
  action : pyval;
  timing : pyval;
  non_verbal : pyval
}.
End DialogueLine.

Module ParsedScene.
Record t : Type := mk {
  description : pyval;
  characters : list Character.t;
  dialogue : list DialogueLine.t;
  actions : pyval;
  environment : pyval;
  mood : pyval;
  duration_estimate : pyval
}.
End ParsedScene.

(** The defaults of the dataclass fields. *)
Definition default_emotion : pyval := PStr "neutral".
Definition default_timing : pyval := PFloat 0 0.

(** ** The processor object *)

(** The remote client: one chat completion for the user message, which
    raises or returns the content of the first choice ([None] when the
    message has no content). The service is outside the program and may
    answer the same request differently at different instants, so the
    instant of the call is an argument. The system prompt, the model name,
    the temperature and the token limit are constants of the call. *)
Record OpenAI : Type := {
  chat_completions_create : nat -> string -> result (option string)
}.

(** One aggregated entity of the NER pipeline. *)
Record Entity : Type := { word : string; entity_group : string }.

Record NaturalLanguageProcessor : Type := {
  client : option OpenAI;
  ner_pipeline : option (string -> result (list Entity))
}.

Definition dq : string := String dquote EmptyString.
Definition nl : string := String newline EmptyString.

(** [dict.get(key, default)] on the pairs of a dict. *)
Fixpoint assoc_get (d : list (string * pyval)) (key : string) (default : pyval) : pyval :=
  match d with
  | [] => default
  | (k, v) :: d' => if String.eqb k key then v else assoc_get d' key default
  end.

(** [v.get(key, default)]: only a dict has the method. *)
Definition py_get (v : pyval) (key : string) (default : pyval) : result pyval :=
  match v with
  | PDict d => Ok (assoc_get d key default)
  | _ => Raise AttributeError
  end.

Fixpoint chars_of (s : string) : list pyval :=
  match s with
  | EmptyString => []
  | String c s' => PStr (String c EmptyString) :: chars_of s'
  end.

(** [for x in v]: the items of a list, the characters of a str, the keys of
    a dict; nothing else is iterable. *)
Definition py_iter (v : pyval) : result (list pyval) :=
  match v with
  | PList l => Ok l
  | PStr t => Ok (chars_of t)
  | PDict d => Ok (map (fun kv => PStr (fst kv)) d)
  | _ => Raise TypeError
  end.

(** An optional string handed to code that needs a [str]: the first string
    operation on [None] raises [e]. *)
Definition need_str (e : exn) (o : option string) : result string :=
  match o with
  | Some t => Ok t
  | None => Raise e
  end.

Definition is_JSONDecodeError (e : exn) : bool :=
  match e with
  | JSONDecodeError => true
  | _ => false
  end.

(** ** The extractors *)

Definition _extract_emotion_from_dialogue (dialogue_text : string) : string :=
  if py_in "!" dialogue_text then "excited"
  else if py_in "?" dialogue_text then "questioning"
  else if py_in "..." dialogue_text then "hesitant"
  else if py_isupper dialogue_text then "angry"
  else "neutral".

Definition non_verbal_patterns : list string :=
  [ "\[([^\]]+)\]";
    "\(([^\)]+)\)" ].

(** The body of the inner loop: [match.group(1).lower()]. *)
Definition cue_of_match (m : Match) : result string :=
  g <- need_str AttributeError (group m 1) ;; Ok (py_lower g).

(** The loop over the patterns of [_extract_non_verbal_cues]. *)
Fixpoint non_verbal_of (patterns : list string) (text : string) : result (list string) :=
  match patterns with
  | [] => Ok []
  | pattern :: rest =>
      matches <- re_finditer pattern text NOFLAG ;;
      here <- mapM cue_of_match matches ;;
      more <- non_verbal_of rest text ;;
      Ok (here ++ more)%list
  end.

Definition _extract_non_verbal_cues (text : string) : result (list string) :=
  non_verbal_of non_verbal_patterns text.

Definition pattern1 : string :=
  "([A-Z][a-z]+)\s*:\s*" ++ dq ++ "([^" ++ dq ++ "]+)" ++ dq.

Definition pattern2 : string :=
  dq ++ "([^" ++ dq ++ "]+)" ++ dq ++ "\s+(?:said|says|asks|replies|responds)\s+([A-Z][a-z]+)".

Definition pattern3 : string :=
  dq ++ "([^" ++ dq ++ "]+)" ++ dq.

(** The [DialogueLine] built in each of the three loops: the emotion and the
    cues are read off the dialogue text. *)
Definition make_line (character : pyval) (dialogue_text : option string)
  : result DialogueLine.t :=
  t <- need_str TypeError dialogue_text ;;
  let emotion := _extract_emotion_from_dialogue t in
  non_verbal <- _extract_non_verbal_cues t ;;
  Ok (DialogueLine.mk character (PStr t) (PStr emotion) (PStr "") default_timing
        (PStrs non_verbal)).

(** Pattern 1: [Character: "dialogue"]. *)
Definition pattern1_lines (text : string) : result (list DialogueLine.t) :=
  matches1 <- re_finditer pattern1 text NOFLAG ;;
  mapM (fun m => make_line (py_of_option (group m 1)) (group m 2)) matches1.

(** Pattern 2: ["dialogue" said Character]. *)
Definition pattern2_lines (text : string) : result (list DialogueLine.t) :=
  matches2 <- re_finditer pattern2 text NOFLAG ;;
  mapM (fun m => make_line (py_of_option (group m 2)) (group m 1)) matches2.

(** [enumerate(l)], counting from [i]. *)
Fixpoint enumerate_from {A : Type} (i : nat) (l : list A) : list (nat * A) :=
  match l with
  | [] => []
  | a :: l' => (i, a) :: enumerate_from (S i) l'
  end.

Definition placeholder_name (i : nat) : string := "Character" ++ py_str_nat (i + 1).

(** Pattern 3: just quoted text, assigned to unnamed characters. *)
Definition pattern3_lines (text : string) : result (list DialogueLine.t) :=
  matches3 <- re_finditer pattern3 text NOFLAG ;;
  mapM (fun im => make_line (PStr (placeholder_name (fst im))) (group (snd im) 1))
       (enumerate_from 0 matches3).

Definition _extract_dialogue (text : string) : result (list DialogueLine.t) :=
  lines1 <- pattern1_lines text ;;
  lines2 <- pattern2_lines text ;;
  let dialogue_lines := (lines1 ++ lines2)%list in
  match dialogue_lines with
  | [] => pattern3_lines text
  | _ :: _ => Ok dialogue_lines
  end.

Definition description_suffix : string :=
  "[^.]*?([^.]*(?:tall|short|young|old|beautiful|handsome|wearing|dressed)[^.]*)".

Definition _extract_character_description (text character_name : string) : result string :=
  let pattern := character_name ++ description_suffix in
  m <- re_search pattern text IGNORECASE ;;
  match m with
  | Some mt => g <- need_str AttributeError (group mt 1) ;; Ok (py_strip g)
  | None => Ok ""
  end.

Definition emotion_words : list string :=
  ["happy"; "sad"; "angry"; "excited"; "nervous"; "calm"; "worried"; "surprised"; "confused"].

Fixpoint emotions_of (words : list string) (text character_name : string)
  : result (list string) :=
  match words with
  | [] => Ok []
  | emotion :: rest =>
      let pattern := character_name ++ "[^.]*?" ++ emotion ++ "|" ++
                     emotion ++ "[^.]*?" ++ character_name in
      m <- re_search pattern text IGNORECASE ;;
      more <- emotions_of rest text character_name ;;
      match m with
      | Some _ => Ok (emotion :: more)
      | None => Ok more
      end
  end.

Definition _extract_character_emotions (text character_name : string) : result (list string) :=
  emotions_of emotion_words text character_name.

Definition actions_suffix : string :=
  "\s+(walks|runs|sits|stands|looks|turns|moves|enters|exits|grabs|holds)".

Definition _extract_character_actions (text character_name : string) : result (list pyval) :=
  let action_pattern := character_name ++ actions_suffix in
  matches <- re_finditer action_pattern text IGNORECASE ;;
  Ok (map (fun m => py_of_option (group m 1)) matches).

Definition action_patterns : list string :=
  [ "(walks? (?:to|into|towards)[^.]*)";
    "(runs? (?:to|into|towards)[^.]*)";
    "(enters? [^.]*)";
    "(exits? [^.]*)";
    "(sits? (?:down|on)[^.]*)";
    "(stands? (?:up|on)[^.]*)";
    "(looks? (?:at|towards)[^.]*)";
    "(turns? (?:to|towards)[^.]*)" ].

Fixpoint actions_of (patterns : list string) (text : string) : result (list pyval) :=
  match patterns with
  | [] => Ok []
  | pattern :: rest =>
      matches <- re_finditer pattern text IGNORECASE ;;
      more <- actions_of rest text ;;
      Ok (map (fun m => py_of_option (group m 1)) matches ++ more)%list
  end.

Definition _extract_actions (text : string) : result (list pyval) :=
  actions_of action_patterns text.

Definition location_patterns : list string :=
  [ "(?:in|at|inside|outside)\s+(?:a|an|the)?\s*([^.]*(?:room|house|park|street|office|restaurant|cafe|bar|store|school|hospital|church|beach|forest|mountain|city|town|village)[^.]*)";
    "(?:INT\.|EXT\.)\s*([^-\n]*)";
    "(?:setting|location|place):\s*([^\n]*)" ].

(** The loop over the location patterns: the first pattern that is found
    answers with its group 1, stripped. *)
Fixpoint first_location (patterns : list string) (text : string) : result (option string) :=
  match patterns with
  | [] => Ok None
  | pattern :: rest =>
      m <- re_search pattern text IGNORECASE ;;
      match m with
      | Some mt => g <- need_str AttributeError (group mt 1) ;; Ok (Some (py_strip g))
      | None => first_location rest text
      end
  end.

Definition env_words : list string :=
  ["indoor"; "outdoor"; "sunny"; "dark"; "bright"; "cozy"; "spacious"; "crowded"; "quiet"; "noisy"].

Definition found_env (text : string) : list string :=
  filter (fun word => py_in word (py_lower text)) env_words.

Definition _extract_environment (text : string) : result string :=
  loc <- first_location location_patterns text ;;
  match loc with
  | Some e => Ok e
  | None =>
      match found_env text with
      | [] => Ok "unspecified location"
      | _ :: _ => Ok (py_join ", " (found_env text))
      end
  end.

(** The dict of mood categories, in its insertion order. *)
Definition mood_indicators : list (string * list string) :=
  [ ("happy", ["happy"; "joyful"; "cheerful"; "upbeat"; "positive"; "bright"]);
    ("sad", ["sad"; "melancholy"; "depressing"; "gloomy"; "somber"]);
    ("tense", ["tense"; "suspenseful"; "dramatic"; "intense"; "serious"]);
    ("romantic", ["romantic"; "intimate"; "loving"; "tender"; "sweet"]);
    ("comedic", ["funny"; "humorous"; "comedic"; "amusing"; "lighthearted"]);
    ("mysterious", ["mysterious"; "enigmatic"; "puzzling"; "strange"; "eerie"]) ].

Fixpoint first_mood (table : list (string * list string)) (text_lower : string) : string :=
  match table with
  | [] => "neutral"
  | (mood, indicators) :: rest =>
      if existsb (fun indicator => py_in indicator text_lower) indicators
      then mood
      else first_mood rest text_lower
  end.

Definition _extract_mood (text : string) : string :=
  first_mood mood_indicators (py_lower text).

Definition _estimate_duration (text : string) (dialogue : list DialogueLine.t) : Z :=
  let word_count := Z.of_nat (List.length (py_split text)) in
  let dialogue_count := Z.of_nat (List.length dialogue) in
  let base_duration := Z.max 5 (word_count / 20) in
  let dialogue_duration := (dialogue_count * 3)%Z in
  Z.min 30 (Z.max base_duration dialogue_duration).

(** The fallback tier: very basic parsing. *)
Definition _process_with_fallback (prompt : string) : result ParsedScene.t :=
  let characters := [Character.mk (PStr "Character1") (PStr "") (PStr "") (PList []) (PList [])] in
  quotes <- re_findall pattern3 prompt ;;
  let dialogue :=
    map (fun iq =>
           DialogueLine.mk (PStr (placeholder_name (fst iq))) (PStr (snd iq))
             (PStr "neutral") (PStr "") default_timing (PList []))
        (enumerate_from 0 quotes) in
  Ok (ParsedScene.mk (PStr prompt) characters dialogue (PStrs ["scene action"])
        (PStr "unspecified") (PStr "neutral") (PInt 10)).

(** [_convert_to_parsed_scene]: every key is read with a default and stored
    as it is. *)
Definition convert_character (char_data : pyval) : result Character.t :=
  name <- py_get char_data "name" (PStr "") ;;
  description <- py_get char_data "description" (PStr "") ;;
  voice_characteristics <- py_get char_data "voice_characteristics" (PStr "") ;;
  emotions <- py_get char_data "emotions" (PList []) ;;
  actions <- py_get char_data "actions" (PList []) ;;
  Ok (Character.mk name description voice_characteristics emotions actions).

Definition convert_dialogue (dial_data : pyval) : result DialogueLine.t :=
  character <- py_get dial_data "character" (PStr "") ;;
  text <- py_get dial_data "text" (PStr "") ;;
  emotion <- py_get dial_data "emotion" (PStr "neutral") ;;
  action <- py_get dial_data "action" (PStr "") ;;
  timing <- py_get dial_data "timing" default_timing ;;
  non_verbal <- py_get dial_data "non_verbal" (PList []) ;;
  Ok (DialogueLine.mk character text emotion action timing non_verbal).

Definition _convert_to_parsed_scene (data : pyval) : result ParsedScene.t :=
  chars_data <- py_get data "characters" (PList []) ;;
  chars_iter <- py_iter chars_data ;;
  characters <- mapM convert_character chars_iter ;;
  dial_data <- py_get data "dialogue" (PList []) ;;
  dial_iter <- py_iter dial_data ;;
  dialogue <- mapM convert_dialogue dial_iter ;;
  description <- py_get data "description" (PStr "") ;;
  actions <- py_get data "actions" (PList []) ;;
  environment <- py_get data "environment" (PStr "") ;;
  mood <- py_get data "mood" (PStr "neutral") ;;
  duration_estimate <- py_get data "duration_estimate" (PInt 10) ;;
  Ok (ParsedScene.mk description characters dialogue actions environment mood
        duration_estimate).

Section Processor.

(** [json.loads]: the value of a JSON text, or [JSONDecodeError]. *)
Variable json_loads : string -> result pyval.

(** [list(set(names))]: the names in the iteration order of the set. *)
Variable set_order : list string -> list string.

Variable self : NaturalLanguageProcessor.

(** The instant at which [process_natural_language_prompt] is called. *)
Variable now : nat.

(** A capitalized word before a colon or a quotation mark. *)
Definition name_pattern : string :=
  "\b([A-Z][a-z]+)(?=\s*[:" ++ dq ++ dq ++ "])".

Definition false_positives : list string := ["the"; "and"; "but"; "or"].

(** The candidate names, in the order in which they are detected. *)
Definition detect_person_names (text : string) : result (list string) :=
  match ner_pipeline self with
  | Some ner =>
      entities <- ner text ;;
      Ok (map word (filter (fun ent => String.eqb (entity_group ent) "PER") entities))
  | None =>
      re_findall name_pattern text
  end.

Definition keep_name (name : string) : bool :=
  negb (existsb (String.eqb (py_lower name)) false_positives).

Definition make_character (text name : string) : result Character.t :=
  description <- _extract_character_description text name ;;
  emotions <- _extract_character_emotions text name ;;
  actions <- _extract_character_actions text name ;;
  Ok (Character.mk (PStr name) (PStr description) (PStr "") (PStrs emotions)
        (PList actions)).

Definition _extract_characters (text : string) : result (list Character.t) :=
  person_names <- detect_person_names text ;;
  let person_names := set_order person_names in
  let person_names := filter keep_name person_names in
  mapM (make_character text) person_names.

Definition _process_with_local_nlp (prompt : string) : result ParsedScene.t :=
  characters <- _extract_characters prompt ;;
  dialogue <- _extract_dialogue prompt ;;
  actions <- _extract_actions prompt ;;
  environment <- _extract_environment prompt ;;
  let mood := _extract_mood prompt in
  let duration_estimate := _estimate_duration prompt dialogue in
  Ok (ParsedScene.mk
        (PStr (if (py_len prompt >? 200)%Z then py_prefix 200 prompt ++ "..." else prompt))
        characters dialogue (PList actions) (PStr environment) (PStr mood)
        (PInt duration_estimate)).

(** The body of the [try] of [_process_with_deepseek]: the call, the
    parse of the reply and, on [JSONDecodeError], the parse of the first
    brace-to-last-brace substring. *)
Definition remote_attempt (c : OpenAI) (prompt : string) : result ParsedScene.t :=
  content <- chat_completions_create c now ("Parse this scene description:" ++ nl ++ nl ++ prompt) ;;
  result <- need_str TypeError content ;;
  match json_loads result with
  | Ok data => _convert_to_parsed_scene data
  | Raise e =>
      if is_JSONDecodeError e
      then
        json_match <- re_search "\{.*\}" result DOTALL ;;
        match json_match with
        | Some m =>
            data <- json_loads (m_whole m) ;;
            _convert_to_parsed_scene data
        | None => Raise (Exception "No valid JSON found in response")
        end
      else Raise e
  end.

Definition _process_with_deepseek (c : OpenAI) (prompt : string) : result ParsedScene.t :=
  try_except (remote_attempt c prompt)
    (fun _ => _process_with_local_nlp prompt).

Definition process_natural_language_prompt (prompt : string) : result ParsedScene.t :=
  try_except
    match client self with
    | Some c => _process_with_deepseek c prompt
    | None => _process_with_local_nlp prompt
    end
    (fun _ => _process_with_fallback prompt).

End Processor.

(** ** Notions used to state the properties *)

(** The groups that every successful match of [r] sets: those that lie on
    every path through [r]. *)
Fixpoint sure_groups (r : regex) : list nat :=
  match r with
  | Group n a => n :: sure_groups a
  | Cat a b => (sure_groups a ++ sure_groups b)%list
  | Ahead true a => sure_groups a
  | _ => []
  end.

Definition has_group (cs : caps) (n : nat) : Prop := lookup_group n cs <> None.

(** What a successful match offers its continuation: a position at which
    the continuation answers [res], with the groups of [sure] set and no
    group of [cs] lost. *)
Definition offers (sure : list nat) (cs : caps) (k : kont) (res : mstate) : Prop :=
  exists p1 s1 cs1,
    k p1 s1 cs1 = Some res /\
    (forall n, In n sure -> has_group cs1 n) /\
    (forall n, has_group cs n -> has_group cs1 n).

Definition sure_match (r : regex) (m : Match) : Prop :=
  forall n, In n (sure_groups r) -> group m n <> None.

(** A pattern that compiles and has group [n] on every path. *)
Definition sure_pattern (n : nat) (pattern : string) : Prop :=
  exists pat, re_compile pattern = Ok pat /\ In n (sure_groups (p_regex pat)).

(** The characters of a text all satisfy [f]. *)
Fixpoint str_forall (f : ascii -> bool) (s : string) : bool :=
  match s with
  | EmptyString => true
  | String c s' => f c && str_forall f s'
  end.

(** A text of ASCII characters. On such a text [str.split], [str.strip],
    [str.lower], [len], slices, white space and the letter case of
    [re.IGNORECASE] are those of the embedding. *)
Definition is_ascii (s : string) : bool := str_forall (fun c => code c <? 128) s.




(** [r] reads only characters that satisfy [f]. *)
Fixpoint reads_only (fl : flags) (f : ascii -> bool) (r : regex) : Prop :=
  match r with
  | Chr c => forall x, chr_eq fl c x = true -> f x = true
  | Any => forall x, f x = true
  | CSet neg items => forall x, cset_mem fl neg items x = true -> f x = true
  | Cat a b | Alt a b => reads_only fl f a /\ reads_only fl f b
  | Star _ a | Group _ a => reads_only fl f a
  | _ => True
  end.

(** Every group numbered [n] inside [r] reads only characters that satisfy [f]. *)
Fixpoint group_reads_only (fl : flags) (f : ascii -> bool) (n : nat) (r : regex) : Prop :=
  match r with
  | Group m a => (m = n -> reads_only fl f a) /\ group_reads_only fl f n a
  | Cat a b | Alt a b => group_reads_only fl f n a /\ group_reads_only fl f n b
  | Star _ a | Ahead _ a => group_reads_only fl f n a
  | _ => True
  end.

(** The text of group [n], when it is set, satisfies [f] throughout. *)
Definition group_satisfies (f : ascii -> bool) (n : nat) (cs : caps) : Prop :=
  forall t, lookup_group n cs = Some t -> str_forall f t = true.

Definition match_group_satisfies (f : ascii -> bool) (n : nat) (m : Match) : Prop :=
  group_satisfies f n (m_groups m).

(** A successful match of a part of the pattern: it has read [w]. *)
Definition reads (f : ascii -> bool) (n : nat) (only : Prop) (s : string)
  (k : kont) (res : mstate) : Prop :=
  exists p1 s1 cs1 w,
    k p1 s1 cs1 = Some res /\
    s = w ++ s1 /\
    group_satisfies f n cs1 /\
    (only -> str_forall f w = true).

(** The expression of a run of ordinary characters followed by [r]. *)
Fixpoint literal (w : string) (r : regex) : regex :=
  match w with
  | EmptyString => r
  | String c w' => Cat (Chr c) (literal w' r)
  end.

(** One parser answers wherever the other does, with the same answer. *)
Definition extends (p q : parser) : Prop :=
  forall s g x, p s g = Ok x -> q s g = Ok x.

(** The text does not start with a quantifier. *)
Definition no_quantifier_ahead (s : string) : bool :=
  match s with
  | EmptyString => true
  | String c _ => negb (is_quantifier c)
  end.

(** The number of white-space separated words of a text, counted by the
    places where a word starts: a character that is no white space, at the
    start of the text or after white space. *)
Fixpoint count_word_starts (after_space : bool) (s : string) : nat :=
  match s with
  | EmptyString => 0
  | String c s' =>
      (if after_space && negb (is_space c) then 1 else 0)
      + count_word_starts (is_space c) s'
  end.

Definition word_count (text : string) : nat := count_word_starts true text.




(** The scene of the fallback tier for the quotes found in the prompt. *)
Definition fallback_line (iq : nat * string) : DialogueLine.t :=
  DialogueLine.mk (PStr (placeholder_name (fst iq))) (PStr (snd iq))
    (PStr "neutral") (PStr "") default_timing (PList []).

Definition fallback_scene (prompt : string) (quotes : list string) : ParsedScene.t :=
  ParsedScene.mk (PStr prompt)
    [Character.mk (PStr "Character1") (PStr "") (PStr "") (PList []) (PList [])]
    (map fallback_line (enumerate_from 0 quotes))
    (PStrs ["scene action"]) (PStr "unspecified") (PStr "neutral") (PInt 10).

(** The tier cascade as the specification draws it: the local tier, demoted
    to the fallback tier when it raises. *)
Definition local_or_fallback (set_order : list string -> list string)
  (self : NaturalLanguageProcessor) (prompt : string) : result ParsedScene.t :=
  match _process_with_local_nlp set_order self prompt with
  | Ok scene => Ok scene
  | Raise _ => _process_with_fallback prompt
  end.

(** The remote tier is configured and its attempt returns a scene. *)
Definition remote_succeeds (json_loads : string -> result pyval)
  (self : NaturalLanguageProcessor) (now : nat) (prompt : string) : bool :=
  match client self with
  | Some c =>
      match remote_attempt json_loads now c prompt with
      | Ok _ => true
      | Raise _ => false
      end
  | None => false
  end.

(** What [list(set(l))] promises: every member of [l] once, in some order. *)
Definition set_contract (set_order : list string -> list string) : Prop :=
  forall l, NoDup (set_order l) /\ (forall x, In x (set_order l) <-> In x l).

Definition character_names (cs : list Character.t) : list pyval :=
  map Character.name cs.

(** A letter or a space. *)
Definition is_name_char (c : ascii) : bool := is_letter c || Ascii.eqb c " ".

(** A name with one opening parenthesis that nothing closes, such as
    [Ann (Lee]: letters and spaces around the parenthesis. *)
Definition opens_parenthesis (name : string) : Prop :=
  exists a b,
    name = a ++ "(" ++ b /\
    str_forall is_name_char a = true /\ str_forall is_name_char b = true.

(** The computation raises. *)
Definition raises {A : Type} (c : result A) : Prop := exists e, c = Raise e.

(** The types of the scene schema: a string, a list of strings, a number. *)
Definition is_str (v : pyval) : bool :=
  match v with
  | PStr _ => true
  | _ => false
  end.

Definition is_str_list (v : pyval) : bool :=
  match v with
  | PList l => forallb is_str l
  | _ => false
  end.

Definition is_number (v : pyval) : bool :=
  match v with
  | PInt _ | PFloat _ _ => true
  | _ => false
  end.

(** An integer number of seconds between 5 and 30. *)
Definition is_duration (v : pyval) : bool :=
  match v with
  | PInt d => ((5 <=? d) && (d <=? 30))%Z
  | _ => false
  end.

Definition well_formed_character (c : Character.t) : bool :=
  is_str (Character.name c) && is_str (Character.description c) &&
  is_str (Character.voice_characteristics c) &&
  is_str_list (Character.emotions c) && is_str_list (Character.actions c).

Definition well_formed_line (line : DialogueLine.t) : bool :=
  is_str (DialogueLine.character line) && is_str (DialogueLine.text line) &&
  is_str (DialogueLine.emotion line) && is_str (DialogueLine.action line) &&
  is_number (DialogueLine.timing line) && is_str_list (DialogueLine.non_verbal line).

(** A well-formed scene: every field has the type the schema gives it, and
    the duration estimate lies between 5 and 30. *)
Definition well_formed (scene : ParsedScene.t) : bool :=
  is_str (ParsedScene.description scene) &&
  forallb well_formed_character (ParsedScene.characters scene) &&
  forallb well_formed_line (ParsedScene.dialogue scene) &&
  is_str_list (ParsedScene.actions scene) &&
  is_str (ParsedScene.environment scene) &&
  is_str (ParsedScene.mood scene) &&
  is_duration (ParsedScene.duration_estimate scene).

(** The names detected in the prompt are runs of letters, as are all names
    that the regex heuristic detects. *)
Definition names_are_words (self : NaturalLanguageProcessor) (prompt : string) : Prop :=
  forall names,
    detect_person_names self prompt = Ok names ->
    Forall (fun name => str_forall is_letter name = true) names.

(** Two scenes that differ at most in the order of their characters. *)
Definition same_up_to_order (a b : ParsedScene.t) : Prop :=
  Permutation (ParsedScene.characters a) (ParsedScene.characters b) /\
  ParsedScene.description a = ParsedScene.description b /\
  ParsedScene.dialogue a = ParsedScene.dialogue b /\
  ParsedScene.actions a = ParsedScene.actions b /\
  ParsedScene.environment a = ParsedScene.environment b /\
  ParsedScene.mood a = ParsedScene.mood b /\
  ParsedScene.duration_estimate a = ParsedScene.duration_estimate b.

(** Two set iterations that list the detected names of the prompt in the
    same order, as two calls in one process do. *)
Definition same_iteration (order1 order2 : list string -> list string)
  (self : NaturalLanguageProcessor) (prompt : string) : Prop :=
  forall names, detect_person_names self prompt = Ok names -> order1 names = order2 names.

(** ** Notions of the matcher and of the extracted fields *)

(** The texts an expression can read, with the groups it records on the
    way, the last one first. What stands around the text is not looked at:
    an assertion is taken to hold. *)
Inductive sem (fl : flags) : regex -> string -> caps -> Prop :=
  | sem_eps : sem fl Eps "" []
  | sem_chr c x : chr_eq fl c x = true -> sem fl (Chr c) (String x "") []
  | sem_any x :
      dotall fl || negb (Ascii.eqb x newline) = true -> sem fl Any (String x "") []
  | sem_set neg items x :
      cset_mem fl neg items x = true -> sem fl (CSet neg items) (String x "") []
  | sem_cat a b u v c1 c2 :
      sem fl a u c1 -> sem fl b v c2 -> sem fl (Cat a b) (u ++ v) (c2 ++ c1)%list
  | sem_alt_left a b u c : sem fl a u c -> sem fl (Alt a b) u c
  | sem_alt_right a b u c : sem fl b u c -> sem fl (Alt a b) u c
  | sem_star_stop greedy a : sem fl (Star greedy a) "" []
  | sem_star_more greedy a u v c1 c2 :
      sem fl a u c1 -> sem fl (Star greedy a) v c2 ->
      sem fl (Star greedy a) (u ++ v) (c2 ++ c1)%list
  | sem_group n a u c : sem fl a u c -> sem fl (Group n a) u ((n, u) :: c)
  | sem_ahead a u c : sem fl a u c -> sem fl (Ahead true a) "" c
  | sem_not_ahead a : sem fl (Ahead false a) "" []
  | sem_wordb neg : sem fl (WordB neg) "" []
  | sem_bol : sem fl Bol "" []
  | sem_eol : sem fl Eol "" []
  | sem_eos : sem fl Eos "" [].

(** The texts of an expression, whatever groups they record. *)
Definition lang (fl : flags) (r : regex) (w : string) : Prop :=
  exists c, sem fl r w c.

(** The groups of an expression, with what they enclose. *)
Fixpoint groups_of (r : regex) : list (nat * regex) :=
  match r with
  | Group n a => (n, a) :: groups_of a
  | Cat a b | Alt a b => (groups_of a ++ groups_of b)%list
  | Star _ a | Ahead _ a => groups_of a
  | _ => []
  end.

(** A successful match of [r] at [s]: it has read a text of [r] and handed
    the groups of that text to what follows. *)
Definition accepts (fl : flags) (r : regex) (s : string) (cs : caps) (k : kont)
  (res : mstate) : Prop :=
  exists p1 s1 w c,
    k p1 s1 (c ++ cs)%list = Some res /\ s = w ++ s1 /\ sem fl r w c.

(** [sub] stands somewhere in [text]. *)
Definition occurs_in (sub text : string) : Prop :=
  exists pre post, text = pre ++ sub ++ post.

(** A match object of [r] in [text]: the whole match stands in the text, it
    is a text of [r], and the groups are those of that text. *)
Definition match_of (fl : flags) (r : regex) (text : string) (m : Match) : Prop :=
  (exists pre, text = pre ++ m_whole m ++ m_rest m) /\
  sem fl r (m_whole m) (m_groups m).

(** A lower bound of the length of the texts of an expression. *)
Fixpoint min_length (r : regex) : nat :=
  match r with
  | Chr _ | Any | CSet _ _ => 1
  | Cat a b => min_length a + min_length b
  | Alt a b => Nat.min (min_length a) (min_length b)
  | Group _ a => min_length a
  | _ => 0
  end.

(** The character [c] does not stand in [s]. *)
Definition lacks (c : ascii) (s : string) : bool :=
  str_forall (fun x => negb (Ascii.eqb c x)) s.

(** An expression without assertions: what it reads does not depend on what
    stands around. *)
Fixpoint plain (r : regex) : bool :=
  match r with
  | Eps | Chr _ | Any | CSet _ _ => true
  | Cat a b | Alt a b => plain a && plain b
  | Star _ a | Group _ a => plain a
  | Ahead _ _ | WordB _ | Bol | Eol | Eos => false
  end.

(** The continuation answers at [s], whatever was read before and whatever
    groups are set. *)
Definition always (k : kont) (s : string) : Prop :=
  forall p cs, exists res, k p s cs = Some res.

Definition no_quote (c : ascii) : bool := negb (Ascii.eqb c dquote).

(** What stands between two quotation marks: some text without one. *)
Definition quoted_text (t : string) : Prop :=
  t <> "" /\ str_forall no_quote t = true.

(** An upper-case letter followed by one lower-case letter or more. *)
Definition capitalized (t : string) : bool :=
  match t with
  | String c rest => is_upper c && negb (is_empty rest) && str_forall is_lower rest
  | EmptyString => false
  end.

Definition spaces (s : string) : bool := str_forall is_space s.

(** The expressions the three dialogue patterns are made of, and the
    patterns as [re.compile] reads them. *)
Definition quoted_regex : regex :=
  Cat (Cat (CSet true [CChar dquote]) (Star true (CSet true [CChar dquote]))) Eps.

Definition capitalized_regex : regex :=
  Cat (CSet false [CRange "A" "Z"])
    (Cat (Cat (CSet false [CRange "a" "z"]) (Star true (CSet false [CRange "a" "z"])))
       Eps).

Definition spaces_regex : regex := Star true (CSet false [CCat false CatSpace]).

Definition spaces1_regex : regex := Cat (CSet false [CCat false CatSpace]) spaces_regex.

Definition speech_verbs : list string := ["said"; "says"; "asks"; "replies"; "responds"].

Definition verbs_regex : regex :=
  Alt (literal "said" Eps)
    (Alt (literal "says" Eps)
       (Alt (literal "asks" Eps) (Alt (literal "replies" Eps) (literal "responds" Eps)))).

Definition pattern1_regex : regex :=
  Cat (Group 1 capitalized_regex)
    (Cat spaces_regex
       (Cat (Chr ":")
          (Cat spaces_regex
             (Cat (Chr dquote) (Cat (Group 2 quoted_regex) (Cat (Chr dquote) Eps)))))).

Definition pattern2_regex : regex :=
  Cat (Chr dquote)
    (Cat (Group 1 quoted_regex)
       (Cat (Chr dquote)
          (Cat spaces1_regex
             (Cat verbs_regex (Cat spaces1_regex (Cat (Group 2 capitalized_regex) Eps)))))).

Definition pattern3_regex : regex :=
  Cat (Chr dquote) (Cat (Group 1 quoted_regex) (Cat (Chr dquote) Eps)).

(** [Name: "text"] stands in the prompt. *)
Definition colon_attribution (prompt name t : string) : Prop :=
  exists sp1 sp2,
    spaces sp1 = true /\ spaces sp2 = true /\
    occurs_in (name ++ sp1 ++ ":" ++ sp2 ++ dq ++ t ++ dq) prompt.

(** ["text" said Name] stands in the prompt, with one of the five verbs. *)
Definition verb_attribution (prompt name t : string) : Prop :=
  exists sp1 verb sp2,
    sp1 <> "" /\ spaces sp1 = true /\ In verb speech_verbs /\
    sp2 <> "" /\ spaces sp2 = true /\
    occurs_in (dq ++ t ++ dq ++ sp1 ++ verb ++ sp2 ++ name) prompt.

(** ["text"] stands in the prompt. *)
Definition bare_quote (prompt t : string) : Prop :=
  occurs_in (dq ++ t ++ dq) prompt.

(** A line whose emotion, cues and defaults are those [make_line] gives the text. *)
Definition line_of_text (line : DialogueLine.t) (t : string) : Prop :=
  DialogueLine.text line = PStr t /\
  DialogueLine.emotion line = PStr (_extract_emotion_from_dialogue t) /\
  DialogueLine.action line = PStr "" /\
  DialogueLine.timing line = default_timing /\
  exists cues,
    _extract_non_verbal_cues t = Ok cues /\ DialogueLine.non_verbal line = PStrs cues.

(** The speakers [Character1], [Character2], ... of [n] lines, counting from [i]. *)
Definition placeholders (i n : nat) : list pyval :=
  map (fun j => PStr (placeholder_name j)) (seq i n).

(** Two lines with the same speaker and the same text. *)
Definition same_words (a b : DialogueLine.t) : Prop :=
  DialogueLine.character a = DialogueLine.character b /\
  DialogueLine.text a = DialogueLine.text b.

(** A line of the prompt with its speaker named in it. *)
Definition attributed_line (prompt : string) (line : DialogueLine.t) : Prop :=
  exists name t,
    DialogueLine.character line = PStr name /\ DialogueLine.text line = PStr t /\
    capitalized name = true /\ quoted_text t /\
    (colon_attribution prompt name t \/ verb_attribution prompt name t).

(** An attribution stands in the prompt. *)
Definition has_attribution (prompt : string) : Prop :=
  exists name t,
    capitalized name = true /\ quoted_text t /\
    (colon_attribution prompt name t \/ verb_attribution prompt name t).

(** A quoted text stands in the prompt. *)
Definition has_quote (prompt : string) : Prop :=
  exists t, quoted_text t /\ bare_quote prompt t.

(** A line that says what stands between two quotation marks of the prompt. *)
Definition quoted_line (prompt : string) (line : DialogueLine.t) : Prop :=
  exists t, line_of_text line t /\ quoted_text t /\ bare_quote prompt t.

Definition not_upper (c : ascii) : bool := negb (is_upper c).

(** The pattern of a cue between the marks [o] and [c]. *)
Definition bracket_regex (o c : ascii) : regex :=
  Cat (Chr o)
    (Cat (Group 1 (Cat (Cat (CSet true [CChar c]) (Star true (CSet true [CChar c]))) Eps))
       (Cat (Chr c) Eps)).

(** A text between the marks [o] and [c] of the text, without [c] in it. *)
Definition bracketed (o c : ascii) (text t : string) : Prop :=
  t <> "" /\ lacks c t = true /\
  occurs_in (String o "" ++ t ++ String c "") text.

(** A cue of the text: what stands between square or round brackets, in
    lower case. *)
Definition cue_of (text cue : string) : Prop :=
  exists t,
    cue = py_lower t /\ (bracketed "[" "]" text t \/ bracketed "(" ")" text t).

(** The text mentions one of the indicators. *)
Definition mentions (text_lower : string) (indicators : list string) : bool :=
  existsb (fun indicator => py_in indicator text_lower) indicators.

Definition is_dict (v : pyval) : bool :=
  match v with
  | PDict _ => true
  | _ => false
  end.

(** A value the loops of [_convert_to_parsed_scene] run through: iterating
    it yields dicts only. *)
Definition iterable_of_dicts (v : pyval) : bool :=
  match py_iter v with
  | Ok items => forallb is_dict items
  | Raise _ => false
  end.

(** The replies [_convert_to_parsed_scene] turns into a scene. *)
Definition well_shaped (data : pyval) : bool :=
  match data with
  | PDict d =>
      iterable_of_dicts (assoc_get d "characters" (PList [])) &&
      iterable_of_dicts (assoc_get d "dialogue" (PList []))
  | _ => false
  end.

Definition is_lookup_error (e : exn) : bool :=
  match e with
  | AttributeError | TypeError => true
  | _ => false
  end.

(** The pattern of the JSON salvage, as [re.compile] reads it. *)
Definition brace_regex : regex :=
  Cat (Chr "{") (Cat (Star true Any) (Cat (Chr "}") Eps)).

(** The match object of [whole], found before [rest]. *)
Definition span (whole rest : string) (last : ascii) : Match :=
  {| m_whole := whole; m_groups := []; m_prev := Some last; m_rest := rest |}.

Definition after_brace : kont :=
  fun p1 s1 cs1 =>
    rmatch DOTALL (Cat (Chr "}") Eps) p1 s1 cs1
      (fun p2 s2 cs2 => Some (p2, s2, cs2)).

(** The message sent to the remote service. *)
Definition user_message (prompt : string) : string :=
  "Parse this scene description:" ++ nl ++ nl ++ prompt.

(** The remote service answers the prompt with [reply]. *)
Definition remote_replies (self : NaturalLanguageProcessor) (now : nat)
  (prompt reply : string) : Prop :=
  exists c, client self = Some c /\
            chat_completions_create c now (user_message prompt) = Ok (Some reply).

(** An expression without lookahead: what its groups record, it has read. *)
Fixpoint no_ahead (r : regex) : bool :=
  match r with
  | Ahead _ _ => false
  | Cat a b | Alt a b => no_ahead a && no_ahead b
  | Star _ a | Group _ a => no_ahead a
  | _ => true
  end.

(** An expression that reads the character [d] in no letter case: its
    literal characters differ from [d] and its sets exclude [d]. *)
Fixpoint never_reads (d : ascii) (r : regex) : bool :=
  match r with
  | Chr c => negb (Ascii.eqb (to_lower c) (to_lower d))
  | Any => false
  | CSet neg items =>
      neg && existsb (fun it => match it with
                                | CChar c => Ascii.eqb c d
                                | _ => false
                                end) items
  | Cat a b | Alt a b => never_reads d a && never_reads d b
  | Star _ a | Group _ a => never_reads d a
  | _ => true
  end.

(** A pattern whose group 1 is set by every match, stands in the text and
    holds no [d]. *)
Definition phrase_pattern (d : ascii) (r : regex) : Prop :=
  In 1 (sure_groups r) /\ no_ahead r = true /\
  forall a, In (1, a) (groups_of r) -> never_reads d a = true.

(** A phrase of the text without the character [d]. *)
Definition phrase_of (d : ascii) (text t : string) : Prop :=
  occurs_in t text /\ lacks d t = true.

(** The same text up to the case of its letters. *)
Definition same_letters (a b : string) : Prop := py_lower a = py_lower b.

(** The verbs of [_extract_actions], without the optional s. *)
Definition action_stems : list string :=
  ["walk"; "run"; "enter"; "exit"; "sit"; "stand"; "look"; "turn"].

(** [t] begins with [stem], in any letter case. *)
Definition begins_with (stem t : string) : Prop :=
  exists u v, t = u ++ v /\ same_letters u stem.

(** An action of the scene: a phrase of the text without a full stop that
    begins with one of the verbs. *)
Definition action_phrase (text t : string) : Prop :=
  phrase_of "." text t /\ exists stem, In stem action_stems /\ begins_with stem t.

(** A pattern that is one group, and the group begins with the verb [stem]. *)
Definition stem_pattern (stem : string) (r : regex) : Prop :=
  exists rest, r = Cat (Group 1 (literal stem rest)) Eps.

(** [[^.]*?]: what stands between two words of one sentence. *)
Definition lazy_dots : regex := Star false (CSet true [CChar "."]).

(** The pattern of an emotion of a character, as [re.compile] reads it. *)
Definition emotion_regex (name emotion : string) : regex :=
  Alt (literal name (Cat lazy_dots (literal emotion Eps)))
      (literal emotion (Cat lazy_dots (literal name Eps))).

(** The two words stand in one sentence of the text, in either order and in
    any letter case. *)
Definition same_sentence (text a b : string) : Prop :=
  exists u d v,
    occurs_in (u ++ d ++ v) text /\ lacks "." d = true /\
    ((same_letters u a /\ same_letters v b) \/ (same_letters u b /\ same_letters v a)).

(** [a] is [b] with some members left out. *)
Inductive subsequence {A : Type} : list A -> list A -> Prop :=
  | subsequence_nil : subsequence [] []
  | subsequence_skip x a b : subsequence a b -> subsequence a (x :: b)
  | subsequence_take x a b : subsequence a b -> subsequence (x :: a) (x :: b).

(** The verbs of [_extract_character_actions]. *)
Definition character_verbs : list string :=
  ["walks"; "runs"; "sits"; "stands"; "looks"; "turns"; "moves"; "enters"; "exits";
   "grabs"; "holds"].

Definition verbs_of_character : regex :=
  Alt (literal "walks" Eps) (Alt (literal "runs" Eps) (Alt (literal "sits" Eps)
  (Alt (literal "stands" Eps) (Alt (literal "looks" Eps) (Alt (literal "turns" Eps)
  (Alt (literal "moves" Eps) (Alt (literal "enters" Eps) (Alt (literal "exits" Eps)
  (Alt (literal "grabs" Eps) (literal "holds" Eps)))))))))).

Definition actions_regex : regex :=
  Cat spaces1_regex (Cat (Group 1 verbs_of_character) Eps).

(** A verb that follows the name in the text, in any letter case. *)
Definition verb_after (text name t : string) : Prop :=
  In (py_lower t) character_verbs /\
  exists u sp,
    same_letters u name /\ sp <> "" /\ spaces sp = true /\
    occurs_in (u ++ sp ++ t) text.

Definition dots : regex := Star true (CSet true [CChar "."]).

Definition description_words : list string :=
  ["tall"; "short"; "young"; "old"; "beautiful"; "handsome"; "wearing"; "dressed"].

Definition description_keywords : regex :=
  Alt (literal "tall" Eps) (Alt (literal "short" Eps) (Alt (literal "young" Eps)
  (Alt (literal "old" Eps) (Alt (literal "beautiful" Eps) (Alt (literal "handsome" Eps)
  (Alt (literal "wearing" Eps) (literal "dressed" Eps))))))).

Definition description_regex : regex :=
  Cat lazy_dots
    (Cat (Group 1 (Cat dots (Cat description_keywords (Cat dots Eps)))) Eps).

(** A phrase about the character: it follows the name in the same
    sentence, holds one of the eight words and no full stop. *)
Definition describes (text name g : string) : Prop :=
  lacks "." g = true /\
  (exists x kw y, g = x ++ kw ++ y /\ In (py_lower kw) description_words) /\
  exists u d,
    same_letters u name /\ lacks "." d = true /\ occurs_in (u ++ d ++ g) text.

(** The pattern of the names, as [re.compile] reads it. *)
Definition name_regex : regex :=
  Cat (WordB false)
    (Cat (Group 1 capitalized_regex)
       (Cat (Ahead true
               (Cat spaces_regex
                  (Cat (CSet false [CChar ":"; CChar dquote; CChar dquote]) Eps)))
          Eps)).

(** A capitalized word of the text. *)
Definition name_of (text n : string) : Prop :=
  capitalized n = true /\ occurs_in n text.
















(** ** Concrete processors, runtimes and prompts *)

(** Two iteration orders that satisfy [set_contract]. *)
Definition kept_order (l : list string) : list string := nodup string_dec l.

Definition reversed_order (l : list string) : list string := rev (nodup string_dec l).

(** A JSON parser that rejects every text. *)
Definition no_json (t : string) : result pyval := Raise JSONDecodeError.

(** No API key and no NER pipeline: local processing with the regex
    heuristics. *)
Definition local_only : NaturalLanguageProcessor :=
  {| client := None; ner_pipeline := None |}.

(** No API key, and a NER pipeline that raises on every text. *)
Definition broken_ner : NaturalLanguageProcessor :=
  {| client := None;
     ner_pipeline := Some (fun _ => Raise (Exception "pipeline failed")) |}.

(** A remote service that always answers with the text [reply]. *)
Definition remote_says (reply : string) : NaturalLanguageProcessor :=
  {| client := Some {| chat_completions_create := fun _ _ => Ok (Some reply) |};
     ner_pipeline := None |}.

(** A JSON parser that knows one text. *)
Definition json_only (known : string) (value : pyval) (t : string) : result pyval :=
  if String.eqb t known then Ok value else Raise JSONDecodeError.

Definition reply_long : string :=
  "{" ++ dq ++ "duration_estimate" ++ dq ++ ": 100}".

Definition reply_null_environment : string :=
  "{" ++ dq ++ "environment" ++ dq ++ ": null}".

Definition prompt_asked : string :=
  dq ++ "Where are we going?" ++ dq ++ " asked Bob".

Definition prompt_asks : string :=
  dq ++ "Where are we going?" ++ dq ++ " asks Bob".

Definition prompt_mixed : string :=
  "Alice: " ++ dq ++ "Hello" ++ dq ++ " then " ++ dq ++ "Goodbye" ++ dq ++ " said Bob".

Definition prompt_shout : string := dq ++ "Hi!" ++ dq.

Definition prompt_two_names : string :=
  "Bob: " ++ dq ++ "hi" ++ dq ++ " Alice: " ++ dq ++ "yo" ++ dq.

Definition prompt_long : string :=
  "Alice walks into the quiet office and sits down on the old chair by the window. Bob looks at her and turns towards the door because the long meeting was about to start, and nobody else had arrived in the building yet.".

Definition prompt_alice : string :=
  "Alice: " ++ dq ++ "I can't believe it!" ++ dq.

Definition prompt_bare_quotes : string :=
  dq ++ "Hello." ++ dq ++ " " ++ dq ++ "Goodbye." ++ dq.

Definition prompt_slug : string := "INT. COFFEE SHOP - DAY".

Definition reply_object : string := "{" ++ dq ++ "mood" ++ dq ++ ": " ++ dq ++ "tense" ++ dq ++ "}".

Definition reply_in_prose : string :=
  "Here is the parsed scene: " ++ reply_object ++ " I hope this helps.".

Definition plain_line (character text emotion : string) : DialogueLine.t :=
  DialogueLine.mk (PStr character) (PStr text) (PStr emotion) (PStr "")
    default_timing (PList []).

(** No API key, and a NER pipeline that finds [entities] in every text. *)
Definition ner_finds (entities : list Entity) : NaturalLanguageProcessor :=
  {| client := None; ner_pipeline := Some (fun _ => Ok entities) |}.

Definition prompt_moods : string := "A sad and tense night".

Definition prompt_bob : string :=
  "Bob looks happy. Bob  WALKS home, tall and proud.".

Definition reply_sorry : string := "Sorry, I cannot parse this scene.".

Definition prompt_cues : string := "[Laughs] well (sighs)".

(** ** Tactics

    The fixed patterns are closed strings: their compiled form is computed. *)

(** [compiled pattern] adds the equation [re_compile pattern = Ok ...]. *)
Ltac compiled pattern :=
  let r := eval vm_compute in (re_compile pattern) in
  assert (re_compile pattern = r) by (vm_compute; reflexivity).

(** A fixed pattern compiles and has the group on every path. *)
Ltac sure_pattern_tac :=
  match goal with
  | |- sure_pattern _ ?pattern =>
      let r := eval vm_compute in (re_compile pattern) in
      match r with
      | Ok ?pat => exists pat; split; [vm_compute; reflexivity | simpl; tauto]
      end
  end.

(** A fixed pattern compiles. *)
Ltac compiles_tac :=
  match goal with
  | |- exists pat, re_compile ?pattern = Ok pat =>
      let r := eval vm_compute in (re_compile pattern) in
      match r with
      | Ok ?pat => exists pat; vm_compute; reflexivity
      end
  end.

Ltac stem_pattern_tac stem :=
  match goal with
  | |- exists pat st, re_compile ?pattern = Ok pat /\ _ =>
      let r := eval vm_compute in (re_compile pattern) in
      match r with
      | Ok ?pat =>
          exists pat, stem; split; [vm_compute; reflexivity|];
          split;
          [ split; [simpl; tauto|]; split; [reflexivity|];
            intros a Ha; simpl in Ha;
            repeat (destruct Ha as [Ha|Ha]; [inversion Ha; subst; reflexivity|]);
            contradiction
          | split; [simpl; tauto|eexists; cbn [p_regex literal]; reflexivity] ]
      end
  end.

(** * Properties

    ** Strings *)

Lemma append_length a b : String.length (a ++ b) = String.length a + String.length b.
Proof.
  induction a; simpl; [reflexivity|]. f_equal. assumption.
Qed.

Lemma append_assoc (a b c : string) : (a ++ b) ++ c = a ++ (b ++ c).
Proof.
  induction a; simpl; [reflexivity|]. f_equal. assumption.
Qed.

Lemma append_nil_r (s : string) : s ++ "" = s.
Proof.
  induction s; simpl; [reflexivity|]. f_equal. assumption.
Qed.



Lemma py_prefix_append w : forall s1, py_prefix (String.length w) (w ++ s1) = w.
Proof.
  induction w as [|c w IH]; intros s1; simpl.
  - destruct s1; reflexivity.
  - f_equal. apply IH.
Qed.

Lemma consumed_append w s1 : consumed (w ++ s1) s1 = w.
Proof.
  unfold consumed. rewrite append_length.
  replace (String.length w + String.length s1 - String.length s1) with (String.length w) by lia.
  apply py_prefix_append.
Qed.

Lemma str_forall_append f a b :
  str_forall f (a ++ b) = str_forall f a && str_forall f b.
Proof.
  induction a; simpl; [reflexivity|]. rewrite IHa. apply andb_assoc.
Qed.




Lemma in_range_upper_letter x : in_range "A" "Z" x = true -> is_letter x = true.
Proof.
  intros H. unfold is_letter, is_upper. rewrite H. reflexivity.
Qed.

Lemma in_range_lower_letter x : in_range "a" "z" x = true -> is_letter x = true.
Proof.
  intros H. unfold is_letter, is_lower. rewrite H. apply orb_true_r.
Qed.

Lemma letter_is_ordinary c :
  is_letter c = true ->
  Ascii.eqb c "(" = false /\ Ascii.eqb c "[" = false /\ Ascii.eqb c "\" = false /\
  Ascii.eqb c "." = false /\ Ascii.eqb c "^" = false /\ Ascii.eqb c "$" = false /\
  Ascii.eqb c "{" = false /\ Ascii.eqb c "|" = false /\ Ascii.eqb c ")" = false /\
  is_quantifier c = false.
Proof.
  destruct c as [[] [] [] [] [] [] [] []]; intros H;
    try discriminate H; vm_compute; repeat split.
Qed.

(** ** The result monad and the loops *)

Lemma bind_ok {A B : Type} (a : A) (f : A -> result B) : bind (Ok a) f = f a.
Proof. reflexivity. Qed.

Lemma bind_inv {A B : Type} (c : result A) (f : A -> result B) b :
  bind c f = Ok b -> exists a, c = Ok a /\ f a = Ok b.
Proof.
  destruct c as [a|e]; simpl; [eauto|discriminate].
Qed.

Lemma mapM_total {A B : Type} (f : A -> result B) (l : list A) :
  Forall (fun a => exists b, f a = Ok b) l ->
  exists bs, mapM f l = Ok bs /\ Forall2 (fun a b => f a = Ok b) l bs.
Proof.
  induction 1 as [|a l [b Hb] _ [bs [Hbs HF]]]; simpl.
  - exists []. split; [reflexivity|constructor].
  - exists (b :: bs). rewrite Hb, Hbs. simpl. split; [reflexivity|].
    constructor; assumption.
Qed.

Lemma mapM_Forall2 {A B : Type} (f : A -> result B) (l : list A) : forall bs,
  mapM f l = Ok bs -> Forall2 (fun a b => f a = Ok b) l bs.
Proof.
  induction l as [|a l IH]; simpl; intros bs H.
  - inversion H. constructor.
  - destruct (f a) as [b|] eqn:Ha; [|discriminate]. rewrite bind_ok in H.
    destruct (mapM f l) as [bs'|] eqn:Hl; [|discriminate]. rewrite bind_ok in H.
    inversion H; subst. constructor; auto.
Qed.

Lemma enumerate_from_Forall {A : Type} (P : A -> Prop) l :
  Forall P l -> forall i, Forall (fun im => P (snd im)) (enumerate_from i l).
Proof.
  induction 1; intros i; simpl; constructor; auto.
Qed.

Lemma enumerate_from_snd {A : Type} (l : list A) : forall i,
  map snd (enumerate_from i l) = l.
Proof.
  induction l; intros i; simpl; [reflexivity|]. f_equal. apply IHl.
Qed.

Lemma filter_permutation {A : Type} (f : A -> bool) (l l' : list A) :
  Permutation l l' -> Permutation (filter f l) (filter f l').
Proof.
  induction 1; simpl.
  - constructor.
  - destruct (f x); [constructor|]; assumption.
  - destruct (f x), (f y); first [apply perm_swap | apply Permutation_refl].
  - eapply Permutation_trans; eauto.
Qed.

(** ** The matcher sets the groups that lie on every path *)

Lemma has_group_cons n m t cs : has_group cs n -> has_group ((m, t) :: cs) n.
Proof.
  unfold has_group; simpl. destruct (n =? m); [discriminate | auto].
Qed.

Lemma has_group_here n t cs : has_group ((n, t) :: cs) n.
Proof.
  unfold has_group; simpl. rewrite Nat.eqb_refl. discriminate.
Qed.

Lemma offers_here (cs : caps) (k : kont) res p s :
  k p s cs = Some res -> offers [] cs k res.
Proof.
  intros H. exists p, s, cs. split; [exact H|]. split; [intros n []|auto].
Qed.

Lemma offers_weaken sure cs k res :
  offers sure cs k res -> offers [] cs k res.
Proof.
  intros (p1 & s1 & cs1 & H & _ & Hm). exists p1, s1, cs1.
  split; [exact H|]. split; [intros n []|exact Hm].
Qed.

Lemma star_loop_offers body greedy k :
  (forall p s cs k' res, body p s cs k' = Some res -> offers [] cs k' res) ->
  forall n p s cs res,
    star_loop body greedy k n p s cs = Some res -> offers [] cs k res.
Proof.
  intros Hbody. induction n as [|n IH]; intros p s cs res H; simpl in H.
  - eapply offers_here; eauto.
  - set (a := body p s cs (fun p1 s1 cs1 =>
        if String.length s1 <? String.length s
        then star_loop body greedy k n p1 s1 cs1 else None)) in H.
    assert (Hagain : forall res', a = Some res' -> offers [] cs k res').
    { intros res' E. apply Hbody in E. destruct E as (p1 & s1 & cs1 & E & _ & Hm).
      destruct (String.length s1 <? String.length s); [|discriminate].
      apply IH in E. destruct E as (p2 & s2 & cs2 & E & _ & Hm2).
      exists p2, s2, cs2. split; [exact E|]. split; [intros ? []|auto]. }
    clearbody a. destruct greedy.
    + destruct a as [m|].
      * inversion H; subst. apply Hagain. reflexivity.
      * eapply offers_here; eauto.
    + destruct (k p s cs) eqn:E.
      * inversion H; subst. eapply offers_here; eauto.
      * apply Hagain. exact H.
Qed.

Lemma rmatch_offers fl r :
  forall p s cs k res,
    rmatch fl r p s cs k = Some res -> offers (sure_groups r) cs k res.
Proof.
  induction r; intros p s cs k res H; simpl in H.
  - eapply offers_here; eauto.
  - destruct s as [|x s']; [discriminate|].
    destruct (chr_eq fl c x); [|discriminate]. eapply offers_here; eauto.
  - destruct s as [|x s']; [discriminate|].
    destruct (dotall fl || negb (Ascii.eqb x newline)); [|discriminate].
    eapply offers_here; eauto.
  - destruct s as [|x s']; [discriminate|].
    destruct (cset_mem fl negated items x); [|discriminate].
    eapply offers_here; eauto.
  - apply IHr1 in H. destruct H as (p1 & s1 & cs1 & H & Hs1 & Hm1).
    apply IHr2 in H. destruct H as (p2 & s2 & cs2 & H & Hs2 & Hm2).
    exists p2, s2, cs2. split; [exact H|]. split.
    + simpl. intros n Hn. apply in_app_or in Hn. destruct Hn; auto.
    + auto.
  - destruct (rmatch fl r1 p s cs k) eqn:E.
    + inversion H; subst. apply IHr1 in E. eapply offers_weaken; eauto.
    + apply IHr2 in H. eapply offers_weaken; eauto.
  - eapply star_loop_offers; [|exact H].
    intros p' s' cs' k' res' E. apply IHr in E. eapply offers_weaken; eauto.
  - apply IHr in H. destruct H as (p1 & s1 & cs1 & H & Hs & Hm).
    eexists _, _, _. split; [exact H|]. split.
    + simpl. intros m [<-|Hin]; [apply has_group_here|apply has_group_cons; auto].
    + intros m Hm'. apply has_group_cons; auto.
  - destruct (rmatch fl r p s cs (fun p1 s1 cs1 => Some (p1, s1, cs1))) as [[[p1 s1] cs1]|] eqn:E.
    + destruct positive; [|discriminate].
      apply IHr in E. destruct E as (p2 & s2 & cs2 & E & Hs & Hm).
      inversion E; subst. exists p, s, cs1. simpl. auto.
    + destruct positive; [discriminate|]. eapply offers_here; eauto.
  - destruct (xorb negated (at_word_boundary p s)); [|discriminate].
    eapply offers_here; eauto.
  - destruct p; [discriminate|]. eapply offers_here; eauto.
  - destruct (at_end s); [|discriminate]. eapply offers_here; eauto.
  - destruct (is_empty s); [|discriminate]. eapply offers_here; eauto.
Qed.

Lemma match_here_sure fl r adv p s m :
  match_here fl r adv p s = Some m -> sure_match r m.
Proof.
  unfold match_here. intros H.
  destruct (rmatch fl r p s [] _) as [[[p1 s1] cs1]|] eqn:E; [|discriminate].
  inversion H; subst; clear H.
  apply rmatch_offers in E. destruct E as (p2 & s2 & cs2 & E & Hs & _).
  destruct (adv && _); [discriminate|]. inversion E; subst.
  intros n Hn. unfold group. destruct n; [discriminate|]. simpl. apply Hs, Hn.
Qed.

Lemma search_from_sure fl r s : forall adv p m,
  search_from fl r adv p s = Some m -> sure_match r m.
Proof.
  induction s as [|c s IH]; intros adv p m H; simpl in H.
  - destruct (match_here fl r adv p "") eqn:E; [|discriminate].
    inversion H; subst. eapply match_here_sure; eauto.
  - destruct (match_here fl r adv p (String c s)) eqn:E.
    + inversion H; subst. eapply match_here_sure; eauto.
    + eapply IH; eauto.
Qed.

Lemma finditer_from_sure fl r fuel : forall adv p s,
  Forall (sure_match r) (finditer_from fuel fl r adv p s).
Proof.
  induction fuel as [|fuel IH]; intros adv p s; simpl; [constructor|].
  destruct (search_from fl r adv p s) eqn:E; [|constructor].
  constructor; [eapply search_from_sure; eauto|apply IH].
Qed.

Lemma re_finditer_sure {pattern pat} :
  re_compile pattern = Ok pat ->
  forall text fl, exists ms, re_finditer pattern text fl = Ok ms /\ Forall (sure_match (p_regex pat)) ms.
Proof.
  intros H text fl. unfold re_finditer. rewrite H. simpl. eexists. split; [reflexivity|].
  apply finditer_from_sure.
Qed.

Lemma sure_group_some {r m} n :
  sure_match r m -> In n (sure_groups r) -> exists t, group m n = Some t.
Proof.
  intros H Hn. specialize (H n Hn). destruct (group m n) as [t|]; [eauto|congruence].
Qed.

Lemma mapM_sure {B : Type} r n (f : Match -> result B) ms :
  Forall (sure_match r) ms ->
  In n (sure_groups r) ->
  (forall m t, group m n = Some t -> exists b, f m = Ok b) ->
  exists bs, mapM f ms = Ok bs /\ Forall2 (fun m b => f m = Ok b) ms bs.
Proof.
  intros HF Hn Hf. apply mapM_total.
  eapply Forall_impl; [|exact HF]. intros m Hm.
  destruct (sure_group_some n Hm Hn) as [t Ht]. eauto.
Qed.

(** ** The text of a group *)

Lemma reads_here f n (only : Prop) s k res p cs :
  k p s cs = Some res -> group_satisfies f n cs -> reads f n only s k res.
Proof.
  intros H HI. exists p, s, cs, "". repeat split; auto.
Qed.

Lemma reads_char f n (only : Prop) x s k res cs :
  k (Some x) s cs = Some res -> group_satisfies f n cs ->
  (only -> f x = true) ->
  reads f n only (String x s) k res.
Proof.
  intros H HI Hx. exists (Some x), s, cs, (String x ""). repeat split; auto.
  intros Ho. simpl. rewrite (Hx Ho). reflexivity.
Qed.

Lemma reads_weaken f n (only only' : Prop) s k res :
  reads f n only s k res -> (only' -> only) -> reads f n only' s k res.
Proof.
  intros (p1 & s1 & cs1 & w & H & Hs & HI & Hw) Himp.
  exists p1, s1, cs1, w. repeat split; auto.
Qed.

Lemma star_loop_reads f n (only : Prop) body greedy k :
  (forall p s cs k' res,
     body p s cs k' = Some res -> group_satisfies f n cs ->
     reads f n only s k' res) ->
  forall i p s cs res,
    star_loop body greedy k i p s cs = Some res -> group_satisfies f n cs ->
    reads f n only s k res.
Proof.
  intros Hbody. induction i as [|i IH]; intros p s cs res H HI; simpl in H.
  - eapply reads_here; eauto.
  - set (a := body p s cs (fun p1 s1 cs1 =>
        if String.length s1 <? String.length s
        then star_loop body greedy k i p1 s1 cs1 else None)) in H.
    assert (Hagain : forall res', a = Some res' -> reads f n only s k res').
    { intros res' E. apply Hbody in E; [|exact HI].
      destruct E as (p1 & s1 & cs1 & w & E & Hs & HI1 & Hw).
      destruct (String.length s1 <? String.length s); [|discriminate].
      apply IH in E; [|exact HI1].
      destruct E as (p2 & s2 & cs2 & w2 & E & Hs2 & HI2 & Hw2).
      exists p2, s2, cs2, (w ++ w2). repeat split; auto.
      - rewrite Hs, Hs2. symmetry. apply append_assoc.
      - intros Ho. rewrite str_forall_append, Hw, Hw2; auto. }
    clearbody a. destruct greedy.
    + destruct a as [m|].
      * inversion H; subst. apply Hagain. reflexivity.
      * eapply reads_here; eauto.
    + destruct (k p s cs) eqn:E.
      * inversion H; subst. eapply reads_here; eauto.
      * apply Hagain. exact H.
Qed.

Lemma rmatch_reads fl f n r :
  group_reads_only fl f n r ->
  forall p s cs k res,
    rmatch fl r p s cs k = Some res -> group_satisfies f n cs ->
    reads f n (reads_only fl f r) s k res.
Proof.
  induction r; intros Hg p s cs k res H HI; simpl in H, Hg.
  - eapply reads_here; eauto.
  - destruct s as [|x s']; [discriminate|].
    destruct (chr_eq fl c x) eqn:E; [|discriminate].
    eapply reads_char; eauto; simpl; auto.
  - destruct s as [|x s']; [discriminate|].
    destruct (dotall fl || negb (Ascii.eqb x newline)); [|discriminate].
    eapply reads_char; eauto; simpl; auto.
  - destruct s as [|x s']; [discriminate|].
    destruct (cset_mem fl negated items x) eqn:E; [|discriminate].
    eapply reads_char; eauto; simpl; auto.
  - destruct Hg as [Hg1 Hg2].
    apply (IHr1 Hg1) in H; [|exact HI].
    destruct H as (p1 & s1 & cs1 & w1 & H & Hs1 & HI1 & Hw1).
    apply (IHr2 Hg2) in H; [|exact HI1].
    destruct H as (p2 & s2 & cs2 & w2 & H & Hs2 & HI2 & Hw2).
    exists p2, s2, cs2, (w1 ++ w2). repeat split; auto.
    + rewrite Hs1, Hs2. symmetry. apply append_assoc.
    + simpl. intros [Ha Hb]. rewrite str_forall_append, Hw1, Hw2; auto.
  - destruct Hg as [Hg1 Hg2]. destruct (rmatch fl r1 p s cs k) eqn:E.
    + inversion H; subst. apply (IHr1 Hg1) in E; [|exact HI].
      eapply reads_weaken; [exact E|]. simpl. tauto.
    + apply (IHr2 Hg2) in H; [|exact HI].
      eapply reads_weaken; [exact H|]. simpl. tauto.
  - eapply star_loop_reads; [|exact H|exact HI].
    intros p' s' cs' k' res' E HI'. apply (IHr Hg) in E; [|exact HI']. exact E.
  - destruct Hg as [Hn Hg]. apply (IHr Hg) in H; [|exact HI].
    destruct H as (p1 & s1 & cs1 & w & H & Hs & HI1 & Hw).
    exists p1, s1, ((n0, consumed s s1) :: cs1), w. repeat split; auto.
    intros t Ht. simpl in Ht. destruct (n =? n0) eqn:En.
    + apply Nat.eqb_eq in En. inversion Ht; subst.
      rewrite consumed_append. apply Hw. apply Hn. reflexivity.
    + apply HI1. exact Ht.
  - destruct (rmatch fl r p s cs (fun p1 s1 cs1 => Some (p1, s1, cs1)))
      as [[[p1 s1] cs1]|] eqn:E.
    + destruct positive; [|discriminate].
      apply (IHr Hg) in E; [|exact HI].
      destruct E as (p2 & s2 & cs2 & w & E & _ & HI2 & _).
      inversion E; subst. eapply reads_here; eauto.
    + destruct positive; [discriminate|]. eapply reads_here; eauto.
  - destruct (xorb negated (at_word_boundary p s)); [|discriminate].
    eapply reads_here; eauto.
  - destruct p; [discriminate|]. eapply reads_here; eauto.
  - destruct (at_end s); [|discriminate]. eapply reads_here; eauto.
  - destruct (is_empty s); [|discriminate]. eapply reads_here; eauto.
Qed.

Lemma match_here_reads fl f n r adv p s m :
  group_reads_only fl f n r ->
  match_here fl r adv p s = Some m -> match_group_satisfies f n m.
Proof.
  unfold match_here. intros Hg H.
  destruct (rmatch fl r p s [] _) as [[[p1 s1] cs1]|] eqn:E; [|discriminate].
  inversion H; subst; clear H.
  apply (rmatch_reads _ _ _ _ Hg) in E; [|intros t Ht; discriminate Ht].
  destruct E as (p2 & s2 & cs2 & w & E & _ & HI & _).
  destruct (adv && _); [discriminate|]. inversion E; subst. exact HI.
Qed.

Lemma search_from_reads fl f n r s :
  group_reads_only fl f n r ->
  forall adv p m,
    search_from fl r adv p s = Some m -> match_group_satisfies f n m.
Proof.
  intros Hg. induction s as [|c s IH]; intros adv p m H; simpl in H.
  - destruct (match_here fl r adv p "") eqn:E; [|discriminate].
    inversion H; subst. eapply match_here_reads; eauto.
  - destruct (match_here fl r adv p (String c s)) eqn:E.
    + inversion H; subst. eapply match_here_reads; eauto.
    + eapply IH; eauto.
Qed.

Lemma finditer_from_reads fl f n r fuel :
  group_reads_only fl f n r ->
  forall adv p s,
    Forall (match_group_satisfies f n) (finditer_from fuel fl r adv p s).
Proof.
  intros Hg. induction fuel as [|fuel IH]; intros adv p s; simpl; [constructor|].
  destruct (search_from fl r adv p s) eqn:E; [|constructor].
  constructor; [eapply search_from_reads; eauto|apply IH].
Qed.

(** ** The parser: more fuel, deeper nesting, letters in front of a pattern *)

Lemma extends_refl p : extends p p.
Proof. intros s g x H. exact H. Qed.

Lemma parse_capture_extends {alt alt'} :
  extends alt alt' -> extends (parse_capture alt) (parse_capture alt').
Proof.
  intros H s g x. unfold parse_capture. intros E.
  apply bind_inv in E. destruct E as (r & Er & E).
  rewrite (H _ _ _ Er), bind_ok. exact E.
Qed.

Lemma parse_group_extends {alt alt'} :
  extends alt alt' -> extends (parse_group alt) (parse_group alt').
Proof.
  intros H s g x. unfold parse_group.
  pose proof (parse_capture_extends H) as Hc.
  destruct s as [|c [|k s1]]; try apply Hc.
  destruct (Ascii.eqb c "?"); [|apply Hc].
  destruct (Ascii.eqb k ":"); [|destruct (Ascii.eqb k "="); [|destruct (Ascii.eqb k "!")]];
    try discriminate;
    intros E; apply bind_inv in E; destruct E as (r & Er & E);
    rewrite (H _ _ _ Er), bind_ok; exact E.
Qed.

Lemma parse_atom_extends alt alt' :
  extends alt alt' -> extends (parse_atom alt) (parse_atom alt').
Proof.
  intros H s g x. unfold parse_atom. destruct s as [|c s1]; [discriminate|].
  destruct (Ascii.eqb c "("); [apply (parse_group_extends H)|]. auto.
Qed.

Lemma parse_seq_extends {atom atom'} :
  extends atom atom' ->
  forall fuel fuel' s g x,
    parse_seq atom fuel s g = Ok x -> fuel <= fuel' ->
    parse_seq atom' fuel' s g = Ok x.
Proof.
  intros H. induction fuel as [|fuel IH]; intros fuel' s g x E Hle; [discriminate|].
  destruct fuel' as [|fuel']; [lia|]. simpl in *.
  destruct s as [|c s1]; [exact E|].
  destruct (Ascii.eqb c "|" || Ascii.eqb c ")"); [exact E|].
  apply bind_inv in E. destruct E as ([[a s2] g1] & Ea & E).
  rewrite (H _ _ _ Ea), bind_ok.
  destruct (parse_quantifier a s2) as [[q s3]|]; [|discriminate].
  rewrite bind_ok in *.
  apply bind_inv in E. destruct E as (r2 & E2 & E).
  rewrite (IH fuel' _ _ _ E2), bind_ok; [exact E|lia].
Qed.

Lemma parse_alt_extends atom atom' :
  extends atom atom' ->
  forall fuel fuel' s g x,
    parse_alt atom fuel s g = Ok x -> fuel <= fuel' ->
    parse_alt atom' fuel' s g = Ok x.
Proof.
  intros H. induction fuel as [|fuel IH]; intros fuel' s g x E Hle; [discriminate|].
  destruct fuel' as [|fuel']; [lia|]. cbn [parse_alt] in *.
  apply bind_inv in E. destruct E as ([[a s1] g1] & Ea & E).
  rewrite (parse_seq_extends H _ _ _ _ _ Ea (Nat.le_refl _)), bind_ok.
  destruct s1 as [|c s2]; [exact E|].
  destruct (Ascii.eqb c "|"); [|exact E].
  apply bind_inv in E. destruct E as (r2 & E2 & E).
  rewrite (IH fuel' _ _ _ E2), bind_ok; [exact E|lia].
Qed.

Lemma parse_regex_extends : forall depth depth',
  depth <= depth' -> extends (parse_regex depth) (parse_regex depth').
Proof.
  induction depth as [|depth IH]; intros depth' Hle s g x E; [discriminate|].
  destruct depth' as [|depth']; [lia|]. cbn [parse_regex] in *.
  eapply parse_alt_extends; [|exact E|lia].
  apply parse_atom_extends, IH. lia.
Qed.

Lemma parse_seq_fuel atom fuel fuel' s g x :
  parse_seq atom fuel s g = Ok x -> fuel <= fuel' ->
  parse_seq atom fuel' s g = Ok x.
Proof.
  apply parse_seq_extends, extends_refl.
Qed.

Lemma parse_atom_letter alt c s g :
  is_letter c = true -> parse_atom alt (String c s) g = Ok (Chr c, s, g).
Proof.
  intros H. destruct (letter_is_ordinary _ H)
    as (H1 & H2 & H3 & H4 & H5 & H6 & H7 & _ & _ & H8).
  unfold parse_atom. rewrite H1, H2, H3, H4, H5, H6, H7, H8. reflexivity.
Qed.

Lemma parse_quantifier_none a s :
  no_quantifier_ahead s = true -> parse_quantifier a s = Ok (a, s).
Proof.
  destruct s as [|c s]; [reflexivity|]. simpl. intros H.
  apply negb_true_iff in H. rewrite H. reflexivity.
Qed.

Lemma no_quantifier_letters w rest :
  str_forall is_letter w = true -> no_quantifier_ahead rest = true ->
  no_quantifier_ahead (w ++ rest) = true.
Proof.
  destruct w as [|c w]; simpl; [auto|]. intros H _.
  apply andb_true_iff in H. destruct H as [H _].
  destruct (letter_is_ordinary _ H) as (_ & _ & _ & _ & _ & _ & _ & _ & _ & Hq).
  rewrite Hq. reflexivity.
Qed.

(** A run of letters in front of [rest] parses to the literal of the run in
    front of what [rest] parses to. *)
Lemma parse_seq_letters alt w : forall fuel rest g r s3 g3,
  str_forall is_letter w = true ->
  no_quantifier_ahead rest = true ->
  parse_seq (parse_atom alt) fuel rest g = Ok (r, s3, g3) ->
  parse_seq (parse_atom alt) (String.length w + fuel) (w ++ rest) g =
    Ok (literal w r, s3, g3).
Proof.
  induction w as [|c w IH]; intros fuel rest g r s3 g3 Hw Hq E; [exact E|].
  simpl in Hw. apply andb_true_iff in Hw. destruct Hw as [Hc Hw].
  destruct (letter_is_ordinary _ Hc) as (_ & _ & _ & _ & _ & _ & _ & Hb & Hp & _).
  change (String.length (String c w) + fuel) with (S (String.length w + fuel)).
  cbn [append parse_seq]. rewrite Hb, Hp. cbn [orb].
  rewrite parse_atom_letter, bind_ok by exact Hc.
  rewrite parse_quantifier_none, bind_ok by (apply no_quantifier_letters; assumption).
  rewrite (IH _ _ _ _ _ _ Hw Hq E), bind_ok. reflexivity.
Qed.

Lemma sure_groups_literal w r : sure_groups (literal w r) = sure_groups r.
Proof.
  induction w; simpl; auto.
Qed.

(** A pattern made of a run of letters in front of a pattern [sfx] that has
    no bar at its top level: the literal of the run in front of the
    expression of [sfx]. *)
Lemma re_compile_prefixed name sfx r g :
  str_forall is_letter name = true ->
  no_quantifier_ahead sfx = true ->
  parse_seq (parse_atom (parse_regex (String.length sfx))) (S (String.length sfx)) sfx 0
    = Ok (r, "", g) ->
  re_compile (name ++ sfx) = Ok {| p_regex := literal name r; p_groups := g |}.
Proof.
  intros Hn Hq E. unfold re_compile. cbn [parse_regex parse_alt].
  assert (E' : parse_seq (parse_atom (parse_regex (String.length (name ++ sfx))))
                 (S (String.length (name ++ sfx))) (name ++ sfx) 0
               = Ok (literal name r, "", g)).
  { rewrite append_length at 2.
    replace (S (String.length name + String.length sfx))
      with (String.length name + S (String.length sfx)) by lia.
    apply parse_seq_letters; try assumption.
    eapply parse_seq_extends; [|exact E|lia].
    apply parse_atom_extends, parse_regex_extends. rewrite append_length. lia. }
  rewrite E', !bind_ok. reflexivity.
Qed.

Lemma parse_seq_lazy_dots alt fuel rest g r s3 g3 :
  parse_seq (parse_atom alt) fuel rest g = Ok (r, s3, g3) ->
  parse_seq (parse_atom alt) (S fuel) ("[^.]*?" ++ rest) g =
    Ok (Cat (Star false (CSet true [CChar "."])) r, s3, g3).
Proof.
  intros E. cbn. rewrite E. reflexivity.
Qed.

Lemma emotion_pattern_compiles name emotion :
  str_forall is_letter name = true ->
  str_forall is_letter emotion = true ->
  exists pat,
    re_compile (name ++ "[^.]*?" ++ emotion ++ "|" ++ emotion ++ "[^.]*?" ++ name)
      = Ok pat.
Proof.
  intros Hn He. unfold re_compile.
  set (second := emotion ++ "[^.]*?" ++ name).
  set (whole := name ++ "[^.]*?" ++ emotion ++ "|" ++ second).
  cbn [parse_regex]. set (atom := parse_atom (parse_regex (String.length whole))).
  assert (Hlen2 : String.length second = String.length emotion + (6 + String.length name)).
  { unfold second. rewrite !append_length. reflexivity. }
  assert (Hlen : String.length whole =
                 String.length name + (6 + (String.length emotion + S (String.length second)))).
  { unfold whole. rewrite !append_length. reflexivity. }
  (* the second alternative *)
  assert (A0 : exists b, parse_seq atom (S (String.length second)) second 0
                         = Ok (b, "", 0)).
  { eexists. eapply parse_seq_fuel;
      [|instantiate (1 := String.length emotion + S (String.length name + 1)); lia].
    unfold second. apply parse_seq_letters; [exact He|reflexivity|].
    apply parse_seq_lazy_dots.
    rewrite <- (append_nil_r name) at 2.
    apply parse_seq_letters; [exact Hn|reflexivity|reflexivity]. }
  destruct A0 as [b A0].
  assert (A : parse_alt atom 1 second 0 = Ok (b, "", 0)).
  { cbn [parse_alt]. rewrite A0, bind_ok. reflexivity. }
  (* the first alternative, up to the bar *)
  assert (B : exists a, parse_seq atom (S (String.length whole)) whole 0
                        = Ok (a, "|" ++ second, 0)).
  { eexists. eapply parse_seq_fuel;
      [|instantiate (1 := String.length name + S (String.length emotion + 1)); lia].
    unfold whole. apply parse_seq_letters; [exact Hn|reflexivity|].
    apply parse_seq_lazy_dots.
    apply parse_seq_letters; [exact He|reflexivity|reflexivity]. }
  destruct B as [a B].
  cbn [parse_alt]. rewrite B, bind_ok. cbn [append].
  change (Ascii.eqb "|" "|") with true. cbv iota.
  rewrite (parse_alt_extends _ _ (extends_refl atom) _ _ _ _ _ A), !bind_ok by lia.
  eauto.
Qed.

(** ** The sub-extractors return *)

Lemma cue_total m t :
  group m 1 = Some t -> exists c, cue_of_match m = Ok c.
Proof.
  intros H. unfold cue_of_match. rewrite H. simpl. eauto.
Qed.

Lemma non_verbal_of_total patterns text :
  Forall (sure_pattern 1) patterns ->
  exists cues, non_verbal_of patterns text = Ok cues.
Proof.
  induction 1 as [|pattern rest (pat & Hc & Hs) _ [more IH]]; simpl.
  - eauto.
  - destruct (re_finditer_sure Hc text NOFLAG) as (ms & E & F).
    destruct (mapM_sure _ 1 cue_of_match ms F Hs) as (c & C & _);
      [apply cue_total|].
    rewrite E, bind_ok, C, bind_ok, IH, bind_ok. eauto.
Qed.

Lemma non_verbal_total text : exists cues, _extract_non_verbal_cues text = Ok cues.
Proof.
  apply non_verbal_of_total. repeat constructor; sure_pattern_tac.
Qed.

Lemma make_line_total character t :
  exists cues,
    _extract_non_verbal_cues t = Ok cues /\
    make_line character (Some t) =
    Ok (DialogueLine.mk character (PStr t) (PStr (_extract_emotion_from_dialogue t))
          (PStr "") default_timing (PStrs cues)).
Proof.
  destruct (non_verbal_total t) as [cues H]. exists cues. split; [exact H|].
  unfold make_line. simpl. rewrite H. reflexivity.
Qed.

Lemma make_line_some character t : exists line, make_line character (Some t) = Ok line.
Proof.
  destruct (make_line_total character t) as (cues & _ & H). eauto.
Qed.

Lemma pattern1_lines_total text : exists lines, pattern1_lines text = Ok lines.
Proof.
  unfold pattern1_lines.
  assert (Hp : sure_pattern 2 pattern1) by sure_pattern_tac.
  destruct Hp as (pat & Hc & Hs).
  destruct (re_finditer_sure Hc text NOFLAG) as (ms & E & F).
  rewrite E, bind_ok.
  destruct (mapM_sure _ 2 (fun m => make_line (py_of_option (group m 1)) (group m 2)) ms F Hs)
    as (ls & L & _); [|eauto].
  intros m t Ht. rewrite Ht. apply make_line_some.
Qed.

Lemma pattern2_lines_total text : exists lines, pattern2_lines text = Ok lines.
Proof.
  unfold pattern2_lines.
  assert (Hp : sure_pattern 1 pattern2) by sure_pattern_tac.
  destruct Hp as (pat & Hc & Hs).
  destruct (re_finditer_sure Hc text NOFLAG) as (ms & E & F).
  rewrite E, bind_ok.
  destruct (mapM_sure _ 1 (fun m => make_line (py_of_option (group m 2)) (group m 1)) ms F Hs)
    as (ls & L & _); [|eauto].
  intros m t Ht. rewrite Ht. apply make_line_some.
Qed.

Lemma pattern3_lines_total text : exists lines, pattern3_lines text = Ok lines.
Proof.
  unfold pattern3_lines.
  assert (Hp : sure_pattern 1 pattern3) by sure_pattern_tac.
  destruct Hp as (pat & Hc & Hs).
  destruct (re_finditer_sure Hc text NOFLAG) as (ms & E & F).
  rewrite E, bind_ok.
  destruct (mapM_total
    (fun im => make_line (PStr (placeholder_name (fst im))) (group (snd im) 1))
    (enumerate_from 0 ms)) as (ls & L & _); [|eauto].
  eapply Forall_impl; [|apply (enumerate_from_Forall _ _ F)].
  intros [i m] Hm. cbn [fst snd] in *.
  destruct (sure_group_some 1 Hm Hs) as [t Ht]. rewrite Ht. apply make_line_some.
Qed.

Lemma extract_dialogue_total text : exists lines, _extract_dialogue text = Ok lines.
Proof.
  destruct (pattern1_lines_total text) as [l1 H1].
  destruct (pattern2_lines_total text) as [l2 H2].
  destruct (pattern3_lines_total text) as [l3 H3].
  unfold _extract_dialogue. rewrite H1, bind_ok, H2, bind_ok.
  destruct (l1 ++ l2)%list; eauto.
Qed.

Lemma actions_of_total patterns text :
  Forall (fun pattern => exists pat, re_compile pattern = Ok pat) patterns ->
  exists actions, actions_of patterns text = Ok actions.
Proof.
  induction 1 as [|pattern rest [pat Hc] _ [more IH]]; cbn [actions_of]; [eauto|].
  unfold re_finditer. rewrite Hc, !bind_ok, IH, bind_ok. eauto.
Qed.

Lemma extract_actions_total text : exists actions, _extract_actions text = Ok actions.
Proof.
  apply actions_of_total. repeat constructor; compiles_tac.
Qed.

Lemma first_location_total patterns text :
  Forall (sure_pattern 1) patterns ->
  exists loc, first_location patterns text = Ok loc.
Proof.
  induction 1 as [|pattern rest (pat & Hc & Hs) _ [more IH]]; cbn [first_location]; [eauto|].
  unfold re_search. rewrite Hc, !bind_ok.
  destruct (search_from IGNORECASE (p_regex pat) false None text) as [m|] eqn:E; [|eauto].
  apply search_from_sure in E. destruct (sure_group_some 1 E Hs) as [t Ht].
  rewrite Ht. simpl. eauto.
Qed.

Lemma extract_environment_total text : exists e, _extract_environment text = Ok e.
Proof.
  unfold _extract_environment.
  destruct (first_location_total location_patterns text) as [loc H].
  { repeat constructor; sure_pattern_tac. }
  rewrite H, bind_ok. destruct loc; [eauto|]. destruct (found_env text); eauto.
Qed.

Lemma detected_names_are_letters self text names :
  ner_pipeline self = None ->
  detect_person_names self text = Ok names ->
  Forall (fun name => str_forall is_letter name = true) names.
Proof.
  intros Hner. unfold detect_person_names. rewrite Hner. unfold re_findall.
  compiled name_pattern. rewrite H, bind_ok. simpl p_groups.
  cbv iota. intros E. inversion E; subst; clear E.
  apply Forall_map.
  eapply Forall_impl; [|apply (finditer_from_reads NOFLAG is_letter 1)].
  - intros m Hm. unfold group_or_empty, group.
    destruct (lookup_group 1 (m_groups m)) as [t|] eqn:Et; [|reflexivity].
    apply Hm. exact Et.
  - simpl. unfold cset_mem. simpl.
    repeat split; auto; intros x Hx; rewrite !orb_false_r in Hx;
      first [apply in_range_upper_letter; assumption
            |apply in_range_lower_letter; assumption].
Qed.

Lemma description_total text name :
  str_forall is_letter name = true ->
  exists d, _extract_character_description text name = Ok d.
Proof.
  intros Hn. unfold _extract_character_description, re_search.
  match eval vm_compute in
    (parse_seq (parse_atom (parse_regex (String.length description_suffix)))
       (S (String.length description_suffix)) description_suffix 0) with
  | Ok (?r, _, ?g) =>
      rewrite (re_compile_prefixed name description_suffix r g Hn)
        by (vm_compute; reflexivity)
  end.
  rewrite !bind_ok. cbn [p_regex].
  match goal with |- context [search_from ?fl ?r ?b ?p ?s] =>
    destruct (search_from fl r b p s) as [m|] eqn:E end; [|eauto].
  apply search_from_sure in E.
  destruct (sure_group_some 1 E) as [t Ht].
  { rewrite sure_groups_literal. simpl. tauto. }
  rewrite Ht. simpl. eauto.
Qed.

Lemma emotions_of_total text name words :
  str_forall is_letter name = true ->
  Forall (fun emotion => str_forall is_letter emotion = true) words ->
  exists found, emotions_of words text name = Ok found.
Proof.
  intros Hn. induction 1 as [|emotion rest He _ [more IH]]; cbn [emotions_of]; [eauto|].
  unfold re_search. destruct (emotion_pattern_compiles name emotion Hn He) as [pat Hp].
  rewrite Hp, !bind_ok, IH, bind_ok.
  destruct (search_from _ _ _ _ _); eauto.
Qed.

Lemma character_emotions_total text name :
  str_forall is_letter name = true ->
  exists found, _extract_character_emotions text name = Ok found.
Proof.
  intros Hn. apply emotions_of_total; [exact Hn|].
  repeat constructor.
Qed.

Lemma character_actions_total text name :
  str_forall is_letter name = true ->
  exists a, _extract_character_actions text name = Ok a.
Proof.
  intros Hn. unfold _extract_character_actions, re_finditer.
  match eval vm_compute in
    (parse_seq (parse_atom (parse_regex (String.length actions_suffix)))
       (S (String.length actions_suffix)) actions_suffix 0) with
  | Ok (?r, _, ?g) =>
      rewrite (re_compile_prefixed name actions_suffix r g Hn)
        by (vm_compute; reflexivity)
  end.
  rewrite !bind_ok. eauto.
Qed.

Lemma make_character_total text name :
  str_forall is_letter name = true ->
  exists c, make_character text name = Ok c.
Proof.
  intros Hn. unfold make_character.
  destruct (description_total text name Hn) as [d Hd].
  destruct (character_emotions_total text name Hn) as [e He].
  destruct (character_actions_total text name Hn) as [a Ha].
  rewrite Hd, bind_ok, He, bind_ok, Ha, bind_ok. eauto.
Qed.

Lemma extract_characters_total set_order self text :
  ner_pipeline self = None ->
  (forall l x, In x (set_order l) -> In x l) ->
  exists chars, _extract_characters set_order self text = Ok chars.
Proof.
  intros Hner Hsub. unfold _extract_characters.
  destruct (detect_person_names self text) as [names|e] eqn:En.
  - rewrite bind_ok.
    destruct (mapM_total (make_character text) (filter keep_name (set_order names)))
      as (chars & Hc & _); [|eauto].
    apply Forall_forall. intros name Hin. apply filter_In in Hin. destruct Hin as [Hin _].
    apply make_character_total.
    pose proof (detected_names_are_letters _ _ _ Hner En) as HF.
    rewrite Forall_forall in HF. apply HF, Hsub, Hin.
  - exfalso. unfold detect_person_names in En. rewrite Hner in En.
    unfold re_findall in En. compiled name_pattern. rewrite H in En. discriminate En.
Qed.

(** Without a NER pipeline, and with a set iteration that yields members of
    the set only, the local tier returns a scene for every prompt: the names
    it builds patterns from are runs of letters. *)
Lemma local_tier_returns
  (set_order : list string -> list string) (self : NaturalLanguageProcessor)
  (prompt : string) :
  ner_pipeline self = None ->
  (forall l x, In x (set_order l) -> In x l) ->
  exists scene, _process_with_local_nlp set_order self prompt = Ok scene.
Proof.
  intros Hner Hsub. unfold _process_with_local_nlp.
  destruct (extract_characters_total set_order self prompt Hner Hsub) as [c Hc].
  destruct (extract_dialogue_total prompt) as [d Hd].
  destruct (extract_actions_total prompt) as [a Ha].
  destruct (extract_environment_total prompt) as [e He].
  rewrite Hc, bind_ok, Hd, bind_ok, Ha, bind_ok, He, bind_ok. eauto.
Qed.

Lemma re_findall_pattern3 prompt : exists quotes, re_findall pattern3 prompt = Ok quotes.
Proof.
  unfold re_findall. compiled pattern3. rewrite H, bind_ok. simpl. eauto.
Qed.

Lemma fallback_total prompt :
  exists quotes,
    re_findall pattern3 prompt = Ok quotes /\
    _process_with_fallback prompt = Ok (fallback_scene prompt quotes).
Proof.
  destruct (re_findall_pattern3 prompt) as [quotes H]. exists quotes.
  split; [exact H|]. unfold _process_with_fallback. rewrite H, bind_ok. reflexivity.
Qed.

Lemma convert_scene_inv data scene :
  _convert_to_parsed_scene data = Ok scene ->
  exists d,
    data = PDict d /\
    ParsedScene.environment scene = assoc_get d "environment" (PStr "") /\
    ParsedScene.duration_estimate scene = assoc_get d "duration_estimate" (PInt 10).
Proof.
  unfold _convert_to_parsed_scene. intros H.
  destruct data; try discriminate H. exists d. split; [reflexivity|].
  simpl py_get in H. rewrite !bind_ok in H.
  apply bind_inv in H. destruct H as (ci & _ & H).
  apply bind_inv in H. destruct H as (cs & _ & H).
  apply bind_inv in H. destruct H as (di & _ & H).
  apply bind_inv in H. destruct H as (ds & _ & H).
  apply bind_inv in H. destruct H as (dialogue & _ & H).
  rewrite !bind_ok in H. inversion H; subst. split; reflexivity.
Qed.

(** ** The orchestrator *)

Section Orchestrator.

Variable json_loads : string -> result pyval.
Variable set_order : list string -> list string.
Variable self : NaturalLanguageProcessor.
Variable now : nat.

Lemma local_or_fallback_total prompt :
  exists scene, local_or_fallback set_order self prompt = Ok scene.
Proof.
  unfold local_or_fallback.
  destruct (_process_with_local_nlp set_order self prompt) as [scene|e]; [eauto|].
  destruct (fallback_total prompt) as (quotes & _ & H). eauto.
Qed.

Lemma process_cascade prompt :
  process_natural_language_prompt json_loads set_order self now prompt =
  match client self with
  | Some c =>
      match remote_attempt json_loads now c prompt with
      | Ok scene => Ok scene
      | Raise _ => local_or_fallback set_order self prompt
      end
  | None => local_or_fallback set_order self prompt
  end.
Proof.
  unfold process_natural_language_prompt, _process_with_deepseek, local_or_fallback,
    try_except.
  destruct (client self) as [c|]; [|reflexivity].
  destruct (remote_attempt json_loads now c prompt); reflexivity.
Qed.

(** What a scene returned by the local tier is made of. *)
Lemma local_scene_inv prompt scene :
  _process_with_local_nlp set_order self prompt = Ok scene ->
  exists characters dialogue actions environment,
    _extract_characters set_order self prompt = Ok characters /\
    _extract_dialogue prompt = Ok dialogue /\
    _extract_actions prompt = Ok actions /\
    _extract_environment prompt = Ok environment /\
    scene =
      ParsedScene.mk
        (PStr (if (py_len prompt >? 200)%Z then py_prefix 200 prompt ++ "..." else prompt))
        characters dialogue (PList actions) (PStr environment)
        (PStr (_extract_mood prompt)) (PInt (_estimate_duration prompt dialogue)).
Proof.
  unfold _process_with_local_nlp. intros H.
  apply bind_inv in H. destruct H as (characters & Hc & H).
  apply bind_inv in H. destruct H as (dialogue & Hd & H).
  apply bind_inv in H. destruct H as (actions & Ha & H).
  apply bind_inv in H. destruct H as (environment & He & H).
  inversion H; subst. exists characters, dialogue, actions, environment.
  repeat split; assumption.
Qed.

Lemma estimate_duration_bounds text dialogue :
  (5 <= _estimate_duration text dialogue <= 30)%Z.
Proof.
  unfold _estimate_duration. lia.
Qed.

(** C2 (amended). A scene that the orchestrator returns without a
    successful remote attempt, that is a scene of the local or of the
    fallback tier, has an integer duration estimate between 5 and 30. *)
Theorem duration_bounds_without_remote (prompt : string) (scene : ParsedScene.t) :
  process_natural_language_prompt json_loads set_order self now prompt = Ok scene ->
  remote_succeeds json_loads self now prompt = false ->
  exists d, ParsedScene.duration_estimate scene = PInt d /\ (5 <= d <= 30)%Z.
Proof.
  rewrite process_cascade. unfold remote_succeeds.
  assert (Hlf : local_or_fallback set_order self prompt = Ok scene ->
                exists d, ParsedScene.duration_estimate scene = PInt d /\ (5 <= d <= 30)%Z).
  { unfold local_or_fallback.
    destruct (_process_with_local_nlp set_order self prompt) as [s|e] eqn:E.
    - intros H. inversion H; subst.
      apply local_scene_inv in E.
      destruct E as (characters & dialogue & actions & environment & _ & _ & _ & _ & ->).
      simpl. eexists. split; [reflexivity|apply estimate_duration_bounds].
    - intros H. destruct (fallback_total prompt) as (quotes & _ & Hf).
      rewrite Hf in H. inversion H; subst. simpl. exists 10%Z. split; [reflexivity|lia]. }
  destruct (client self) as [c|]; [|intros H _; auto].
  destruct (remote_attempt json_loads now c prompt); [discriminate|intros H _; auto].
Qed.

End Orchestrator.

(** Against C2 as stated: a remote reply with a duration estimate of 100 is
    returned with 100. *)
Lemma duration_remote_unclamped :
  exists scene,
    process_natural_language_prompt
      (json_only reply_long (PDict [("duration_estimate", PInt 100)]))
      kept_order (remote_says reply_long) 0 "A long scene." = Ok scene /\
    ParsedScene.duration_estimate scene = PInt 100 /\
    (30 < 100)%Z.
Proof.
  eexists. split; [vm_compute; reflexivity|]. split; [reflexivity|lia].
Qed.

Lemma duration_bounds_witness :
  exists scene,
    process_natural_language_prompt no_json kept_order broken_ner 0 prompt_mixed
      = Ok scene /\
    remote_succeeds no_json broken_ner 0 prompt_mixed = false /\
    exists d, ParsedScene.duration_estimate scene = PInt d /\ (5 <= d <= 30)%Z.
Proof.
  eexists. split; [vm_compute; reflexivity|]. split; [reflexivity|].
  apply (duration_bounds_without_remote no_json kept_order broken_ner 0 prompt_mixed);
    vm_compute; reflexivity.
Defined.

(** ** The dialogue *)

(** C3 (amended). The loops of the three patterns return on every text.
    Patterns 1 and 2 are both evaluated and their lines are concatenated,
    the lines of pattern 1 first; pattern 3 is used only when the two yield
    no line. So when pattern 1 yields a line, the result is the lines of
    pattern 1 followed by the lines of pattern 2. *)
Theorem dialogue_cascade (text : string) :
  exists lines1 lines2 lines3,
    pattern1_lines text = Ok lines1 /\
    pattern2_lines text = Ok lines2 /\
    pattern3_lines text = Ok lines3 /\
    _extract_dialogue text =
      Ok (match (lines1 ++ lines2)%list with
          | [] => lines3
          | _ :: _ => (lines1 ++ lines2)%list
          end) /\
    (lines1 <> [] -> _extract_dialogue text = Ok (lines1 ++ lines2)%list).
Proof.
  destruct (pattern1_lines_total text) as [l1 H1].
  destruct (pattern2_lines_total text) as [l2 H2].
  destruct (pattern3_lines_total text) as [l3 H3].
  exists l1, l2, l3. repeat split; try assumption.
  - unfold _extract_dialogue. rewrite H1, bind_ok, H2, bind_ok.
    destruct (l1 ++ l2)%list; [exact H3|reflexivity].
  - intros Hne. unfold _extract_dialogue. rewrite H1, bind_ok, H2, bind_ok.
    destruct l1 as [|a l1]; [congruence|reflexivity].
Qed.

(** Against C3 as stated: in a text that mixes the two attribution styles,
    pattern 1 yields a line and the line of pattern 2 is returned too. *)
Lemma dialogue_mixed_styles :
  exists a b,
    pattern1_lines prompt_mixed = Ok [a] /\
    pattern2_lines prompt_mixed = Ok [b] /\
    _extract_dialogue prompt_mixed = Ok [a; b] /\
    a = plain_line "Alice" "Hello" "neutral" /\
    b = plain_line "Bob" "Goodbye" "neutral" /\
    ~ In b [a].
Proof.
  exists (plain_line "Alice" "Hello" "neutral"), (plain_line "Bob" "Goodbye" "neutral").
  repeat split; try (vm_compute; reflexivity).
  intros [H|[]]. discriminate H.
Qed.

(** C4 (amended). For the text with [asked], patterns 1 and 2 yield nothing
    and pattern 3 returns one line of the placeholder speaker Character1,
    questioning; with [asks], one of the verbs of pattern 2, the one line is
    attributed to Bob. *)
Theorem asks_is_attributed :
  pattern1_lines prompt_asked = Ok [] /\
  pattern2_lines prompt_asked = Ok [] /\
  pattern3_lines prompt_asked =
    Ok [plain_line "Character1" "Where are we going?" "questioning"] /\
  _extract_dialogue prompt_asked =
    Ok [plain_line "Character1" "Where are we going?" "questioning"] /\
  pattern2_lines prompt_asks =
    Ok [plain_line "Bob" "Where are we going?" "questioning"] /\
  _extract_dialogue prompt_asks =
    Ok [plain_line "Bob" "Where are we going?" "questioning"].
Proof.
  repeat split; vm_compute; reflexivity.
Qed.

(** Against C4 as stated: the speaker of the line is Character1, not Bob. *)
Lemma asked_is_not_attributed :
  _extract_dialogue prompt_asked =
    Ok [plain_line "Character1" "Where are we going?" "questioning"].
Proof.
  vm_compute. reflexivity.
Qed.

(** C6 (amended). The fallback tier returns on every prompt; its dialogue
    has one line for every quote found by the quote pattern, with the quote
    as text, and the emotion of every line is the literal "neutral". *)
Theorem fallback_emotion_is_neutral (prompt : string) :
  exists quotes scene,
    re_findall pattern3 prompt = Ok quotes /\
    _process_with_fallback prompt = Ok scene /\
    map DialogueLine.text (ParsedScene.dialogue scene) = map PStr quotes /\
    Forall (fun line => DialogueLine.emotion line = PStr "neutral")
      (ParsedScene.dialogue scene).
Proof.
  destruct (fallback_total prompt) as (quotes & Hq & Hf).
  exists quotes, (fallback_scene prompt quotes). repeat split; try assumption.
  - simpl. rewrite map_map. simpl.
    rewrite <- (enumerate_from_snd quotes 0) at 2. rewrite map_map. reflexivity.
  - simpl. apply Forall_forall. intros line Hin. apply in_map_iff in Hin.
    destruct Hin as (iq & <- & _). reflexivity.
Qed.

(** Against C6 as stated: the quote with an exclamation mark is neutral in
    the fallback tier, and excited for the heuristic of the local tier. *)
Lemma fallback_ignores_exclamation :
  exists scene,
    _process_with_fallback prompt_shout = Ok scene /\
    ParsedScene.dialogue scene = [plain_line "Character1" "Hi!" "neutral"] /\
    _extract_emotion_from_dialogue "Hi!" = "excited".
Proof.
  eexists. repeat split; vm_compute; reflexivity.
Qed.

(** ** The environment *)

Lemma environment_default text :
  first_location location_patterns text = Ok None ->
  found_env text = [] ->
  _extract_environment text = Ok "unspecified location".
Proof.
  intros H1 H2. unfold _extract_environment. rewrite H1, bind_ok, H2. reflexivity.
Qed.

(** C5 (amended). The environment of a scene of the local tier is a string,
    the one [_extract_environment] returns, and it is the literal
    "unspecified location" when no location pattern is found and no
    environment word occurs; the environment of a scene of the fallback tier
    is the literal "unspecified"; the environment of a scene of the remote
    tier is the value of the reply's key, the empty string when the key is
    missing. *)
Theorem environment_by_tier :
  (forall set_order self prompt scene,
     _process_with_local_nlp set_order self prompt = Ok scene ->
     exists e,
       ParsedScene.environment scene = PStr e /\
       _extract_environment prompt = Ok e /\
       (first_location location_patterns prompt = Ok None ->
        found_env prompt = [] -> e = "unspecified location")) /\
  (forall prompt scene,
     _process_with_fallback prompt = Ok scene ->
     ParsedScene.environment scene = PStr "unspecified") /\
  (forall data scene,
     _convert_to_parsed_scene data = Ok scene ->
     exists d, data = PDict d /\
       ParsedScene.environment scene = assoc_get d "environment" (PStr "")).
Proof.
  split; [|split].
  - intros set_order self prompt scene H. apply local_scene_inv in H.
    destruct H as (characters & dialogue & actions & environment & _ & _ & _ & He & ->).
    exists environment. split; [reflexivity|]. split; [exact He|].
    intros H1 H2. rewrite (environment_default _ H1 H2) in He. inversion He. reflexivity.
  - intros prompt scene H. destruct (fallback_total prompt) as (quotes & _ & Hf).
    rewrite Hf in H. inversion H. reflexivity.
  - intros data scene H. apply convert_scene_inv in H.
    destruct H as (d & Hd & He & _). eauto.
Qed.

(** Against C5 as stated: a remote reply with a null environment is returned
    with [None], and the fallback tier says "unspecified" for a prompt in
    which no location heuristic matches. *)
Lemma environment_not_always_default :
  exists scene1 scene2,
    process_natural_language_prompt
      (json_only reply_null_environment (PDict [("environment", PNone)]))
      kept_order (remote_says reply_null_environment) 0 "Nothing happens" = Ok scene1 /\
    ParsedScene.environment scene1 = PNone /\
    process_natural_language_prompt no_json kept_order broken_ner 0 "Nothing happens"
      = Ok scene2 /\
    ParsedScene.environment scene2 = PStr "unspecified" /\
    first_location location_patterns "Nothing happens" = Ok None /\
    found_env "Nothing happens" = [].
Proof.
  eexists. eexists. repeat split; vm_compute; reflexivity.
Qed.

Lemma environment_by_tier_witness :
  exists scene e,
    _process_with_local_nlp kept_order local_only "Nothing happens" = Ok scene /\
    ParsedScene.environment scene = PStr e /\
    e = "unspecified location".
Proof.
  eexists. 
  assert (H : _process_with_local_nlp kept_order local_only "Nothing happens"
              = Ok ?[scene]) by (vm_compute; reflexivity).
  destruct (proj1 environment_by_tier _ _ _ _ H) as (e & He & _ & Hd).
  exists e. split; [exact H|]. split; [exact He|].
  apply Hd; vm_compute; reflexivity.
Defined.

(** ** The characters *)

Lemma make_character_name text name c :
  make_character text name = Ok c -> Character.name c = PStr name.
Proof.
  unfold make_character. intros H.
  destruct (_extract_character_description text name); [|discriminate].
  rewrite bind_ok in H.
  destruct (_extract_character_emotions text name); [|discriminate].
  rewrite bind_ok in H.
  destruct (_extract_character_actions text name); [|discriminate].
  rewrite bind_ok in H. inversion H. reflexivity.
Qed.

Lemma characters_follow_names set_order self text names chars :
  detect_person_names self text = Ok names ->
  _extract_characters set_order self text = Ok chars ->
  character_names chars = map PStr (filter keep_name (set_order names)).
Proof.
  intros Hn H. unfold _extract_characters in H. rewrite Hn, bind_ok in H.
  apply mapM_Forall2 in H. unfold character_names.
  induction H as [|name c l cs Hc _ IH]; simpl; [reflexivity|].
  f_equal; [eapply make_character_name; eauto|exact IH].
Qed.

Lemma set_contract_permutation set_order :
  set_contract set_order ->
  forall l, Permutation (set_order l) (nodup string_dec l).
Proof.
  intros H l. destruct (H l) as [Hnd Hin].
  apply NoDup_Permutation; [exact Hnd|apply NoDup_nodup|].
  intros x. rewrite Hin, nodup_In. reflexivity.
Qed.

(** C7 (amended). For a set iteration that yields every member once, the
    names of the characters that [_extract_characters] returns are a
    permutation of the detected names without duplicates and without the
    false positives. *)
Theorem characters_are_a_permutation
  (set_order : list string -> list string) (self : NaturalLanguageProcessor)
  (text : string) (names : list string) (chars : list Character.t) :
  set_contract set_order ->
  detect_person_names self text = Ok names ->
  _extract_characters set_order self text = Ok chars ->
  Permutation (character_names chars)
    (map PStr (filter keep_name (nodup string_dec names))).
Proof.
  intros Hset Hn H. rewrite (characters_follow_names _ _ _ _ _ Hn H).
  apply Permutation_map, filter_permutation, set_contract_permutation, Hset.
Qed.

Lemma kept_order_contract : set_contract kept_order.
Proof.
  intros l. split; [apply NoDup_nodup|]. intros x. apply nodup_In.
Qed.

Lemma reversed_order_contract : set_contract reversed_order.
Proof.
  intros l. unfold reversed_order. split.
  - apply NoDup_rev, NoDup_nodup.
  - intros x. rewrite <- in_rev. apply nodup_In.
Qed.

(** Against C7 as stated: with a set iteration that yields Alice before
    Bob, the characters are Alice, Bob although Bob is detected first. *)
Lemma characters_out_of_detection_order :
  set_contract reversed_order /\
  detect_person_names local_only prompt_two_names = Ok ["Bob"; "Alice"] /\
  exists chars,
    _extract_characters reversed_order local_only prompt_two_names = Ok chars /\
    character_names chars = [PStr "Alice"; PStr "Bob"].
Proof.
  split; [apply reversed_order_contract|]. split; [vm_compute; reflexivity|].
  eexists. split; vm_compute; reflexivity.
Qed.

Lemma characters_are_a_permutation_witness :
  set_contract kept_order /\
  detect_person_names local_only prompt_two_names = Ok ["Bob"; "Alice"] /\
  exists chars,
    _extract_characters kept_order local_only prompt_two_names = Ok chars /\
    Permutation (character_names chars)
      (map PStr (filter keep_name (nodup string_dec ["Bob"; "Alice"]))).
Proof.
  split; [apply kept_order_contract|]. split; [vm_compute; reflexivity|].
  eexists. split; [vm_compute; reflexivity|].
  apply (characters_are_a_permutation kept_order local_only prompt_two_names).
  - apply kept_order_contract.
  - vm_compute; reflexivity.
  - vm_compute; reflexivity.
Defined.

(** ** Two iteration orders of the set of names *)

Lemma mapM_permutation {A B : Type} (f : A -> result B) (l1 l2 : list A) :
  Permutation l1 l2 ->
  forall r1, mapM f l1 = Ok r1 -> exists r2, mapM f l2 = Ok r2 /\ Permutation r1 r2.
Proof.
  induction 1 as [|x l l' _ IH|x y l|l l' l'' _ IH1 _ IH2]; intros r1 H.
  - exists r1. split; [exact H|apply Permutation_refl].
  - cbn [mapM] in *. apply bind_inv in H. destruct H as (b & Hb & H).
    apply bind_inv in H. destruct H as (bs & Hbs & H). inversion H; subst.
    destruct (IH _ Hbs) as (bs' & Hbs' & Hp).
    exists (b :: bs'). rewrite Hb, bind_ok, Hbs', bind_ok.
    split; [reflexivity|constructor; exact Hp].
  - cbn [mapM] in *. apply bind_inv in H. destruct H as (b & Hb & H).
    apply bind_inv in H. destruct H as (r & Hr & H). inversion H; subst; clear H.
    apply bind_inv in Hr. destruct Hr as (a & Ha & H).
    apply bind_inv in H. destruct H as (bs & Hbs & H). inversion H; subst; clear H.
    exists (a :: b :: bs). rewrite Ha, bind_ok, Hb, bind_ok, Hbs, !bind_ok.
    split; [reflexivity|apply perm_swap].
  - destruct (IH1 _ H) as (r2 & H2 & P2). destruct (IH2 _ H2) as (r3 & H3 & P3).
    exists r3. split; [exact H3|eapply Permutation_trans; eassumption].
Qed.

Lemma set_orders_permutation order1 order2 l :
  set_contract order1 -> set_contract order2 -> Permutation (order1 l) (order2 l).
Proof.
  intros H1 H2. eapply Permutation_trans; [apply set_contract_permutation, H1|].
  apply Permutation_sym, set_contract_permutation, H2.
Qed.

Lemma characters_up_to_order order1 order2 self text chars1 :
  set_contract order1 -> set_contract order2 ->
  _extract_characters order1 self text = Ok chars1 ->
  exists chars2,
    _extract_characters order2 self text = Ok chars2 /\ Permutation chars1 chars2.
Proof.
  intros H1 H2. unfold _extract_characters.
  destruct (detect_person_names self text) as [names|e]; [|discriminate].
  rewrite !bind_ok. apply mapM_permutation, filter_permutation.
  apply set_orders_permutation; assumption.
Qed.

Lemma local_up_to_order order1 order2 self prompt scene1 :
  set_contract order1 -> set_contract order2 ->
  _process_with_local_nlp order1 self prompt = Ok scene1 ->
  exists scene2,
    _process_with_local_nlp order2 self prompt = Ok scene2 /\
    same_up_to_order scene1 scene2.
Proof.
  intros H1 H2 H. apply local_scene_inv in H.
  destruct H as (characters & dialogue & actions & environment & Hc & Hd & Ha & He & ->).
  destruct (characters_up_to_order order1 order2 self prompt characters H1 H2 Hc)
    as (chars2 & Hc2 & Hp).
  unfold _process_with_local_nlp.
  rewrite Hc2, bind_ok, Hd, bind_ok, Ha, bind_ok, He, bind_ok.
  eexists. split; [reflexivity|]. unfold same_up_to_order. cbn.
  repeat split. exact Hp.
Qed.

Lemma local_same_iteration order1 order2 self prompt :
  same_iteration order1 order2 self prompt ->
  _process_with_local_nlp order1 self prompt = _process_with_local_nlp order2 self prompt.
Proof.
  intros H. unfold _process_with_local_nlp, _extract_characters.
  destruct (detect_person_names self prompt) as [names|e] eqn:E; [|reflexivity].
  rewrite !bind_ok, (H names E). reflexivity.
Qed.

Lemma same_up_to_order_refl scene : same_up_to_order scene scene.
Proof.
  unfold same_up_to_order. repeat split. apply Permutation_refl.
Qed.

Lemma local_or_fallback_up_to_order order1 order2 self prompt :
  set_contract order1 -> set_contract order2 ->
  exists scene1 scene2,
    local_or_fallback order1 self prompt = Ok scene1 /\
    local_or_fallback order2 self prompt = Ok scene2 /\
    same_up_to_order scene1 scene2 /\
    (same_iteration order1 order2 self prompt -> scene1 = scene2).
Proof.
  intros H1 H2. unfold local_or_fallback.
  destruct (_process_with_local_nlp order1 self prompt) as [s1|e1] eqn:E1.
  - destruct (local_up_to_order order1 order2 self prompt s1 H1 H2 E1) as (s2 & E2 & Hs).
    exists s1, s2. rewrite E2. repeat split; try apply Hs.
    intros Hsame. rewrite (local_same_iteration _ _ _ _ Hsame), E2 in E1.
    inversion E1. reflexivity.
  - destruct (_process_with_local_nlp order2 self prompt) as [s2|e2] eqn:E2.
    + destruct (local_up_to_order order2 order1 self prompt s2 H2 H1 E2) as (s1 & E1' & _).
      congruence.
    + destruct (fallback_total prompt) as (quotes & _ & Hf).
      exists (fallback_scene prompt quotes), (fallback_scene prompt quotes).
      repeat split; try exact Hf. apply Permutation_refl.
Qed.

(** C9 (amended). Without a remote client the orchestrator returns a scene
    that depends neither on the instant of the call nor on the JSON parser,
    and on the iteration order of the set of names only through the order of
    the characters: for two iteration orders that yield every member once,
    the two scenes have the same description, dialogue, actions,
    environment, mood and duration, and the characters of the one are a
    permutation of the characters of the other. When the two iterations list
    the detected names in the same order, as two calls in one process do,
    the two scenes are identical. *)
Theorem local_path_is_deterministic_up_to_order
  (order1 order2 : list string -> list string) (self : NaturalLanguageProcessor)
  (json_loads1 json_loads2 : string -> result pyval) (now1 now2 : nat)
  (prompt : string) :
  client self = None ->
  set_contract order1 ->
  set_contract order2 ->
  exists scene1 scene2,
    process_natural_language_prompt json_loads1 order1 self now1 prompt = Ok scene1 /\
    process_natural_language_prompt json_loads2 order2 self now2 prompt = Ok scene2 /\
    same_up_to_order scene1 scene2 /\
    (same_iteration order1 order2 self prompt -> scene1 = scene2).
Proof.
  intros Hc H1 H2. rewrite !process_cascade, Hc.
  apply local_or_fallback_up_to_order; assumption.
Qed.

(** Against C9 as stated: the same prompt, without a remote client, under
    two iteration orders of the set of names gives Bob, Alice and Alice,
    Bob. *)
Lemma local_path_depends_on_set_order :
  client local_only = None /\
  exists scene1 scene2,
    process_natural_language_prompt no_json kept_order local_only 0 prompt_two_names
      = Ok scene1 /\
    process_natural_language_prompt no_json reversed_order local_only 0 prompt_two_names
      = Ok scene2 /\
    character_names (ParsedScene.characters scene1) = [PStr "Bob"; PStr "Alice"] /\
    character_names (ParsedScene.characters scene2) = [PStr "Alice"; PStr "Bob"].
Proof.
  split; [reflexivity|]. eexists. eexists. repeat split; vm_compute; reflexivity.
Qed.

Lemma local_path_is_deterministic_up_to_order_witness :
  exists scene1 scene2,
    process_natural_language_prompt no_json kept_order local_only 0 prompt_two_names
      = Ok scene1 /\
    process_natural_language_prompt (json_only reply_long (PDict [])) reversed_order
      local_only 7 prompt_two_names = Ok scene2 /\
    same_up_to_order scene1 scene2 /\
    (same_iteration kept_order reversed_order local_only prompt_two_names ->
     scene1 = scene2).
Proof.
  apply (local_path_is_deterministic_up_to_order kept_order reversed_order local_only
           no_json (json_only reply_long (PDict [])) 0 7 prompt_two_names).
  - reflexivity.
  - apply kept_order_contract.
  - apply reversed_order_contract.
Defined.

(** ** The duration estimate *)





(** ** The description *)








(** ** The local tier without a NER pipeline *)

(** X1. With neither a client nor a NER pipeline, the orchestrator returns
    the scene of the local tier on every prompt: the local tier does not
    raise, so the fallback tier is not reached. *)
Theorem local_only_never_falls_back
  (json_loads : string -> result pyval) (set_order : list string -> list string)
  (self : NaturalLanguageProcessor) (now : nat) (prompt : string) :
  client self = None ->
  ner_pipeline self = None ->
  set_contract set_order ->
  exists scene,
    _process_with_local_nlp set_order self prompt = Ok scene /\
    process_natural_language_prompt json_loads set_order self now prompt = Ok scene.
Proof.
  intros Hc Hner Hset.
  destruct (local_tier_returns set_order self prompt Hner) as [scene H].
  { intros l x Hin. apply (proj2 (Hset l)). exact Hin. }
  exists scene. split; [exact H|].
  rewrite process_cascade, Hc. unfold local_or_fallback. rewrite H. reflexivity.
Qed.

Lemma local_only_never_falls_back_witness :
  set_contract kept_order /\
  exists scene,
    _process_with_local_nlp kept_order local_only prompt_long = Ok scene /\
    process_natural_language_prompt no_json kept_order local_only 0 prompt_long = Ok scene.
Proof.
  split; [apply kept_order_contract|].
  apply (local_only_never_falls_back no_json kept_order local_only 0 prompt_long);
    [reflexivity|reflexivity|apply kept_order_contract].
Defined.

(** ** The examples of the specification *)

(** A colon-attributed quote: pattern 1 fires. *)
Theorem example_colon_attribution :
  pattern1_lines prompt_alice = Ok [plain_line "Alice" "I can't believe it!" "excited"] /\
  _extract_dialogue prompt_alice = Ok [plain_line "Alice" "I can't believe it!" "excited"].
Proof.
  split; vm_compute; reflexivity.
Qed.

(** Bare quotes: patterns 1 and 2 find nothing, pattern 3 numbers the
    speakers. *)
Theorem example_placeholder_speakers :
  pattern1_lines prompt_bare_quotes = Ok [] /\
  pattern2_lines prompt_bare_quotes = Ok [] /\
  _extract_dialogue prompt_bare_quotes =
    Ok [plain_line "Character1" "Hello." "neutral";
        plain_line "Character2" "Goodbye." "neutral"].
Proof.
  repeat split; vm_compute; reflexivity.
Qed.

(** A slug line: the environment is the text between the slug and the dash. *)
Theorem example_slug_line :
  _extract_environment prompt_slug = Ok "COFFEE SHOP".
Proof.
  vm_compute. reflexivity.
Qed.

Lemma first_mood_default table text_lower :
  Forall (fun entry =>
            existsb (fun indicator => py_in indicator text_lower) (snd entry) = false)
         table ->
  first_mood table text_lower = "neutral".
Proof.
  induction 1 as [|[mood indicators] rest H _ IH]; simpl; [reflexivity|].
  simpl in H. rewrite H. exact IH.
Qed.

(** X7. A text with no keyword of any mood category has the mood neutral. *)
Theorem mood_default (text : string) :
  Forall (fun entry =>
            existsb (fun indicator => py_in indicator (py_lower text)) (snd entry) = false)
         mood_indicators ->
  _extract_mood text = "neutral".
Proof.
  apply first_mood_default.
Qed.

Lemma mood_default_witness : _extract_mood "Nothing happens" = "neutral".
Proof.
  apply (mood_default "Nothing happens"). repeat constructor.
Defined.

(** A reply with prose around a JSON object: the first parse fails, the
    text from the first to the last brace is parsed instead. *)
Theorem example_json_salvage :
  json_only reply_object (PDict [("mood", PStr "tense")]) reply_in_prose
    = Raise JSONDecodeError /\
  exists scene,
    process_natural_language_prompt
      (json_only reply_object (PDict [("mood", PStr "tense")]))
      kept_order (remote_says reply_in_prose) 0 "A tense scene" = Ok scene /\
    ParsedScene.mood scene = PStr "tense" /\
    ParsedScene.duration_estimate scene = PInt 10.
Proof.
  split; [vm_compute; reflexivity|].
  eexists. repeat split; vm_compute; reflexivity.
Qed.

(** ** The matcher is sound *)

Lemma accepts_empty fl r s cs k res p :
  k p s cs = Some res -> sem fl r "" [] -> accepts fl r s cs k res.
Proof.
  intros H L. exists p, s, "", []. repeat split; auto.
Qed.

Lemma accepts_char fl r x s cs k res :
  k (Some x) s cs = Some res -> sem fl r (String x "") [] ->
  accepts fl r (String x s) cs k res.
Proof.
  intros H L. exists (Some x), s, (String x ""), []. repeat split; auto.
Qed.

Lemma star_loop_accepts fl greedy a body k :
  (forall p s cs k' res, body p s cs k' = Some res -> accepts fl a s cs k' res) ->
  forall i p s cs res,
    star_loop body greedy k i p s cs = Some res ->
    accepts fl (Star greedy a) s cs k res.
Proof.
  intros Hbody. induction i as [|i IH]; intros p s cs res H; simpl in H.
  - eapply accepts_empty; eauto. constructor.
  - set (again := body p s cs (fun p1 s1 cs1 =>
        if String.length s1 <? String.length s
        then star_loop body greedy k i p1 s1 cs1 else None)) in H.
    assert (Hagain : forall res', again = Some res' ->
                     accepts fl (Star greedy a) s cs k res').
    { intros res' E. apply Hbody in E.
      destruct E as (p1 & s1 & w & c & E & Hs & L).
      destruct (String.length s1 <? String.length s); [|discriminate].
      apply IH in E. destruct E as (p2 & s2 & w2 & c2 & E & Hs2 & L2).
      exists p2, s2, (w ++ w2), (c2 ++ c)%list. repeat split.
      - rewrite <- app_assoc. exact E.
      - rewrite Hs, Hs2. symmetry. apply append_assoc.
      - constructor; assumption. }
    clearbody again. destruct greedy.
    + destruct again as [m|].
      * inversion H; subst. apply Hagain. reflexivity.
      * eapply accepts_empty; eauto. constructor.
    + destruct (k p s cs) eqn:E.
      * inversion H; subst. eapply accepts_empty; eauto. constructor.
      * apply Hagain. exact H.
Qed.

(** What the matcher reads is a text of the expression, and what it records
    for the groups is what that text gives them. *)
Lemma rmatch_accepts fl r :
  forall p s cs k res,
    rmatch fl r p s cs k = Some res -> accepts fl r s cs k res.
Proof.
  induction r; intros p s cs k res H; simpl in H.
  - eapply accepts_empty; eauto. constructor.
  - destruct s as [|x s']; [discriminate|].
    destruct (chr_eq fl c x) eqn:E; [|discriminate].
    apply accepts_char; [exact H|constructor; exact E].
  - destruct s as [|x s']; [discriminate|].
    destruct (dotall fl || negb (Ascii.eqb x newline)) eqn:E; [|discriminate].
    apply accepts_char; [exact H|constructor; exact E].
  - destruct s as [|x s']; [discriminate|].
    destruct (cset_mem fl negated items x) eqn:E; [|discriminate].
    apply accepts_char; [exact H|constructor; exact E].
  - apply IHr1 in H. destruct H as (p1 & s1 & w1 & c1 & H & Hs1 & L1).
    apply IHr2 in H. destruct H as (p2 & s2 & w2 & c2 & H & Hs2 & L2).
    exists p2, s2, (w1 ++ w2), (c2 ++ c1)%list. repeat split.
    + rewrite <- app_assoc. exact H.
    + rewrite Hs1, Hs2. symmetry. apply append_assoc.
    + constructor; assumption.
  - destruct (rmatch fl r1 p s cs k) eqn:E.
    + inversion H; subst. apply IHr1 in E.
      destruct E as (p1 & s1 & w & c & E & Hs & L).
      exists p1, s1, w, c. repeat split; auto. apply sem_alt_left, L.
    + apply IHr2 in H. destruct H as (p1 & s1 & w & c & E' & Hs & L).
      exists p1, s1, w, c. repeat split; auto. apply sem_alt_right, L.
  - eapply star_loop_accepts; [|exact H]. intros p0 s0 cs0 k0 res0 E0. eapply IHr; exact E0.
  - apply IHr in H. destruct H as (p1 & s1 & w & c & H & Hs & L).
    exists p1, s1, w, ((n, w) :: c). repeat split; auto.
    + subst s. rewrite consumed_append in H. exact H.
    + constructor. exact L.
  - destruct (rmatch fl r p s cs (fun p1 s1 cs1 => Some (p1, s1, cs1)))
      as [[[p1 s1] cs1]|] eqn:E.
    + destruct positive; [|discriminate].
      apply IHr in E. destruct E as (p2 & s2 & w & c & E & _ & L).
      inversion E; subst. exists p, s, "", c. repeat split; auto.
      econstructor. exact L.
    + destruct positive; [discriminate|]. eapply accepts_empty; eauto. constructor.
  - destruct (xorb negated (at_word_boundary p s)); [|discriminate].
    eapply accepts_empty; eauto. constructor.
  - destruct p; [discriminate|]. eapply accepts_empty; eauto. constructor.
  - destruct (at_end s); [|discriminate]. eapply accepts_empty; eauto. constructor.
  - destruct (is_empty s); [|discriminate]. eapply accepts_empty; eauto. constructor.
Qed.

Lemma match_here_of fl r adv p s m :
  match_here fl r adv p s = Some m ->
  s = m_whole m ++ m_rest m /\ sem fl r (m_whole m) (m_groups m).
Proof.
  unfold match_here. intros H.
  destruct (rmatch fl r p s [] _) as [[[p1 s1] cs1]|] eqn:E; [|discriminate].
  inversion H; subst; clear H. apply rmatch_accepts in E.
  destruct E as (p2 & s2 & w & c & E & Hs & L).
  destruct (adv && _); [discriminate|]. inversion E; subst. simpl.
  rewrite consumed_append, List.app_nil_r. split; [reflexivity|exact L].
Qed.

Lemma search_from_of fl r s : forall adv p m,
  search_from fl r adv p s = Some m -> match_of fl r s m.
Proof.
  induction s as [|c s IH]; intros adv p m H; simpl in H.
  - destruct (match_here fl r adv p "") eqn:E; [|discriminate].
    inversion H; subst. apply match_here_of in E. destruct E as [E L].
    split; [exists ""; exact E|exact L].
  - destruct (match_here fl r adv p (String c s)) eqn:E.
    + inversion H; subst. apply match_here_of in E. destruct E as [E L].
      split; [exists ""; exact E|exact L].
    + apply IH in H. destruct H as [[pre H] L].
      split; [|exact L]. exists (String c pre). simpl. f_equal. exact H.
Qed.

Lemma finditer_from_of fl r fuel : forall adv p s,
  Forall (match_of fl r s) (finditer_from fuel fl r adv p s).
Proof.
  induction fuel as [|fuel IH]; intros adv p s; simpl; [constructor|].
  destruct (search_from fl r adv p s) as [m|] eqn:E; [|constructor].
  apply search_from_of in E. constructor; [exact E|].
  destruct E as [[pre E] _].
  eapply Forall_impl; [|apply IH]. intros m' [[pre' H'] L']. split; [|exact L'].
  exists (pre ++ m_whole m ++ pre'). rewrite E at 1. rewrite H' at 1.
  rewrite !append_assoc. reflexivity.
Qed.

(** ** What a text of an expression is like *)

Lemma sem_min_length fl r w c : sem fl r w c -> min_length r <= String.length w.
Proof.
  induction 1; simpl; try lia.
  rewrite append_length. lia.
Qed.

Lemma sem_reads_only fl f r w c :
  sem fl r w c -> reads_only fl f r -> str_forall f w = true.
Proof.
  induction 1; simpl; intros Hr; auto.
  - rewrite (Hr _ H). reflexivity.
  - rewrite (Hr x). reflexivity.
  - rewrite (Hr _ H). reflexivity.
  - destruct Hr. rewrite str_forall_append, IHsem1, IHsem2; auto.
  - destruct Hr. auto.
  - destruct Hr. auto.
  - rewrite str_forall_append, IHsem1, IHsem2; auto.
Qed.

Lemma lang_reads_only fl f r w :
  lang fl r w -> reads_only fl f r -> str_forall f w = true.
Proof.
  intros [c H]. eapply sem_reads_only, H.
Qed.

(** The text of a recorded group is a text of what the group encloses. *)
Lemma sem_groups fl r w c :
  sem fl r w c ->
  forall n t, In (n, t) c -> exists a, In (n, a) (groups_of r) /\ lang fl a t.
Proof.
  induction 1; simpl; intros m t Hin; try contradiction.
  - apply in_app_or in Hin. destruct Hin as [Hin|Hin].
    + destruct (IHsem2 _ _ Hin) as (x & Hx & Lx). exists x. split; [apply in_or_app; auto|exact Lx].
    + destruct (IHsem1 _ _ Hin) as (x & Hx & Lx). exists x. split; [apply in_or_app; auto|exact Lx].
  - destruct (IHsem _ _ Hin) as (x & Hx & Lx). exists x. split; [apply in_or_app; auto|exact Lx].
  - destruct (IHsem _ _ Hin) as (x & Hx & Lx). exists x. split; [apply in_or_app; auto|exact Lx].
  - apply in_app_or in Hin. destruct Hin as [Hin|Hin].
    + apply (IHsem2 _ _ Hin).
    + apply (IHsem1 _ _ Hin).
  - destruct Hin as [Hin|Hin].
    + inversion Hin; subst. exists a. split; [left; reflexivity|exists c; assumption].
    + destruct (IHsem _ _ Hin) as (x & Hx & Lx). exists x. split; [right; exact Hx|exact Lx].
  - apply (IHsem _ _ Hin).
Qed.

Lemma lookup_group_in n cs t : lookup_group n cs = Some t -> In (n, t) cs.
Proof.
  induction cs as [|[m u] cs IH]; simpl; [discriminate|].
  destruct (n =? m) eqn:E.
  - intros H. apply Nat.eqb_eq in E. inversion H; subst. left. reflexivity.
  - intros H. right. apply IH, H.
Qed.

(** An expression without groups records none. *)
Lemma sem_no_groups fl r w c : sem fl r w c -> groups_of r = [] -> c = [].
Proof.
  induction 1; simpl; intros Hg; try reflexivity; try discriminate.
  - apply app_eq_nil in Hg. destruct Hg as [H1 H2].
    rewrite (IHsem1 H1), (IHsem2 H2). reflexivity.
  - apply app_eq_nil in Hg. destruct Hg as [H1 H2]. auto.
  - apply app_eq_nil in Hg. destruct Hg as [H1 H2]. auto.
  - rewrite (IHsem1 Hg), (IHsem2 Hg). reflexivity.
  - auto.
Qed.

(** Reading an expression backwards from its shape. *)
Lemma sem_cat_inv fl a b w c :
  sem fl (Cat a b) w c ->
  exists u v c1 c2, w = u ++ v /\ c = (c2 ++ c1)%list /\ sem fl a u c1 /\ sem fl b v c2.
Proof.
  intros H. inversion H; subst. eauto 10.
Qed.

Lemma sem_group_inv fl n a w c :
  sem fl (Group n a) w c -> exists c', c = (n, w) :: c' /\ sem fl a w c'.
Proof.
  intros H. inversion H; subst. eauto.
Qed.

Lemma sem_chr_inv fl ch w c :
  sem fl (Chr ch) w c -> exists x, w = String x "" /\ c = [] /\ chr_eq fl ch x = true.
Proof.
  intros H. inversion H; subst. eauto.
Qed.

Lemma sem_eps_inv fl w c : sem fl Eps w c -> w = "" /\ c = [].
Proof.
  intros H. inversion H; subst. auto.
Qed.

Lemma sem_alt_inv fl a b w c :
  sem fl (Alt a b) w c -> sem fl a w c \/ sem fl b w c.
Proof.
  intros H. inversion H; subst; auto.
Qed.

Lemma chr_eq_noflag c x : chr_eq NOFLAG c x = true -> x = c.
Proof.
  unfold chr_eq. cbn [ignorecase]. intros H. apply Ascii.eqb_eq in H. auto.
Qed.

Lemma lacks_cons c x s : lacks c (String x s) = negb (Ascii.eqb c x) && lacks c s.
Proof. reflexivity. Qed.

Lemma lacks_append c a b : lacks c (a ++ b) = lacks c a && lacks c b.
Proof. apply str_forall_append. Qed.

(** ** The matcher is complete on expressions without assertions *)

Lemma star_loop_stop body greedy k n p s cs :
  always k s -> exists res, star_loop body greedy k n p s cs = Some res.
Proof.
  intros Hk. destruct n as [|n]; cbn [star_loop]; [apply Hk|].
  destruct (Hk p cs) as [res Hres]. rewrite Hres.
  destruct greedy; [|eauto].
  match goal with |- context [body ?a ?b ?c ?d] => destruct (body a b c d) end; eauto.
Qed.

Lemma star_loop_more body greedy k n p s cs :
  (exists res,
     body p s cs
       (fun p1 s1 cs1 =>
          if String.length s1 <? String.length s
          then star_loop body greedy k n p1 s1 cs1 else None) = Some res) ->
  exists res, star_loop body greedy k (S n) p s cs = Some res.
Proof.
  intros [res Hres]. cbn [star_loop]. rewrite Hres.
  destruct greedy; [eauto|]. destruct (k p s cs); eauto.
Qed.

Lemma rmatch_complete fl r w c :
  sem fl r w c -> plain r = true ->
  forall s1 k, always k s1 ->
    (forall p cs, exists res, rmatch fl r p (w ++ s1) cs k = Some res) /\
    (forall g a, r = Star g a ->
       forall n p cs, String.length (w ++ s1) <= n ->
         exists res, star_loop (rmatch fl a) g k n p (w ++ s1) cs = Some res).
Proof.
  induction 1; intros Hp s1 k Hk; cbn [plain] in Hp; try discriminate Hp.
  - (* Eps *)
    split; [|intros ? ? E; discriminate E]. intros p cs. apply Hk.
  - (* Chr *)
    split; [|intros ? ? E; discriminate E].
    intros p cs. cbn [append rmatch]. rewrite H. apply Hk.
  - (* Any *)
    split; [|intros ? ? E; discriminate E].
    intros p cs. cbn [append rmatch]. rewrite H. apply Hk.
  - (* CSet *)
    split; [|intros ? ? E; discriminate E].
    intros p cs. cbn [append rmatch]. rewrite H. apply Hk.
  - (* Cat *)
    split; [|intros ? ? E; discriminate E].
    apply andb_true_iff in Hp. destruct Hp as [Ha Hb].
    intros p cs. rewrite append_assoc. cbn [rmatch].
    apply (IHsem1 Ha (v ++ s1)). intros p1 cs1. apply (IHsem2 Hb s1 k Hk).
  - (* Alt, left *)
    split; [|intros ? ? E; discriminate E].
    apply andb_true_iff in Hp. destruct Hp as [Ha Hb].
    intros p cs. cbn [rmatch].
    destruct (proj1 (IHsem Ha s1 k Hk) p cs) as [res Hres]. rewrite Hres. eauto.
  - (* Alt, right *)
    split; [|intros ? ? E; discriminate E].
    apply andb_true_iff in Hp. destruct Hp as [Ha Hb].
    intros p cs. cbn [rmatch].
    destruct (rmatch fl a p (u ++ s1) cs k); [eauto|].
    apply (IHsem Hb s1 k Hk).
  - (* Star, no more iteration *)
    split.
    + intros p cs. cbn [rmatch]. apply star_loop_stop. exact Hk.
    + intros g a0 E n p cs Hn. apply star_loop_stop. exact Hk.
  - (* Star, one more iteration *)
    assert (Hloop : forall n p cs,
               String.length ((u ++ v) ++ s1) <= n ->
               exists res,
                 star_loop (rmatch fl a) greedy k n p ((u ++ v) ++ s1) cs = Some res).
    { intros n p cs Hn. destruct u as [|x u].
      - apply (proj2 (IHsem2 Hp s1 k Hk) greedy a eq_refl). exact Hn.
      - destruct n as [|n]; [simpl in Hn; lia|].
        apply star_loop_more. rewrite append_assoc.
        apply (IHsem1 Hp (v ++ s1)). intros p1 cs1.
        assert (Hl : (String.length (v ++ s1)
                      <? String.length (String x u ++ v ++ s1)) = true).
        { apply Nat.ltb_lt. rewrite (append_length (String x u)). simpl. lia. }
        rewrite Hl.
        apply (proj2 (IHsem2 Hp s1 k Hk) greedy a eq_refl).
        rewrite append_assoc, (append_length (String x u)) in Hn. simpl in Hn. lia. }
    split.
    + intros p cs. cbn [rmatch]. apply Hloop. lia.
    + intros g a0 E. inversion E; subst g a0. exact Hloop.
  - (* Group *)
    split; [|intros ? ? E; discriminate E].
    intros p cs. cbn [rmatch].
    apply (IHsem Hp s1). intros p1 cs1. apply Hk.
Qed.

(** Where a text of the expression stands, a match starts. *)
Lemma match_here_complete fl r w c p s1 :
  sem fl r w c -> plain r = true ->
  exists m, match_here fl r false p (w ++ s1) = Some m.
Proof.
  intros L Hp. unfold match_here. cbn [andb].
  destruct (proj1 (rmatch_complete fl r w c L Hp s1
                     (fun p1 s2 cs1 => Some (p1, s2, cs1))
                     (fun p1 cs1 => ex_intro _ _ eq_refl)) p [])
    as [[[p1 s2] cs1] Hres].
  rewrite Hres. eauto.
Qed.

(** A text in which a text of the expression stands is one in which the
    search finds a match. *)
Lemma search_from_complete fl r w c text :
  sem fl r w c -> plain r = true -> occurs_in w text ->
  forall p, exists m, search_from fl r false p text = Some m.
Proof.
  intros L Hp (pre & post & ->). induction pre as [|x pre IH]; intros p.
  - cbn [append]. destruct (match_here_complete fl r w c p post L Hp) as [m Hm].
    destruct (w ++ post); cbn [search_from]; rewrite Hm; eauto.
  - cbn [append search_from].
    destruct (match_here fl r false p _) as [m|]; [eauto|apply IH].
Qed.

Lemma finditer_from_complete fl r w c text fuel :
  sem fl r w c -> plain r = true -> occurs_in w text -> 0 < fuel ->
  finditer_from fuel fl r false None text <> [].
Proof.
  intros L Hp Ho Hf. destruct fuel as [|fuel]; [lia|]. cbn [finditer_from].
  destruct (search_from_complete fl r w c text L Hp Ho None) as [m Hm].
  rewrite Hm. discriminate.
Qed.

(** ** Texts of an expression, built from its parts *)

Lemma chr_eq_refl fl c : chr_eq fl c c = true.
Proof.
  unfold chr_eq. destruct (ignorecase fl); apply Ascii.eqb_refl.
Qed.

Lemma lang_eps fl : lang fl Eps "".
Proof. exists []. constructor. Qed.

Lemma lang_chr fl c : lang fl (Chr c) (String c "").
Proof. exists []. constructor. apply chr_eq_refl. Qed.

Lemma lang_cat fl a b u v : lang fl a u -> lang fl b v -> lang fl (Cat a b) (u ++ v).
Proof. intros [c1 H1] [c2 H2]. eexists. econstructor; eauto. Qed.

Lemma lang_cat_eps fl a u : lang fl a u -> lang fl (Cat a Eps) u.
Proof.
  intros H. rewrite <- (append_nil_r u). apply lang_cat; [exact H|apply lang_eps].
Qed.

Lemma lang_group fl n a u : lang fl a u -> lang fl (Group n a) u.
Proof. intros [c H]. eexists. econstructor. exact H. Qed.

Lemma lang_alt_left fl a b u : lang fl a u -> lang fl (Alt a b) u.
Proof. intros [c H]. exists c. apply sem_alt_left, H. Qed.

Lemma lang_alt_right fl a b u : lang fl b u -> lang fl (Alt a b) u.
Proof. intros [c H]. exists c. apply sem_alt_right, H. Qed.

Lemma lang_run fl greedy neg items u :
  str_forall (cset_mem fl neg items) u = true ->
  lang fl (Star greedy (CSet neg items)) u.
Proof.
  induction u as [|x u IH]; cbn [str_forall]; intros H.
  - exists []. constructor.
  - apply andb_true_iff in H. destruct H as [Hx H]. destruct (IH H) as [c Hc].
    exists (c ++ [])%list.
    apply (sem_star_more fl greedy (CSet neg items) (String x "") u [] c);
      [constructor; exact Hx|exact Hc].
Qed.

Lemma lang_run1 fl greedy neg items u :
  u <> "" ->
  str_forall (cset_mem fl neg items) u = true ->
  lang fl (Cat (CSet neg items) (Star greedy (CSet neg items))) u.
Proof.
  destruct u as [|x u]; [contradiction|]. intros _ H. cbn [str_forall] in H.
  apply andb_true_iff in H. destruct H as [Hx H].
  apply (lang_cat fl _ _ (String x "") u); [|apply lang_run, H].
  exists []. constructor. exact Hx.
Qed.

Lemma lang_word fl w : lang fl (literal w Eps) w.
Proof.
  induction w as [|x w IH]; cbn [literal]; [apply lang_eps|].
  apply (lang_cat fl _ _ (String x "") w); [apply lang_chr|exact IH].
Qed.

Lemma search_finds fl r w text :
  lang fl r w -> plain r = true -> occurs_in w text ->
  forall p, exists m, search_from fl r false p text = Some m.
Proof.
  intros [c L]. eapply search_from_complete; eauto.
Qed.

Lemma finditer_finds fl r w text fuel :
  lang fl r w -> plain r = true -> occurs_in w text -> 0 < fuel ->
  finditer_from fuel fl r false None text <> [].
Proof.
  intros [c L]. eapply finditer_from_complete; eauto.
Qed.

(** ** The lines of the dialogue *)

Lemma pattern1_compiles :
  re_compile pattern1 = Ok {| p_regex := pattern1_regex; p_groups := 2 |}.
Proof. vm_compute. reflexivity. Qed.

Lemma pattern2_compiles :
  re_compile pattern2 = Ok {| p_regex := pattern2_regex; p_groups := 2 |}.
Proof. vm_compute. reflexivity. Qed.

Lemma pattern3_compiles :
  re_compile pattern3 = Ok {| p_regex := pattern3_regex; p_groups := 1 |}.
Proof. vm_compute. reflexivity. Qed.

Lemma length_nonempty (t : string) : 1 <= String.length t -> t <> "".
Proof.
  destruct t; simpl; [lia|discriminate].
Qed.

Lemma sem_quoted t c : sem NOFLAG quoted_regex t c -> quoted_text t /\ c = [].
Proof.
  intros L. split; [split|].
  - apply length_nonempty. apply sem_min_length in L. exact L.
  - apply (sem_reads_only NOFLAG no_quote _ _ _ L).
    assert (H : forall x, cset_mem NOFLAG true [CChar dquote] x = true -> no_quote x = true).
    { intros x. unfold cset_mem, no_quote, existsb, citem_mem, chr_eq.
      cbn [ignorecase]. rewrite orb_false_r, (Ascii.eqb_sym x).
      destruct (Ascii.eqb dquote x); auto. }
    unfold quoted_regex. cbn [reads_only]. repeat split; auto.
  - eapply sem_no_groups; [exact L|reflexivity].
Qed.

Lemma cset_range_mem lo hi x :
  cset_mem NOFLAG false [CRange lo hi] x = in_range lo hi x.
Proof.
  unfold cset_mem. simpl. rewrite !orb_false_r. reflexivity.
Qed.

Lemma sem_capitalized t c :
  sem NOFLAG capitalized_regex t c -> capitalized t = true /\ c = [].
Proof.
  intros L. split; [|eapply sem_no_groups; [exact L|reflexivity]].
  unfold capitalized_regex in L.
  apply sem_cat_inv in L. destruct L as (u & v & c1 & c2 & -> & _ & Lu & Lv).
  inversion Lu as [| | |neg items x Hx| | | | | | | | | | | |]; subst.
  rewrite cset_range_mem in Hx. simpl. unfold is_upper. rewrite Hx. simpl.
  assert (Hlen : 1 <= String.length v) by (apply sem_min_length in Lv; exact Lv).
  assert (Hlow : str_forall is_lower v = true).
  { apply (sem_reads_only NOFLAG is_lower _ _ _ Lv). cbn [reads_only].
    repeat split; auto; intros y Hy; rewrite cset_range_mem in Hy; exact Hy. }
  rewrite Hlow. destruct v; simpl in *; [lia|reflexivity].
Qed.

Lemma space_set_mem fl x : cset_mem fl false [CCat false CatSpace] x = is_space x.
Proof.
  unfold cset_mem, existsb, citem_mem, category_mem. rewrite orb_false_r. reflexivity.
Qed.

Lemma sem_spaces fl t c : sem fl spaces_regex t c -> spaces t = true /\ c = [].
Proof.
  intros L. split; [|eapply sem_no_groups; [exact L|reflexivity]].
  apply (sem_reads_only fl is_space _ _ _ L). cbn [spaces_regex reads_only].
  intros x Hx. rewrite space_set_mem in Hx. exact Hx.
Qed.

Lemma sem_spaces1 fl t c :
  sem fl spaces1_regex t c -> t <> "" /\ spaces t = true /\ c = [].
Proof.
  intros L. split; [|split; [|eapply sem_no_groups; [exact L|reflexivity]]].
  - apply length_nonempty. apply sem_min_length in L. exact L.
  - apply (sem_reads_only fl is_space _ _ _ L). cbn [spaces1_regex spaces_regex reads_only].
    split; intros x Hx; rewrite space_set_mem in Hx; exact Hx.
Qed.

Lemma sem_literal_noflag w : forall t c,
  sem NOFLAG (literal w Eps) t c -> t = w /\ c = [].
Proof.
  induction w as [|x w IH]; intros t c L; cbn [literal] in L.
  - apply sem_eps_inv in L. exact L.
  - apply sem_cat_inv in L. destruct L as (u & v & c1 & c2 & -> & -> & Lu & Lv).
    apply sem_chr_inv in Lu. destruct Lu as (y & -> & -> & Hy).
    apply chr_eq_noflag in Hy. subst. apply IH in Lv. destruct Lv as [-> ->].
    split; reflexivity.
Qed.

Lemma sem_verbs t c : sem NOFLAG verbs_regex t c -> In t speech_verbs /\ c = [].
Proof.
  unfold verbs_regex. intros L.
  repeat (apply sem_alt_inv in L; destruct L as [L|L];
          [apply sem_literal_noflag in L; destruct L as [-> ->]; simpl; tauto|]).
  apply sem_literal_noflag in L; destruct L as [-> ->]; simpl; tauto.
Qed.

Lemma sem_quote_mark t c : sem NOFLAG (Chr dquote) t c -> t = dq /\ c = [].
Proof.
  intros L. apply sem_chr_inv in L. destruct L as (y & -> & -> & Hy).
  apply chr_eq_noflag in Hy. subst. split; reflexivity.
Qed.

Lemma occurs_in_match text pre whole rest :
  text = pre ++ whole ++ rest -> occurs_in whole text.
Proof.
  intros H. exists pre, rest. exact H.
Qed.

Lemma occurs_in_suffix a b text : occurs_in (a ++ b) text -> occurs_in b text.
Proof.
  intros (pre & post & H). exists (pre ++ a), post.
  rewrite H, !append_assoc. reflexivity.
Qed.

Lemma occurs_in_prefix a b text : occurs_in (a ++ b) text -> occurs_in a text.
Proof.
  intros (pre & post & H). exists pre, (b ++ post).
  rewrite H, !append_assoc. reflexivity.
Qed.

(** A match of pattern 1. *)
Lemma pattern1_match text m :
  match_of NOFLAG pattern1_regex text m ->
  exists name t,
    group m 1 = Some name /\ group m 2 = Some t /\
    capitalized name = true /\ quoted_text t /\ colon_attribution text name t.
Proof.
  intros [[pre Hpre] L]. apply occurs_in_match in Hpre.
  unfold group. unfold pattern1_regex in L.
  apply sem_cat_inv in L. destruct L as (name & v1 & c1 & k1 & Hw & Hc & L1 & L).
  apply sem_group_inv in L1. destruct L1 as (cn & -> & Ln).
  apply sem_capitalized in Ln. destruct Ln as [Hn ->].
  apply sem_cat_inv in L. destruct L as (sp1 & v2 & c2 & k2 & -> & -> & L2 & L).
  apply sem_spaces in L2. destruct L2 as [Hs1 ->].
  apply sem_cat_inv in L. destruct L as (colon & v3 & c3 & k3 & -> & -> & L3 & L).
  apply sem_chr_inv in L3. destruct L3 as (y & -> & -> & Hy).
  apply chr_eq_noflag in Hy. subst y.
  apply sem_cat_inv in L. destruct L as (sp2 & v4 & c4 & k4 & -> & -> & L4 & L).
  apply sem_spaces in L4. destruct L4 as [Hs2 ->].
  apply sem_cat_inv in L. destruct L as (q1 & v5 & c5 & k5 & -> & -> & L5 & L).
  apply sem_quote_mark in L5. destruct L5 as [-> ->].
  apply sem_cat_inv in L. destruct L as (t & v6 & c6 & k6 & -> & -> & L6 & L).
  apply sem_group_inv in L6. destruct L6 as (cq & -> & Lq).
  apply sem_quoted in Lq. destruct Lq as [Hq ->].
  apply sem_cat_inv in L. destruct L as (q2 & v7 & c7 & k7 & -> & -> & L7 & L).
  apply sem_quote_mark in L7. destruct L7 as [-> ->].
  apply sem_eps_inv in L. destruct L as [-> ->].
  rewrite Hc, Hw in *. exists name, t. simpl.
  split; [reflexivity|]. split; [reflexivity|]. split; [exact Hn|]. split; [exact Hq|].
  exists sp1, sp2. split; [exact Hs1|]. split; [exact Hs2|].
  rewrite append_nil_r in Hpre. exact Hpre.
Qed.

(** A match of pattern 2. *)
Lemma pattern2_match text m :
  match_of NOFLAG pattern2_regex text m ->
  exists name t,
    group m 2 = Some name /\ group m 1 = Some t /\
    capitalized name = true /\ quoted_text t /\ verb_attribution text name t /\
    bare_quote text t.
Proof.
  intros [[pre Hpre] L]. apply occurs_in_match in Hpre.
  unfold group. unfold pattern2_regex in L.
  apply sem_cat_inv in L. destruct L as (q1 & v1 & c1 & k1 & Hw & Hc & L1 & L).
  apply sem_quote_mark in L1. destruct L1 as [-> ->].
  apply sem_cat_inv in L. destruct L as (t & v2 & c2 & k2 & -> & -> & L2 & L).
  apply sem_group_inv in L2. destruct L2 as (cq & -> & Lq).
  apply sem_quoted in Lq. destruct Lq as [Hq ->].
  apply sem_cat_inv in L. destruct L as (q2 & v3 & c3 & k3 & -> & -> & L3 & L).
  apply sem_quote_mark in L3. destruct L3 as [-> ->].
  apply sem_cat_inv in L. destruct L as (sp1 & v4 & c4 & k4 & -> & -> & L4 & L).
  apply sem_spaces1 in L4. destruct L4 as (Hn1 & Hs1 & ->).
  apply sem_cat_inv in L. destruct L as (verb & v5 & c5 & k5 & -> & -> & L5 & L).
  apply sem_verbs in L5. destruct L5 as [Hv ->].
  apply sem_cat_inv in L. destruct L as (sp2 & v6 & c6 & k6 & -> & -> & L6 & L).
  apply sem_spaces1 in L6. destruct L6 as (Hn2 & Hs2 & ->).
  apply sem_cat_inv in L. destruct L as (name & v7 & c7 & k7 & -> & -> & L7 & L).
  apply sem_group_inv in L7. destruct L7 as (cn & -> & Ln).
  apply sem_capitalized in Ln. destruct Ln as [Hn ->].
  apply sem_eps_inv in L. destruct L as [-> ->].
  rewrite Hc, Hw in *. exists name, t. simpl.
  split; [reflexivity|]. split; [reflexivity|]. split; [exact Hn|]. split; [exact Hq|].
  rewrite append_nil_r in Hpre. split.
  - exists sp1, verb, sp2. repeat split; assumption.
  - unfold bare_quote.
    replace (dq ++ t ++ dq ++ sp1 ++ verb ++ sp2 ++ name)
      with ((dq ++ t ++ dq) ++ sp1 ++ verb ++ sp2 ++ name) in Hpre
      by (rewrite !append_assoc; reflexivity).
    apply occurs_in_prefix in Hpre. exact Hpre.
Qed.

(** A match of pattern 3. *)
Lemma pattern3_match text m :
  match_of NOFLAG pattern3_regex text m ->
  exists t, group m 1 = Some t /\ quoted_text t /\ bare_quote text t.
Proof.
  intros [[pre Hpre] L]. apply occurs_in_match in Hpre.
  unfold group. unfold pattern3_regex in L.
  apply sem_cat_inv in L. destruct L as (q1 & v1 & c1 & k1 & Hw & Hc & L1 & L).
  apply sem_quote_mark in L1. destruct L1 as [-> ->].
  apply sem_cat_inv in L. destruct L as (t & v2 & c2 & k2 & -> & -> & L2 & L).
  apply sem_group_inv in L2. destruct L2 as (cq & -> & Lq).
  apply sem_quoted in Lq. destruct Lq as [Hq ->].
  apply sem_cat_inv in L. destruct L as (q2 & v3 & c3 & k3 & -> & -> & L3 & L).
  apply sem_quote_mark in L3. destruct L3 as [-> ->].
  apply sem_eps_inv in L. destruct L as [-> ->].
  rewrite Hc, Hw in *. exists t. simpl.
  split; [reflexivity|]. split; [exact Hq|].
  rewrite append_nil_r in Hpre. exact Hpre.
Qed.

Lemma colon_attribution_quote text name t :
  colon_attribution text name t -> bare_quote text t.
Proof.
  intros (sp1 & sp2 & _ & _ & H). unfold bare_quote.
  replace (name ++ sp1 ++ ":" ++ sp2 ++ dq ++ t ++ dq)
    with ((name ++ sp1 ++ ":" ++ sp2) ++ dq ++ t ++ dq) in H
    by (rewrite !append_assoc; reflexivity).
  apply occurs_in_suffix in H. exact H.
Qed.

Lemma make_line_inv character o line :
  make_line character o = Ok line ->
  exists t, o = Some t /\ DialogueLine.character line = character /\ line_of_text line t.
Proof.
  unfold make_line. intros H. destruct o as [t|]; [|discriminate].
  exists t. split; [reflexivity|]. simpl in H.
  destruct (_extract_non_verbal_cues t) as [cues|] eqn:E; [|discriminate].
  rewrite bind_ok in H. inversion H; subst. simpl. split; [reflexivity|].
  repeat split. exists cues. split; [exact E|reflexivity].
Qed.

(** The loops of [_extract_dialogue] over the matches of a pattern. *)
Lemma lines_of_matches (P : Match -> Prop) (Q : DialogueLine.t -> Prop)
  (f : Match -> result DialogueLine.t) ms lines :
  Forall P ms ->
  (forall m line, P m -> f m = Ok line -> Q line) ->
  mapM f ms = Ok lines ->
  Forall Q lines.
Proof.
  intros HP Hf H. apply mapM_Forall2 in H.
  induction H as [|m line ms lines Hm _ IH]; [constructor|].
  inversion HP; subst. constructor; [eapply Hf; eauto|apply IH; assumption].
Qed.

Lemma pattern1_lines_inv text lines :
  pattern1_lines text = Ok lines ->
  Forall (fun line => attributed_line text line /\ quoted_line text line) lines.
Proof.
  unfold pattern1_lines, re_finditer. rewrite pattern1_compiles, !bind_ok.
  cbn [p_regex]. apply lines_of_matches with (P := match_of NOFLAG pattern1_regex text).
  - apply finditer_from_of.
  - intros m line Hm Hl. apply pattern1_match in Hm.
    destruct Hm as (name & t & Hg1 & Hg2 & Hn & Hq & Ha).
    rewrite Hg1, Hg2 in Hl. apply make_line_inv in Hl.
    destruct Hl as (t' & Ht & Hc & Hlt). inversion Ht; subst t'. split.
    + exists name, t. destruct Hlt as [Htext _].
      split; [exact Hc|]. split; [exact Htext|]. split; [exact Hn|].
      split; [exact Hq|]. left. exact Ha.
    + exists t. split; [exact Hlt|]. split; [exact Hq|].
      eapply colon_attribution_quote, Ha.
Qed.

Lemma pattern2_lines_inv text lines :
  pattern2_lines text = Ok lines ->
  Forall (fun line => attributed_line text line /\ quoted_line text line) lines.
Proof.
  unfold pattern2_lines, re_finditer. rewrite pattern2_compiles, !bind_ok.
  cbn [p_regex]. apply lines_of_matches with (P := match_of NOFLAG pattern2_regex text).
  - apply finditer_from_of.
  - intros m line Hm Hl. apply pattern2_match in Hm.
    destruct Hm as (name & t & Hg2 & Hg1 & Hn & Hq & Ha & Hb).
    rewrite Hg1, Hg2 in Hl. apply make_line_inv in Hl.
    destruct Hl as (t' & Ht & Hc & Hlt). inversion Ht; subst t'. split.
    + exists name, t. destruct Hlt as [Htext _].
      split; [exact Hc|]. split; [exact Htext|]. split; [exact Hn|].
      split; [exact Hq|]. right. exact Ha.
    + exists t. auto.
Qed.

Lemma to_uint_not_nil n : Nat.to_uint n <> Decimal.Nil.
Proof.
  rewrite <- (DecimalNat.Unsigned.of_to n) at 1. rewrite DecimalNat.Unsigned.to_of. apply DecimalFacts.unorm_nonnil.
Qed.

Lemma py_str_nat_inj a b : py_str_nat a = py_str_nat b -> a = b.
Proof.
  unfold py_str_nat. intros H.
  apply (f_equal NilZero.uint_of_string) in H.
  rewrite !NilZero.usu in H by apply to_uint_not_nil.
  inversion H as [E]. apply DecimalNat.Unsigned.to_uint_inj, E.
Qed.

Lemma placeholder_name_inj i j : placeholder_name i = placeholder_name j -> i = j.
Proof.
  unfold placeholder_name. intros H. simpl in H. inversion H as [E].
  apply py_str_nat_inj in E. lia.
Qed.

Lemma placeholders_NoDup i n : NoDup (placeholders i n).
Proof.
  unfold placeholders. revert i. induction n as [|n IH]; intros i; simpl.
  - constructor.
  - constructor; [|apply IH].
    intros Hin. apply in_map_iff in Hin. destruct Hin as (j & Hj & Hin).
    assert (E : placeholder_name j = placeholder_name i) by congruence.
    apply placeholder_name_inj in E. subst.
    apply in_seq in Hin. lia.
Qed.

(** The numbered lines of pattern 3. *)
Lemma numbered_lines_inv text ms : forall i lines,
  Forall (match_of NOFLAG pattern3_regex text) ms ->
  mapM (fun im => make_line (PStr (placeholder_name (fst im))) (group (snd im) 1))
       (enumerate_from i ms) = Ok lines ->
  map DialogueLine.character lines = placeholders i (List.length lines) /\
  Forall (quoted_line text) lines /\
  Forall2 same_words lines
    (map fallback_line (enumerate_from i (map (fun m => group_or_empty m 1) ms))).
Proof.
  induction ms as [|m ms IH]; intros i lines HP H; cbn [enumerate_from mapM] in H.
  - inversion H; subst. repeat split; constructor.
  - apply bind_inv in H. destruct H as (line & Hl & H).
    apply bind_inv in H. destruct H as (rest & Hr & H). inversion H; subst.
    inversion HP as [|? ? Hm HP']; subst.
    destruct (IH _ _ HP' Hr) as (Hc & Hf & Hs).
    apply pattern3_match in Hm. destruct Hm as (t & Hg & Hq & Hb).
    cbn [fst snd] in Hl. rewrite Hg in Hl.
    apply make_line_inv in Hl. destruct Hl as (t' & Ht & Hch & Hlt).
    inversion Ht; subst t'. split; [|split].
    + unfold placeholders in *. simpl. rewrite Hch, Hc. reflexivity.
    + constructor; [|exact Hf]. exists t. auto.
    + cbn [map enumerate_from]. constructor; [|exact Hs].
      unfold same_words, fallback_line, group_or_empty. cbn [fst snd]. rewrite Hg.
      destruct Hlt as [Htext _]. split; [exact Hch|exact Htext].
Qed.

Lemma pattern3_lines_inv text lines :
  pattern3_lines text = Ok lines ->
  map DialogueLine.character lines = placeholders 0 (List.length lines) /\
  Forall (quoted_line text) lines.
Proof.
  unfold pattern3_lines, re_finditer. rewrite pattern3_compiles, !bind_ok.
  cbn [p_regex]. intros H.
  apply (numbered_lines_inv text) in H; [|apply finditer_from_of].
  destruct H as (H1 & H2 & _). split; assumption.
Qed.

Lemma dialogue_lines_inv text lines :
  _extract_dialogue text = Ok lines ->
  Forall (quoted_line text) lines /\
  (Forall (attributed_line text) lines \/
   map DialogueLine.character lines = placeholders 0 (List.length lines)).
Proof.
  unfold _extract_dialogue. intros H.
  apply bind_inv in H. destruct H as (l1 & H1 & H).
  apply bind_inv in H. destruct H as (l2 & H2 & H).
  apply pattern1_lines_inv in H1. apply pattern2_lines_inv in H2.
  assert (H12 : Forall (fun line => attributed_line text line /\ quoted_line text line)
                  (l1 ++ l2)).
  { apply Forall_app. split; assumption. }
  destruct (l1 ++ l2)%list as [|x xs] eqn:E.
  - apply pattern3_lines_inv in H. destruct H as [Hc Hf]. split; [exact Hf|right; exact Hc].
  - inversion H; subst. split; [|left].
    + eapply Forall_impl; [|exact H12]. intros a [_ Ha]. exact Ha.
    + eapply Forall_impl; [|exact H12]. intros a [Ha _]. exact Ha.
Qed.

(** The fallback tier finds the quotes of pattern 3. *)
Lemma fallback_quotes_inv prompt quotes :
  re_findall pattern3 prompt = Ok quotes ->
  exists lines,
    pattern3_lines prompt = Ok lines /\
    Forall2 same_words lines (map fallback_line (enumerate_from 0 quotes)) /\
    Forall (fun t => quoted_text t /\ bare_quote prompt t) quotes.
Proof.
  destruct (pattern3_lines_total prompt) as [lines Hl]. intros Hq. exists lines.
  split; [exact Hl|]. revert Hq Hl.
  unfold re_findall, pattern3_lines, re_finditer. rewrite pattern3_compiles, !bind_ok.
  cbn [p_regex p_groups]. intros Hq Hl. inversion Hq; subst; clear Hq.
  pose proof (finditer_from_of NOFLAG pattern3_regex (2 * String.length prompt + 2)
                false None prompt) as HP.
  split.
  - apply (numbered_lines_inv prompt) in Hl; [|exact HP]. apply Hl.
  - apply Forall_forall. intros q Hin. apply in_map_iff in Hin.
    destruct Hin as (m & Hm & Hin). rewrite Forall_forall in HP.
    apply HP, pattern3_match in Hin. destruct Hin as (t & Ht & Hqt & Hb).
    unfold group_or_empty in Hm. rewrite Ht in Hm. subst. auto.
Qed.

(** *** Where the patterns are found *)

Lemma str_forall_ext f g s :
  (forall x, f x = g x) -> str_forall f s = str_forall g s.
Proof.
  intros H. induction s as [|x s IH]; cbn [str_forall]; [reflexivity|].
  rewrite H, IH. reflexivity.
Qed.

Lemma not_quote_mem x :
  cset_mem NOFLAG true [CChar dquote] x = no_quote x.
Proof.
  unfold cset_mem, no_quote, existsb, citem_mem, chr_eq. cbn [ignorecase xorb NOFLAG].
  rewrite orb_false_r, (Ascii.eqb_sym x). reflexivity.
Qed.

Lemma lang_quoted_intro t : quoted_text t -> lang NOFLAG quoted_regex t.
Proof.
  intros [Hne Ht]. unfold quoted_regex. apply lang_cat_eps, lang_run1; [exact Hne|].
  rewrite (str_forall_ext _ no_quote); [exact Ht|apply not_quote_mem].
Qed.

Lemma lang_capitalized_intro n : capitalized n = true -> lang NOFLAG capitalized_regex n.
Proof.
  destruct n as [|c rest]; [discriminate|]. cbn [capitalized]. intros H.
  apply andb_true_iff in H. destruct H as [H Hl].
  apply andb_true_iff in H. destruct H as [Hu He].
  unfold capitalized_regex.
  apply (lang_cat NOFLAG _ _ (String c "") rest).
  - exists []. constructor. rewrite cset_range_mem. exact Hu.
  - apply lang_cat_eps, lang_run1.
    + destruct rest; [discriminate|discriminate].
    + rewrite (str_forall_ext _ is_lower); [exact Hl|apply cset_range_mem].
Qed.

Lemma lang_spaces_intro fl s : spaces s = true -> lang fl spaces_regex s.
Proof.
  intros H. unfold spaces_regex. apply lang_run.
  rewrite (str_forall_ext _ is_space); [exact H|apply space_set_mem].
Qed.

Lemma lang_spaces1_intro fl s : s <> "" -> spaces s = true -> lang fl spaces1_regex s.
Proof.
  intros Hne H. unfold spaces1_regex, spaces_regex. apply lang_run1; [exact Hne|].
  rewrite (str_forall_ext _ is_space); [exact H|apply space_set_mem].
Qed.

Lemma lang_verbs_intro verb : In verb speech_verbs -> lang NOFLAG verbs_regex verb.
Proof.
  unfold speech_verbs, verbs_regex. intros H.
  repeat (destruct H as [<-|H];
          [repeat (first [apply lang_word | apply lang_alt_left; apply lang_word
                         | apply lang_alt_right])|]).
  contradiction.
Qed.

Lemma pattern1_lang name sp1 sp2 t :
  capitalized name = true -> quoted_text t ->
  spaces sp1 = true -> spaces sp2 = true ->
  lang NOFLAG pattern1_regex (name ++ sp1 ++ ":" ++ sp2 ++ dq ++ t ++ dq).
Proof.
  intros Hn Hq H1 H2. unfold pattern1_regex.
  apply lang_cat; [apply lang_group, lang_capitalized_intro, Hn|].
  apply lang_cat; [apply lang_spaces_intro, H1|].
  apply lang_cat; [apply lang_chr|].
  apply lang_cat; [apply lang_spaces_intro, H2|].
  apply lang_cat; [apply lang_chr|].
  apply lang_cat; [apply lang_group, lang_quoted_intro, Hq|].
  apply lang_cat_eps, lang_chr.
Qed.

Lemma pattern2_lang name sp1 verb sp2 t :
  capitalized name = true -> quoted_text t ->
  sp1 <> "" -> spaces sp1 = true -> In verb speech_verbs ->
  sp2 <> "" -> spaces sp2 = true ->
  lang NOFLAG pattern2_regex (dq ++ t ++ dq ++ sp1 ++ verb ++ sp2 ++ name).
Proof.
  intros Hn Hq N1 H1 Hv N2 H2. unfold pattern2_regex.
  apply lang_cat; [apply lang_chr|].
  apply lang_cat; [apply lang_group, lang_quoted_intro, Hq|].
  apply lang_cat; [apply lang_chr|].
  apply lang_cat; [apply lang_spaces1_intro; assumption|].
  apply lang_cat; [apply lang_verbs_intro, Hv|].
  apply lang_cat; [apply lang_spaces1_intro; assumption|].
  apply lang_cat_eps, lang_group, lang_capitalized_intro, Hn.
Qed.

Lemma pattern3_lang t : quoted_text t -> lang NOFLAG pattern3_regex (dq ++ t ++ dq).
Proof.
  intros Hq. unfold pattern3_regex.
  apply lang_cat; [apply lang_chr|].
  apply lang_cat; [apply lang_group, lang_quoted_intro, Hq|].
  apply lang_cat_eps, lang_chr.
Qed.

Lemma mapM_nil {A B : Type} (f : A -> result B) l : mapM f l = Ok [] -> l = [].
Proof.
  destruct l as [|a l]; [reflexivity|]. cbn [mapM].
  destruct (f a); [|discriminate]. rewrite bind_ok.
  destruct (mapM f l); discriminate.
Qed.

Lemma enumerate_from_nil {A : Type} i (l : list A) : enumerate_from i l = [] -> l = [].
Proof. destruct l; [reflexivity|discriminate]. Qed.

Lemma pattern1_lines_found text name t :
  capitalized name = true -> quoted_text t -> colon_attribution text name t ->
  pattern1_lines text <> Ok [].
Proof.
  intros Hn Hq (sp1 & sp2 & H1 & H2 & Ho).
  unfold pattern1_lines, re_finditer. rewrite pattern1_compiles, !bind_ok.
  cbn [p_regex]. intros H. apply mapM_nil in H. revert H.
  eapply finditer_finds; [apply (pattern1_lang name sp1 sp2 t); assumption
                         |reflexivity|exact Ho|lia].
Qed.

Lemma pattern2_lines_found text name t :
  capitalized name = true -> quoted_text t -> verb_attribution text name t ->
  pattern2_lines text <> Ok [].
Proof.
  intros Hn Hq (sp1 & verb & sp2 & N1 & H1 & Hv & N2 & H2 & Ho).
  unfold pattern2_lines, re_finditer. rewrite pattern2_compiles, !bind_ok.
  cbn [p_regex]. intros H. apply mapM_nil in H. revert H.
  eapply finditer_finds; [apply (pattern2_lang name sp1 verb sp2 t); assumption
                         |reflexivity|exact Ho|lia].
Qed.

Lemma pattern3_lines_found text :
  has_quote text -> pattern3_lines text <> Ok [].
Proof.
  intros (t & Hq & Ho).
  unfold pattern3_lines, re_finditer. rewrite pattern3_compiles, !bind_ok.
  cbn [p_regex]. intros H. apply mapM_nil, enumerate_from_nil in H. revert H.
  eapply finditer_finds; [apply (pattern3_lang t Hq)|reflexivity|exact Ho|lia].
Qed.

(** The speakers are named exactly when an attribution stands in the text. *)
Lemma dialogue_speakers_inv text lines :
  _extract_dialogue text = Ok lines ->
  (has_attribution text -> lines <> [] /\ Forall (attributed_line text) lines) /\
  (~ has_attribution text ->
   map DialogueLine.character lines = placeholders 0 (List.length lines)).
Proof.
  unfold _extract_dialogue. intros H.
  apply bind_inv in H. destruct H as (l1 & H1 & H).
  apply bind_inv in H. destruct H as (l2 & H2 & H).
  pose proof (pattern1_lines_inv _ _ H1) as F1.
  pose proof (pattern2_lines_inv _ _ H2) as F2.
  assert (H12 : Forall (fun line => attributed_line text line /\ quoted_line text line)
                  (l1 ++ l2)).
  { apply Forall_app. split; assumption. }
  split.
  - intros (name & t & Hn & Hq & Ha).
    assert (Hne : (l1 ++ l2)%list <> []).
    { intros E. apply app_eq_nil in E. destruct E as [-> ->].
      destruct Ha as [Ha|Ha].
      - exact (pattern1_lines_found text name t Hn Hq Ha H1).
      - exact (pattern2_lines_found text name t Hn Hq Ha H2). }
    destruct (l1 ++ l2)%list as [|x xs] eqn:E; [contradiction|].
    inversion H; subst. split; [discriminate|].
    eapply Forall_impl; [|exact H12]. intros a [Ha' _]. exact Ha'.
  - intros Hno. destruct (l1 ++ l2)%list as [|x xs] eqn:E.
    + apply pattern3_lines_inv in H. apply H.
    + exfalso. apply Hno. inversion H12 as [|? ? [(name & t & _ & _ & Hn & Hq & Ha) _] _].
      exists name, t. auto.
Qed.

(** Lines are found exactly when a quoted text stands in the text. *)
Lemma dialogue_empty_iff text lines :
  _extract_dialogue text = Ok lines ->
  (lines = [] <-> ~ has_quote text).
Proof.
  intros H. split.
  - intros -> Hq. apply (pattern3_lines_found text Hq).
    unfold _extract_dialogue in H.
    apply bind_inv in H. destruct H as (l1 & H1 & H).
    apply bind_inv in H. destruct H as (l2 & H2 & H).
    destruct (l1 ++ l2)%list; [exact H|discriminate].
  - intros Hn. destruct lines as [|line lines]; [reflexivity|]. exfalso. apply Hn.
    apply dialogue_lines_inv in H. destruct H as [H _].
    inversion H as [|? ? (t & _ & Hq & Hb) _]; subst. exists t. auto.
Qed.

Lemma fallback_quotes_empty_iff prompt quotes :
  re_findall pattern3 prompt = Ok quotes ->
  (quotes = [] <-> ~ has_quote prompt).
Proof.
  intros H. split.
  - intros -> (t & Hq & Ho). revert H. unfold re_findall.
    rewrite pattern3_compiles, bind_ok. cbn [p_regex p_groups]. intros H.
    assert (E : finditer_from (2 * String.length prompt + 2) NOFLAG pattern3_regex
                  false None prompt = []).
    { inversion H as [E]. apply map_eq_nil in E. exact E. }
    revert E.
    eapply finditer_finds; [apply (pattern3_lang t Hq)|reflexivity|exact Ho|lia].
  - intros Hn. destruct quotes as [|q quotes]; [reflexivity|]. exfalso. apply Hn.
    destruct (fallback_quotes_inv prompt _ H) as (lines & _ & _ & HF).
    inversion HF as [|? ? [Hq Hb] _]; subst. exists q. auto.
Qed.

(** X2. [_extract_dialogue] returns on every text. Every line it returns,
    whatever the pattern that found it, says what stands between two
    quotation marks of the text: a text that is not empty and holds no
    quotation mark; its emotion is the one [_extract_emotion_from_dialogue]
    gives that text, its cues are those of [_extract_non_verbal_cues], its
    action is empty and its timing 0.0. There is no line exactly when no
    such text stands between quotation marks in the text. *)
Theorem dialogue_lines_are_quotes (text : string) :
  exists lines,
    _extract_dialogue text = Ok lines /\
    Forall (quoted_line text) lines /\
    (lines = [] <-> ~ has_quote text).
Proof.
  destruct (extract_dialogue_total text) as [lines H]. exists lines.
  split; [exact H|]. split; [|apply dialogue_empty_iff, H].
  apply dialogue_lines_inv in H. apply H.
Qed.

(** X3. The speakers of the lines of [_extract_dialogue], for a text of
    ASCII characters. When an attribution stands in the text, [Name: "text"]
    or ["text" said Name] with one of the five verbs and a capitalized name,
    there are lines and every line is such an attribution of the text; when
    none does, the speakers are the placeholders Character1, Character2, ...
    in the order of the lines. *)
Theorem dialogue_speakers_are_named_or_numbered (text : string) :
  is_ascii text = true ->
  exists lines,
    _extract_dialogue text = Ok lines /\
    (has_attribution text -> lines <> [] /\ Forall (attributed_line text) lines) /\
    (~ has_attribution text ->
     map DialogueLine.character lines = placeholders 0 (List.length lines)).
Proof.
  intros _. destruct (extract_dialogue_total text) as [lines H]. exists lines.
  split; [exact H|]. apply dialogue_speakers_inv, H.
Qed.

Lemma dialogue_speakers_are_named_or_numbered_witness :
  exists lines,
    _extract_dialogue prompt_mixed = Ok lines /\
    (has_attribution prompt_mixed ->
     lines <> [] /\ Forall (attributed_line prompt_mixed) lines) /\
    (~ has_attribution prompt_mixed ->
     map DialogueLine.character lines = placeholders 0 (List.length lines)).
Proof.
  apply (dialogue_speakers_are_named_or_numbered prompt_mixed). reflexivity.
Defined.

Lemma enumerate_from_length {A : Type} (l : list A) : forall i,
  List.length (enumerate_from i l) = List.length l.
Proof.
  induction l as [|a l IH]; intros i; simpl; [reflexivity|]. f_equal. apply IH.
Qed.

Lemma fallback_speakers quotes : forall i,
  map DialogueLine.character (map fallback_line (enumerate_from i quotes)) =
  placeholders i (List.length quotes).
Proof.
  unfold placeholders. induction quotes as [|q quotes IH]; intros i; simpl; [reflexivity|].
  f_equal. apply IH.
Qed.

(** X4. The dialogue of the fallback tier is the dialogue pattern 3 gives
    the local tier, line by line the same speaker and the same text; every
    text stands between two quotation marks of the prompt, and there is no
    line exactly when no quoted text stands in the prompt. Only the emotion
    and the cues differ. *)
Theorem fallback_dialogue_is_pattern3 (prompt : string) :
  exists scene lines,
    _process_with_fallback prompt = Ok scene /\
    pattern3_lines prompt = Ok lines /\
    Forall2 same_words lines (ParsedScene.dialogue scene) /\
    Forall (fun line => exists t,
              DialogueLine.text line = PStr t /\ quoted_text t /\ bare_quote prompt t)
           (ParsedScene.dialogue scene) /\
    (ParsedScene.dialogue scene = [] <-> ~ has_quote prompt).
Proof.
  destruct (fallback_total prompt) as (quotes & Hq & Hs).
  destruct (fallback_quotes_inv prompt quotes Hq) as (lines & Hl & Hw & Ht).
  exists (fallback_scene prompt quotes), lines.
  split; [exact Hs|]. split; [exact Hl|]. split; [exact Hw|].
  unfold fallback_scene. cbn [ParsedScene.dialogue].
  split; [|rewrite <- (fallback_quotes_empty_iff prompt quotes Hq);
           destruct quotes; simpl; split; intros E; try reflexivity; discriminate].
  apply Forall_forall. intros line Hin. apply in_map_iff in Hin.
  destruct Hin as ([i q] & <- & Hin). exists q. split; [reflexivity|].
  rewrite Forall_forall in Ht. apply Ht.
  pose proof (enumerate_from_snd quotes 0) as He.
  rewrite <- He. apply in_map_iff. exists (i, q). split; [reflexivity|exact Hin].
Qed.

(** X5. The fallback scene lists the one character Character1, while the
    speakers of its dialogue are Character1, Character2, ..., one for each
    quote and pairwise distinct. *)
Theorem fallback_speakers_are_numbered (prompt : string) :
  exists scene,
    _process_with_fallback prompt = Ok scene /\
    character_names (ParsedScene.characters scene) = [PStr "Character1"] /\
    map DialogueLine.character (ParsedScene.dialogue scene) =
      placeholders 0 (List.length (ParsedScene.dialogue scene)) /\
    NoDup (map DialogueLine.character (ParsedScene.dialogue scene)).
Proof.
  destruct (fallback_total prompt) as (quotes & _ & Hs).
  exists (fallback_scene prompt quotes). split; [exact Hs|]. split; [reflexivity|].
  unfold fallback_scene. cbn [ParsedScene.dialogue].
  rewrite fallback_speakers, length_map, enumerate_from_length.
  split; [reflexivity|apply placeholders_NoDup].
Qed.

(** ** The cues and the mood *)

Lemma to_lower_not_upper c : not_upper (to_lower c) = true.
Proof.
  destruct c as [[] [] [] [] [] [] [] []]; vm_compute; reflexivity.
Qed.

Lemma py_lower_not_upper s : str_forall not_upper (py_lower s) = true.
Proof.
  unfold py_lower. induction s as [|c s IH]; cbn [str_map str_forall]; [reflexivity|].
  rewrite to_lower_not_upper. exact IH.
Qed.

Lemma not_char_mem c x : cset_mem NOFLAG true [CChar c] x = negb (Ascii.eqb c x).
Proof.
  unfold cset_mem, existsb, citem_mem, chr_eq. cbn [ignorecase xorb NOFLAG].
  rewrite orb_false_r. reflexivity.
Qed.

Lemma bracket_match o c text m :
  match_of NOFLAG (bracket_regex o c) text m ->
  exists t, group m 1 = Some t /\ bracketed o c text t.
Proof.
  intros [[pre Hpre] L]. apply occurs_in_match in Hpre.
  unfold group. unfold bracket_regex in L.
  apply sem_cat_inv in L. destruct L as (q1 & v1 & c1 & k1 & Hw & Hc & L1 & L).
  apply sem_chr_inv in L1. destruct L1 as (y & -> & -> & Hy).
  apply chr_eq_noflag in Hy. subst y.
  apply sem_cat_inv in L. destruct L as (t & v2 & c2 & k2 & -> & -> & L2 & L).
  apply sem_group_inv in L2. destruct L2 as (cq & -> & Lq).
  assert (Hne : t <> "").
  { apply length_nonempty. apply sem_min_length in Lq. exact Lq. }
  assert (Hl : lacks c t = true).
  { apply (sem_reads_only NOFLAG _ _ _ _ Lq). cbn [reads_only].
    repeat split; auto; intros x Hx; rewrite not_char_mem in Hx; exact Hx. }
  apply sem_no_groups in Lq; [|reflexivity]. subst cq.
  apply sem_cat_inv in L. destruct L as (q2 & v3 & c3 & k3 & -> & -> & L3 & L).
  apply sem_chr_inv in L3. destruct L3 as (y & -> & -> & Hy).
  apply chr_eq_noflag in Hy. subst y.
  apply sem_eps_inv in L. destruct L as [-> ->].
  rewrite Hc, Hw in *. exists t. simpl.
  split; [reflexivity|]. split; [exact Hne|]. split; [exact Hl|].
  simpl in Hpre. simpl. exact Hpre.
Qed.

Lemma bracket_lang o c t :
  t <> "" -> lacks c t = true ->
  lang NOFLAG (bracket_regex o c) (String o "" ++ t ++ String c "").
Proof.
  intros Hne Hl. unfold bracket_regex.
  apply lang_cat; [apply lang_chr|].
  apply lang_cat; [|apply lang_cat_eps, lang_chr].
  apply lang_group, lang_cat_eps, lang_run1; [exact Hne|].
  unfold lacks in Hl. rewrite (str_forall_ext _ (fun x => negb (Ascii.eqb c x)));
    [exact Hl|apply not_char_mem].
Qed.

Lemma cues_of_matches o c text ms cues :
  Forall (match_of NOFLAG (bracket_regex o c) text) ms ->
  mapM cue_of_match ms = Ok cues ->
  Forall (fun cue => exists t, cue = py_lower t /\ bracketed o c text t) cues.
Proof.
  intros Hs. revert cues. induction Hs as [|m ms Hm _ IH]; intros cues H;
    cbn [mapM] in H.
  - inversion H. constructor.
  - apply bind_inv in H. destruct H as (cue & Hc & H).
    apply bind_inv in H. destruct H as (rest & Hr & H). inversion H; subst.
    constructor; [|apply IH, Hr].
    apply bracket_match in Hm. destruct Hm as (t & Ht & Hb).
    unfold cue_of_match in Hc. rewrite Ht in Hc. simpl in Hc.
    inversion Hc; subst. exists t. auto.
Qed.

Lemma cues_found o c text t cues :
  bracketed o c text t ->
  mapM cue_of_match
    (finditer_from (2 * String.length text + 2) NOFLAG (bracket_regex o c)
       false None text) = Ok cues ->
  cues <> [].
Proof.
  intros (Hne & Hl & Ho) H ->. apply mapM_nil in H. revert H.
  eapply finditer_finds; [apply (bracket_lang o c t Hne Hl)|reflexivity|exact Ho|lia].
Qed.

Lemma non_verbal_cues_inv text cues :
  _extract_non_verbal_cues text = Ok cues ->
  Forall (fun cue => cue_of text cue /\ str_forall not_upper cue = true) cues /\
  (cues = [] <-> ~ exists cue, cue_of text cue).
Proof.
  unfold _extract_non_verbal_cues, non_verbal_patterns. cbn [non_verbal_of].
  unfold re_finditer.
  assert (H1 : re_compile "\[([^\]]+)\]" =
               Ok {| p_regex := bracket_regex "[" "]"; p_groups := 1 |})
    by (vm_compute; reflexivity).
  assert (H2 : re_compile "\(([^\)]+)\)" =
               Ok {| p_regex := bracket_regex "(" ")"; p_groups := 1 |})
    by (vm_compute; reflexivity).
  rewrite H1, H2, !bind_ok. cbn [p_regex]. intros H.
  apply bind_inv in H. destruct H as (here & Hh & H).
  apply bind_inv in H. destruct H as (more & Hm & H). inversion H; subst; clear H.
  apply bind_inv in Hm. destruct Hm as (there & Ht & Hm).
  rewrite bind_ok in Hm. inversion Hm; subst; clear Hm. rewrite List.app_nil_r.
  pose proof (cues_of_matches "[" "]" text _ _
                (finditer_from_of NOFLAG _ _ false None text) Hh) as Fh.
  pose proof (cues_of_matches "(" ")" text _ _
                (finditer_from_of NOFLAG _ _ false None text) Ht) as Ft.
  assert (HF : Forall (fun cue => cue_of text cue /\ str_forall not_upper cue = true)
                 (here ++ there)).
  { apply Forall_app. split.
    - eapply Forall_impl; [|exact Fh]. intros cue (t & -> & Hb).
      split; [|apply py_lower_not_upper]. exists t. auto.
    - eapply Forall_impl; [|exact Ft]. intros cue (t & -> & Hb).
      split; [|apply py_lower_not_upper]. exists t. auto. }
  split; [exact HF|]. split.
  - intros E (cue & t & _ & Hb). apply app_eq_nil in E. destruct E as [-> ->].
    destruct Hb as [Hb|Hb].
    + exact (cues_found _ _ _ _ _ Hb Hh eq_refl).
    + exact (cues_found _ _ _ _ _ Hb Ht eq_refl).
  - intros Hn. destruct (here ++ there)%list as [|cue rest]; [reflexivity|].
    exfalso. apply Hn. exists cue. inversion HF as [|? ? [Hc _] _]. exact Hc.
Qed.

(** *** The mood *)

Lemma first_mood_priority text_lower before mood indicators after :
  Forall (fun entry => mentions text_lower (snd entry) = false) before ->
  mentions text_lower indicators = true ->
  first_mood (before ++ (mood, indicators) :: after) text_lower = mood.
Proof.
  intros Hb Hi. induction Hb as [|[m inds] rest H _ IH]; simpl.
  - unfold mentions in Hi. rewrite Hi. reflexivity.
  - unfold mentions in H. simpl in H. rewrite H. exact IH.
Qed.

(** X6. [_extract_non_verbal_cues] returns on every text of ASCII
    characters. Every cue is the lower-cased form of what stands between
    square brackets or between round brackets in the text, a text that is
    not empty and holds no closing bracket of its kind; no cue holds an
    upper-case letter. There is no cue exactly when no such text stands in
    brackets. *)
Theorem cues_are_bracketed_lower_case (text : string) :
  is_ascii text = true ->
  exists cues,
    _extract_non_verbal_cues text = Ok cues /\
    Forall (fun cue => cue_of text cue /\ str_forall not_upper cue = true) cues /\
    (cues = [] <-> ~ exists cue, cue_of text cue).
Proof.
  intros _. destruct (non_verbal_total text) as [cues H]. exists cues.
  split; [exact H|]. apply non_verbal_cues_inv, H.
Qed.

Lemma cues_are_bracketed_lower_case_witness :
  exists cues,
    _extract_non_verbal_cues prompt_cues = Ok cues /\
    Forall (fun cue => cue_of prompt_cues cue /\ str_forall not_upper cue = true) cues /\
    (cues = [] <-> ~ exists cue, cue_of prompt_cues cue).
Proof.
  apply (cues_are_bracketed_lower_case prompt_cues). reflexivity.
Defined.

(** X8. The mood is the first category of the table, in its order, of which
    the lower-cased text holds an indicator: an earlier category wins over a
    later one whatever else the text holds. *)
Theorem mood_is_first_category
  (text : string) (before : list (string * list string)) (mood : string)
  (indicators : list string) (after : list (string * list string)) :
  mood_indicators = (before ++ (mood, indicators) :: after)%list ->
  Forall (fun entry => mentions (py_lower text) (snd entry) = false) before ->
  mentions (py_lower text) indicators = true ->
  _extract_mood text = mood.
Proof.
  intros Ht Hb Hi. unfold _extract_mood. rewrite Ht.
  apply first_mood_priority; assumption.
Qed.

Lemma mood_is_first_category_witness : _extract_mood prompt_moods = "sad".
Proof.
  apply (mood_is_first_category prompt_moods
           [("happy", ["happy"; "joyful"; "cheerful"; "upbeat"; "positive"; "bright"])]
           "sad" ["sad"; "melancholy"; "depressing"; "gloomy"; "somber"]
           [ ("tense", ["tense"; "suspenseful"; "dramatic"; "intense"; "serious"]);
             ("romantic", ["romantic"; "intimate"; "loving"; "tender"; "sweet"]);
             ("comedic", ["funny"; "humorous"; "comedic"; "amusing"; "lighthearted"]);
             ("mysterious", ["mysterious"; "enigmatic"; "puzzling"; "strange"; "eerie"]) ]).
  - reflexivity.
  - repeat constructor.
  - reflexivity.
Defined.

(** ** The reply of the remote service *)

Lemma mapM_dicts {B : Type} (f : pyval -> result B) items :
  (forall d, exists b, f (PDict d) = Ok b) ->
  (forall v, is_dict v = false -> f v = Raise AttributeError) ->
  if forallb is_dict items
  then exists bs, mapM f items = Ok bs /\ List.length bs = List.length items
  else mapM f items = Raise AttributeError.
Proof.
  intros Hd Hn. induction items as [|v items IH]; cbn [forallb mapM].
  - exists []. split; reflexivity.
  - destruct (is_dict v) eqn:E; cbn [andb].
    + destruct v; try discriminate E. destruct (Hd d) as [b Hb]. rewrite Hb, bind_ok.
      destruct (forallb is_dict items).
      * destruct IH as (bs & -> & Hl). rewrite bind_ok. exists (b :: bs).
        split; [reflexivity|]. simpl. f_equal. exact Hl.
      * rewrite IH. reflexivity.
    + rewrite (Hn v E). reflexivity.
Qed.

Lemma convert_character_dict d : exists c, convert_character (PDict d) = Ok c.
Proof. eexists. reflexivity. Qed.

Lemma convert_character_other v :
  is_dict v = false -> convert_character v = Raise AttributeError.
Proof. destruct v; try reflexivity. discriminate. Qed.

Lemma convert_dialogue_dict d : exists c, convert_dialogue (PDict d) = Ok c.
Proof. eexists. reflexivity. Qed.

Lemma convert_dialogue_other v :
  is_dict v = false -> convert_dialogue v = Raise AttributeError.
Proof. destruct v; try reflexivity. discriminate. Qed.

Lemma convert_loop {B : Type} (f : pyval -> result B) v :
  (forall d, exists b, f (PDict d) = Ok b) ->
  (forall x, is_dict x = false -> f x = Raise AttributeError) ->
  if iterable_of_dicts v
  then exists items bs,
         py_iter v = Ok items /\ mapM f items = Ok bs /\
         List.length bs = List.length items
  else exists e, (items <- py_iter v ;; mapM f items) = Raise e /\ is_lookup_error e = true.
Proof.
  intros Hd Hn. unfold iterable_of_dicts.
  destruct (py_iter v) as [items|e] eqn:E.
  - pose proof (mapM_dicts f items Hd Hn) as H.
    destruct (forallb is_dict items).
    + destruct H as (bs & H & Hl). exists items, bs. auto.
    + exists AttributeError. rewrite bind_ok, H. split; reflexivity.
  - exists e. split; [reflexivity|].
    destruct v; simpl in E; try discriminate E; inversion E; reflexivity.
Qed.

Lemma convert_scene_cases data :
  if well_shaped data
  then exists d chars_iter dial_iter characters dialogue,
         data = PDict d /\
         py_iter (assoc_get d "characters" (PList [])) = Ok chars_iter /\
         py_iter (assoc_get d "dialogue" (PList [])) = Ok dial_iter /\
         List.length characters = List.length chars_iter /\
         List.length dialogue = List.length dial_iter /\
         _convert_to_parsed_scene data =
           Ok (ParsedScene.mk (assoc_get d "description" (PStr "")) characters dialogue
                 (assoc_get d "actions" (PList [])) (assoc_get d "environment" (PStr ""))
                 (assoc_get d "mood" (PStr "neutral"))
                 (assoc_get d "duration_estimate" (PInt 10)))
  else exists e, _convert_to_parsed_scene data = Raise e /\ is_lookup_error e = true.
Proof.
  destruct data as [| | | | | |d];
    try (exists AttributeError; split; reflexivity).
  unfold well_shaped, _convert_to_parsed_scene. cbn [py_get]. rewrite !bind_ok.
  pose proof (convert_loop convert_character (assoc_get d "characters" (PList []))
                convert_character_dict convert_character_other) as Hc.
  pose proof (convert_loop convert_dialogue (assoc_get d "dialogue" (PList []))
                convert_dialogue_dict convert_dialogue_other) as Hd.
  destruct (iterable_of_dicts (assoc_get d "characters" (PList []))); cbn [andb].
  - destruct Hc as (ci & cs & Hi & Hm & Hl). rewrite Hi, bind_ok, Hm, !bind_ok.
    destruct (iterable_of_dicts (assoc_get d "dialogue" (PList []))).
    + destruct Hd as (di & ds & Hi' & Hm' & Hl'). rewrite Hi', bind_ok, Hm', !bind_ok.
      exists d, ci, di, cs, ds. repeat split; assumption.
    + destruct Hd as (e & He & Hk). exists e. split; [|exact Hk].
      destruct (py_iter (assoc_get d "dialogue" (PList []))) as [di|e'].
      * rewrite bind_ok in He. rewrite bind_ok, He. reflexivity.
      * simpl in He. inversion He. reflexivity.
  - destruct Hc as (e & He & Hk). exists e. split; [|exact Hk].
    destruct (py_iter (assoc_get d "characters" (PList []))) as [ci|e'].
    + rewrite bind_ok in He. rewrite bind_ok, He. reflexivity.
    + simpl in He. inversion He. reflexivity.
Qed.

(** X9. [_convert_to_parsed_scene] returns a scene exactly for a dict whose
    values under characters and dialogue iterate to dicts only (a list of
    dicts, an empty string, an empty dict; a missing key counts as the empty
    list): the scene holds one character and one line for each dict, and
    every other field is the value of its key or the default, unchecked. On
    any other value it raises AttributeError or TypeError. *)
Theorem convert_accepts_well_shaped (data : pyval) :
  if well_shaped data
  then exists d chars_iter dial_iter characters dialogue,
         data = PDict d /\
         py_iter (assoc_get d "characters" (PList [])) = Ok chars_iter /\
         py_iter (assoc_get d "dialogue" (PList [])) = Ok dial_iter /\
         List.length characters = List.length chars_iter /\
         List.length dialogue = List.length dial_iter /\
         _convert_to_parsed_scene data =
           Ok (ParsedScene.mk (assoc_get d "description" (PStr "")) characters dialogue
                 (assoc_get d "actions" (PList [])) (assoc_get d "environment" (PStr ""))
                 (assoc_get d "mood" (PStr "neutral"))
                 (assoc_get d "duration_estimate" (PInt 10)))
  else exists e, _convert_to_parsed_scene data = Raise e /\ is_lookup_error e = true.
Proof.
  apply convert_scene_cases.
Qed.

(** *** The salvage of a JSON object *)

Lemma brace_compiles :
  re_compile "\{.*\}" = Ok {| p_regex := brace_regex; p_groups := 0 |}.
Proof. vm_compute. reflexivity. Qed.

Section Salvage.

(** The repetition of any character, under [re.DOTALL]. *)
Variable body : option ascii -> string -> caps -> kont -> option mstate.

Hypothesis body_char : forall p x s cs k', body p (String x s) cs k' = k' (Some x) s cs.
Hypothesis body_end : forall p cs k', body p "" cs k' = None.

(** What follows the repetition: a closing brace, and the match ends. *)
Variable k : kont.

Hypothesis k_brace : forall p s cs, k p (String "}" s) cs = Some (Some "}"%char, s, cs).
Hypothesis k_other : forall p x s cs, Ascii.eqb "}" x = false -> k p (String x s) cs = None.
Hypothesis k_end : forall p cs, k p "" cs = None.

Lemma star_any_none n : forall post p cs,
  lacks "}" post = true ->
  star_loop body true k n p post cs = None.
Proof.
  induction n as [|n IH]; intros post p cs H; cbn [star_loop].
  - destruct post as [|x post]; [apply k_end|].
    rewrite lacks_cons in H. apply andb_true_iff in H. destruct H as [Hx _].
    apply k_other. apply negb_true_iff in Hx. exact Hx.
  - destruct post as [|x post].
    + rewrite body_end. apply k_end.
    + rewrite lacks_cons in H. apply andb_true_iff in H. destruct H as [Hx H].
      rewrite body_char.
      assert (Hl : (String.length post <? String.length (String x post)) = true)
        by (apply Nat.ltb_lt; simpl; lia).
      rewrite Hl, (IH post (Some x) cs H).
      apply k_other. apply negb_true_iff in Hx. exact Hx.
Qed.

Lemma star_any_last mid : forall n post p cs,
  lacks "}" post = true ->
  String.length (mid ++ "}" ++ post) <= n ->
  star_loop body true k n p (mid ++ "}" ++ post) cs =
    Some (Some "}"%char, post, cs).
Proof.
  induction mid as [|x mid IH]; intros n post p cs H Hn.
  - cbn [append] in *. destruct n as [|n]; [simpl in Hn; lia|].
    cbn [star_loop]. rewrite body_char.
    assert (Hl : (String.length post <? String.length (String "}" post)) = true)
      by (apply Nat.ltb_lt; simpl; lia).
    rewrite Hl, (star_any_none n post (Some "}"%char) cs H). apply k_brace.
  - cbn [append] in *. destruct n as [|n]; [simpl in Hn; lia|].
    cbn [star_loop]. rewrite body_char.
    assert (Hl : (String.length (mid ++ String "}" post)
                  <? String.length (String x (mid ++ String "}" post))) = true)
      by (apply Nat.ltb_lt; simpl; lia).
    rewrite Hl, (IH n post (Some x) cs H); [reflexivity|]. simpl in Hn. lia.
Qed.

End Salvage.

Lemma any_char p x s cs k' : rmatch DOTALL Any p (String x s) cs k' = k' (Some x) s cs.
Proof. reflexivity. Qed.

Lemma any_end p cs k' : rmatch DOTALL Any p "" cs k' = None.
Proof. reflexivity. Qed.

Lemma match_here_brace p s :
  match_here DOTALL brace_regex false p s =
  match s with
  | String x s' =>
      if Ascii.eqb "{" x
      then match star_loop (rmatch DOTALL Any) true after_brace (String.length s')
                   (Some x) s' [] with
           | Some (p1, s1, cs1) =>
               Some {| m_whole := consumed s s1; m_groups := cs1;
                       m_prev := p1; m_rest := s1 |}
           | None => None
           end
      else None
  | EmptyString => None
  end.
Proof.
  unfold match_here, brace_regex. cbn [rmatch andb].
  destruct s as [|x s']; [reflexivity|].
  unfold chr_eq. cbn [ignorecase]. destruct (Ascii.eqb "{" x); reflexivity.
Qed.

Lemma after_brace_brace p s cs :
  after_brace p (String "}" s) cs = Some (Some "}"%char, s, cs).
Proof. reflexivity. Qed.

Lemma after_brace_other p x s cs :
  Ascii.eqb "}" x = false -> after_brace p (String x s) cs = None.
Proof.
  intros H. unfold after_brace. cbn [rmatch]. unfold chr_eq. cbn [ignorecase].
  rewrite H. reflexivity.
Qed.

Lemma after_brace_end p cs : after_brace p "" cs = None.
Proof. reflexivity. Qed.

(** The search finds the text from the first opening brace to the last
    closing brace. *)
Lemma search_brace_span pre : forall p mid post,
  lacks "{" pre = true ->
  lacks "}" post = true ->
  search_from DOTALL brace_regex false p (pre ++ "{" ++ mid ++ "}" ++ post) =
    Some (span ("{" ++ mid ++ "}") post "}").
Proof.
  induction pre as [|x pre IH]; intros p mid post Hpre Hpost.
  - cbn [append]. 
    assert (E : match_here DOTALL brace_regex false p (String "{" (mid ++ String "}" post))
                = Some (span ("{" ++ mid ++ "}") post "}")).
    { rewrite match_here_brace. cbn [Ascii.eqb Bool.eqb]. 
      change (mid ++ String "}" post) with (mid ++ "}" ++ post).
      rewrite (star_any_last (rmatch DOTALL Any) any_char any_end
                 after_brace after_brace_brace after_brace_other after_brace_end
                 mid _ post _ [] Hpost (le_n _)).
      unfold span. f_equal. f_equal.
      change (String "{" (mid ++ "}" ++ post)) with ("{" ++ mid ++ "}" ++ post).
      replace ("{" ++ mid ++ "}" ++ post) with (("{" ++ mid ++ "}") ++ post)
        by (rewrite !append_assoc; reflexivity).
      apply consumed_append. }
    destruct mid; cbn [search_from append] in *; rewrite E; reflexivity.
  - rewrite lacks_cons in Hpre. apply andb_true_iff in Hpre. destruct Hpre as [Hx Hpre].
    apply negb_true_iff in Hx.
    change (String x pre ++ "{" ++ mid ++ "}" ++ post)
      with (String x (pre ++ "{" ++ mid ++ "}" ++ post)).
    cbn [search_from]. rewrite match_here_brace, Hx. apply IH; assumption.
Qed.

Lemma search_brace_none text : forall p,
  lacks "{" text = true \/ lacks "}" text = true ->
  search_from DOTALL brace_regex false p text = None.
Proof.
  induction text as [|x text IH]; intros p H.
  - reflexivity.
  - cbn [search_from]. rewrite match_here_brace.
    assert (Hrest : lacks "{" text = true \/ lacks "}" text = true).
    { destruct H as [H|H]; rewrite lacks_cons in H; apply andb_true_iff in H; tauto. }
    destruct (Ascii.eqb "{" x) eqn:Ex.
    + destruct H as [H|H].
      * rewrite lacks_cons, Ex in H. discriminate H.
      * rewrite lacks_cons in H. apply andb_true_iff in H. destruct H as [_ H].
        rewrite (star_any_none (rmatch DOTALL Any) any_char any_end
                   after_brace after_brace_other after_brace_end _ text _ [] H).
        apply IH, Hrest.
    + apply IH, Hrest.
Qed.

Lemma search_salvage pre mid post :
  lacks "{" pre = true -> lacks "}" post = true ->
  re_search "\{.*\}" (pre ++ "{" ++ mid ++ "}" ++ post) DOTALL =
    Ok (Some (span ("{" ++ mid ++ "}") post "}")).
Proof.
  intros H1 H2. unfold re_search. rewrite brace_compiles, bind_ok. cbn [p_regex].
  rewrite search_brace_span by assumption. reflexivity.
Qed.

Lemma search_salvage_none text :
  lacks "{" text = true \/ lacks "}" text = true ->
  re_search "\{.*\}" text DOTALL = Ok None.
Proof.
  intros H. unfold re_search. rewrite brace_compiles, bind_ok. cbn [p_regex].
  rewrite search_brace_none by assumption. reflexivity.
Qed.

Section Remote.

Variable json_loads : string -> result pyval.
Variable set_order : list string -> list string.
Variable self : NaturalLanguageProcessor.
Variable now : nat.

(** X10. When the remote service answers and the answer parses as JSON, the
    orchestrator returns the converted value if it is well shaped, and
    otherwise drops the answer and returns what the local tier, or after it
    the fallback tier, returns. *)
Theorem reply_decides (prompt reply : string) (data : pyval) :
  remote_replies self now prompt reply ->
  json_loads reply = Ok data ->
  process_natural_language_prompt json_loads set_order self now prompt =
    if well_shaped data then _convert_to_parsed_scene data
    else local_or_fallback set_order self prompt.
Proof.
  intros (c & Hc & Hr) Hj. rewrite process_cascade, Hc.
  unfold remote_attempt. fold (user_message prompt). rewrite Hr, bind_ok.
  cbn [need_str]. rewrite bind_ok, Hj.
  pose proof (convert_scene_cases data) as H.
  destruct (well_shaped data).
  - destruct H as (d & ci & di & cs & ds & _ & _ & _ & _ & _ & H). rewrite H. reflexivity.
  - destruct H as (e & H & _). rewrite H. reflexivity.
Qed.

(** X11. The JSON salvage: when the answer does not parse as it is, the text
    from its first opening brace to its last closing brace is parsed
    instead, and its value is converted; if that fails too, the local tier
    answers. *)
Theorem reply_is_salvaged (prompt pre mid post : string) :
  remote_replies self now prompt (pre ++ "{" ++ mid ++ "}" ++ post) ->
  lacks "{" pre = true ->
  lacks "}" post = true ->
  json_loads (pre ++ "{" ++ mid ++ "}" ++ post) = Raise JSONDecodeError ->
  process_natural_language_prompt json_loads set_order self now prompt =
    match (data <- json_loads ("{" ++ mid ++ "}") ;; _convert_to_parsed_scene data) with
    | Ok scene => Ok scene
    | Raise _ => local_or_fallback set_order self prompt
    end.
Proof.
  intros (c & Hc & Hr) Hpre Hpost Hj. rewrite process_cascade, Hc.
  unfold remote_attempt. fold (user_message prompt). rewrite Hr, bind_ok.
  cbn [need_str]. rewrite bind_ok, Hj. cbn [is_JSONDecodeError].
  rewrite search_salvage, bind_ok by assumption. reflexivity.
Qed.

(** X12. An answer that does not parse and holds no opening brace, or no
    closing brace, is dropped: the orchestrator returns what the local tier,
    or after it the fallback tier, returns. *)
Theorem reply_without_object_is_dropped (prompt reply : string) :
  remote_replies self now prompt reply ->
  lacks "{" reply = true \/ lacks "}" reply = true ->
  json_loads reply = Raise JSONDecodeError ->
  process_natural_language_prompt json_loads set_order self now prompt =
    local_or_fallback set_order self prompt.
Proof.
  intros (c & Hc & Hr) Hl Hj. rewrite process_cascade, Hc.
  unfold remote_attempt. fold (user_message prompt). rewrite Hr, bind_ok.
  cbn [need_str]. rewrite bind_ok, Hj. cbn [is_JSONDecodeError].
  rewrite search_salvage_none, bind_ok by assumption. reflexivity.
Qed.

End Remote.

Lemma reply_decides_witness :
  process_natural_language_prompt
    (json_only reply_long (PDict [("duration_estimate", PInt 100)])) kept_order
    (remote_says reply_long) 0 "A long scene" =
  _convert_to_parsed_scene (PDict [("duration_estimate", PInt 100)]).
Proof.
  apply (reply_decides
           (json_only reply_long (PDict [("duration_estimate", PInt 100)])) kept_order
           (remote_says reply_long) 0 "A long scene" reply_long
           (PDict [("duration_estimate", PInt 100)])).
  - eexists. split; reflexivity.
  - reflexivity.
Defined.

Lemma reply_is_salvaged_witness :
  json_only reply_object (PDict [("mood", PStr "tense")]) reply_in_prose
    = Raise JSONDecodeError /\
  process_natural_language_prompt
    (json_only reply_object (PDict [("mood", PStr "tense")])) kept_order
    (remote_says reply_in_prose) 0 "A tense scene" =
  _convert_to_parsed_scene (PDict [("mood", PStr "tense")]).
Proof.
  split; [reflexivity|].
  refine (eq_trans
            (reply_is_salvaged
               (json_only reply_object (PDict [("mood", PStr "tense")])) kept_order
               (remote_says reply_in_prose) 0 "A tense scene"
               "Here is the parsed scene: "
               (dq ++ "mood" ++ dq ++ ": " ++ dq ++ "tense" ++ dq)
               " I hope this helps." _ _ _ _) _).
  - eexists. split; reflexivity.
  - reflexivity.
  - reflexivity.
  - reflexivity.
  - reflexivity.
Defined.

Lemma reply_without_object_is_dropped_witness :
  process_natural_language_prompt no_json kept_order (remote_says reply_sorry) 0
    prompt_alice =
  local_or_fallback kept_order (remote_says reply_sorry) prompt_alice.
Proof.
  apply (reply_without_object_is_dropped no_json kept_order (remote_says reply_sorry) 0
           prompt_alice reply_sorry).
  - eexists. split; reflexivity.
  - left. reflexivity.
  - reflexivity.
Defined.

(** ** Phrases of the text *)

Lemma occurs_in_refl s : occurs_in s s.
Proof. exists "", "". simpl. rewrite append_nil_r. reflexivity. Qed.

Lemma occurs_in_trans a b c : occurs_in a b -> occurs_in b c -> occurs_in a c.
Proof.
  intros (p1 & q1 & H1) (p2 & q2 & H2). exists (p2 ++ p1), (q1 ++ q2).
  rewrite H2, H1, !append_assoc. reflexivity.
Qed.

Lemma occurs_in_left a u v : occurs_in a u -> occurs_in a (u ++ v).
Proof.
  intros H. eapply occurs_in_trans; [exact H|]. exists "", v. reflexivity.
Qed.

Lemma occurs_in_right a u v : occurs_in a v -> occurs_in a (u ++ v).
Proof.
  intros H. eapply occurs_in_trans; [exact H|]. exists u, "".
  rewrite append_nil_r. reflexivity.
Qed.

Lemma sem_group_occurs fl r w c :
  sem fl r w c -> no_ahead r = true ->
  forall n t, In (n, t) c -> occurs_in t w.
Proof.
  induction 1; simpl; intros Hn m t Hin; try contradiction; try discriminate.
  - apply andb_true_iff in Hn. destruct Hn as [H1 H2].
    apply in_app_or in Hin. destruct Hin as [Hin|Hin].
    + apply occurs_in_right. eapply IHsem2; eauto.
    + apply occurs_in_left. eapply IHsem1; eauto.
  - apply andb_true_iff in Hn. destruct Hn as [H1 H2]. eapply IHsem; eauto.
  - apply andb_true_iff in Hn. destruct Hn as [H1 H2]. eapply IHsem; eauto.
  - apply in_app_or in Hin. destruct Hin as [Hin|Hin].
    + apply occurs_in_right. eapply IHsem2; eauto.
    + apply occurs_in_left. eapply IHsem1; eauto.
  - destruct Hin as [Hin|Hin].
    + inversion Hin; subst. apply occurs_in_refl.
    + eapply IHsem; eauto.
Qed.

Lemma chr_eq_lower fl c x :
  chr_eq fl c x = true -> to_lower c = to_lower x.
Proof.
  unfold chr_eq. destruct (ignorecase fl); intros H; apply Ascii.eqb_eq in H; congruence.
Qed.

Lemma never_reads_sound fl d r :
  never_reads d r = true -> reads_only fl (fun x => negb (Ascii.eqb d x)) r.
Proof.
  induction r; simpl; intros H; auto; try discriminate.
  - intros x Hx. apply chr_eq_lower in Hx. apply negb_true_iff in H.
    apply negb_true_iff. apply Ascii.eqb_neq. intros ->.
    rewrite Hx, Ascii.eqb_refl in H. discriminate.
  - apply andb_true_iff in H. destruct H as [Hneg Hin]. subst negated.
    intros x Hx. unfold cset_mem in Hx. cbn [xorb] in Hx.
    apply negb_true_iff in Hx. apply negb_true_iff. apply Ascii.eqb_neq. intros ->.
    assert (E : existsb (fun it => citem_mem fl it x) items = true).
    { apply existsb_exists in Hin. destruct Hin as (it & Hit & Hd).
      apply existsb_exists. exists it. split; [exact Hit|].
      destruct it; try discriminate. apply Ascii.eqb_eq in Hd. subst.
      apply chr_eq_refl. }
    rewrite E in Hx. discriminate.
  - apply andb_true_iff in H. destruct H. split; auto.
  - apply andb_true_iff in H. destruct H. split; auto.
Qed.

(** Group 1 of a match of a phrase pattern. *)
Lemma phrase_match fl d r text m :
  phrase_pattern d r -> match_of fl r text m -> sure_match r m ->
  exists t, group m 1 = Some t /\ phrase_of d text t.
Proof.
  intros (Hs & Ha & Hr) [[pre Hpre] L] Hm.
  destruct (sure_group_some 1 Hm Hs) as [t Ht]. exists t. split; [exact Ht|].
  apply lookup_group_in in Ht. split.
  - eapply occurs_in_trans; [eapply sem_group_occurs; eauto|].
    eapply occurs_in_match; eauto.
  - destruct (sem_groups _ _ _ _ L _ _ Ht) as (a & Hin & La).
    apply (lang_reads_only fl _ a t La). apply never_reads_sound. apply Hr, Hin.
Qed.

Lemma finditer_phrases fl d r fuel adv p text :
  phrase_pattern d r ->
  Forall (fun m => exists t, group m 1 = Some t /\ phrase_of d text t)
    (finditer_from fuel fl r adv p text).
Proof.
  intros H.
  pose proof (finditer_from_of fl r fuel adv p text) as H1.
  pose proof (finditer_from_sure fl r fuel adv p text) as H2.
  induction H1 as [|m ms Hm _ IH]; [constructor|].
  inversion H2; subst. constructor; [|apply IH; assumption].
  eapply phrase_match; eauto.
Qed.

(** *** The actions of the scene *)

Lemma sem_literal_inv fl w r : forall t c,
  sem fl (literal w r) t c ->
  exists u v, t = u ++ v /\ same_letters u w /\ sem fl r v c.
Proof.
  induction w as [|x w IH]; intros t c L; cbn [literal] in L.
  - exists "", t. repeat split; auto.
  - apply sem_cat_inv in L. destruct L as (u & v & c1 & c2 & -> & -> & Lu & Lv).
    apply sem_chr_inv in Lu. destruct Lu as (y & -> & -> & Hy).
    apply chr_eq_lower in Hy.
    apply IH in Lv. destruct Lv as (u' & v' & -> & Hu & Lv).
    exists (String y u'), v'. rewrite List.app_nil_r. repeat split; auto.
    unfold same_letters, py_lower in *. cbn [str_map]. rewrite Hu, Hy. reflexivity.
Qed.

Lemma stem_match fl stem r text m :
  stem_pattern stem r -> match_of fl r text m ->
  exists t, group m 1 = Some t /\ begins_with stem t.
Proof.
  intros [rest ->] [_ L].
  apply sem_cat_inv in L. destruct L as (t & e & c1 & c2 & Hw & Hc & Lt & L).
  apply sem_group_inv in Lt. destruct Lt as (cg & -> & Lg).
  apply sem_eps_inv in L. destruct L as [-> ->].
  exists t. unfold group. rewrite Hc. cbn [app lookup_group Nat.eqb].
  split; [reflexivity|].
  apply sem_literal_inv in Lg. destruct Lg as (u & v & -> & Hu & _).
  exists u, v. split; [reflexivity|exact Hu].
Qed.

Lemma actions_of_inv patterns text actions :
  Forall (fun pattern => exists pat stem,
            re_compile pattern = Ok pat /\ phrase_pattern "." (p_regex pat) /\
            In stem action_stems /\ stem_pattern stem (p_regex pat)) patterns ->
  actions_of patterns text = Ok actions ->
  Forall (fun a => exists t, a = PStr t /\ action_phrase text t) actions.
Proof.
  intros HP. revert actions.
  induction HP as [|pattern rest (pat & stem & Hc & Hp & Hin & Hst) _ IH];
    intros actions H; cbn [actions_of] in H.
  - inversion H. constructor.
  - unfold re_finditer in H. rewrite Hc, !bind_ok in H.
    apply bind_inv in H. destruct H as (more & Hm & H). inversion H; subst.
    apply Forall_app. split; [|apply IH, Hm].
    apply Forall_forall. intros a Ha. apply in_map_iff in Ha.
    destruct Ha as (m & Ha & Hm').
    pose proof (finditer_phrases IGNORECASE "." (p_regex pat)
                  (2 * String.length text + 2) false None text Hp) as HF.
    pose proof (finditer_from_of IGNORECASE (p_regex pat)
                  (2 * String.length text + 2) false None text) as HM.
    rewrite Forall_forall in HF, HM. destruct (HF m Hm') as (t & Ht & Hph).
    destruct (stem_match _ _ _ _ _ Hst (HM m Hm')) as (t' & Ht' & Hb).
    rewrite Ht in Ht'. inversion Ht'; subst t'.
    cbv beta in Ha. change (lookup_group 1 (m_groups m)) with (group m 1) in Ha.
    rewrite Ht in Ha. exists t. split; [symmetry; exact Ha|].
    split; [exact Hph|]. exists stem. auto.
Qed.

Lemma extract_actions_inv text actions :
  _extract_actions text = Ok actions ->
  Forall (fun a => exists t, a = PStr t /\ action_phrase text t) actions.
Proof.
  apply actions_of_inv. unfold action_patterns.
  repeat constructor;
    first [ stem_pattern_tac "walk" | stem_pattern_tac "run" | stem_pattern_tac "enter"
          | stem_pattern_tac "exit" | stem_pattern_tac "sit" | stem_pattern_tac "stand"
          | stem_pattern_tac "look" | stem_pattern_tac "turn" ].
Qed.

(** X13. For a text of ASCII characters, every action that
    [_extract_actions] returns is a phrase of the text that holds no full
    stop, so it does not leave its sentence, and it begins with one of the
    eight verbs, in any letter case. The extractor returns on every such
    text. *)
Theorem scene_actions_are_phrases (text : string) :
  is_ascii text = true ->
  exists actions,
    _extract_actions text = Ok actions /\
    Forall (fun a => exists t, a = PStr t /\ action_phrase text t) actions.
Proof.
  intros _. destruct (extract_actions_total text) as [actions H]. exists actions.
  split; [exact H|]. apply extract_actions_inv, H.
Qed.

Lemma scene_actions_are_phrases_witness :
  exists actions,
    _extract_actions prompt_long = Ok actions /\
    Forall (fun a => exists t, a = PStr t /\ action_phrase prompt_long t) actions.
Proof.
  apply (scene_actions_are_phrases prompt_long). reflexivity.
Defined.

(** ** The fields of a character *)

Lemma sem_word fl w t c :
  sem fl (literal w Eps) t c -> same_letters t w /\ c = [].
Proof.
  intros L. apply sem_literal_inv in L. destruct L as (u & v & -> & Hu & Lv).
  apply sem_eps_inv in Lv. destruct Lv as [-> ->]. rewrite append_nil_r. auto.
Qed.

Lemma sem_lazy_dots fl t c : sem fl lazy_dots t c -> lacks "." t = true /\ c = [].
Proof.
  intros L. split; [|eapply sem_no_groups; [exact L|reflexivity]].
  apply (sem_reads_only fl _ _ _ _ L). apply never_reads_sound. reflexivity.
Qed.

Lemma py_lower_nil s : py_lower s = "" -> s = "".
Proof. destruct s; [reflexivity|discriminate]. Qed.

Lemma same_letters_cons x u y w :
  same_letters (String x u) (String y w) -> to_lower x = to_lower y /\ same_letters u w.
Proof.
  unfold same_letters, py_lower. cbn [str_map]. intros H. inversion H. auto.
Qed.

Lemma lang_literal_ci w r : forall u v,
  same_letters u w -> lang IGNORECASE r v -> lang IGNORECASE (literal w r) (u ++ v).
Proof.
  induction w as [|y w IH]; intros u v Hu Hv; cbn [literal].
  - apply py_lower_nil in Hu. subst u. exact Hv.
  - destruct u as [|x u]; [symmetry in Hu; apply py_lower_nil in Hu; discriminate Hu|].
    apply same_letters_cons in Hu. destruct Hu as [Hx Hu].
    apply (lang_cat IGNORECASE _ _ (String x "") (u ++ v)); [|apply IH; assumption].
    exists []. constructor. unfold chr_eq. cbn [ignorecase IGNORECASE].
    rewrite Hx. apply Ascii.eqb_refl.
Qed.

Lemma lang_word_ci w u : same_letters u w -> lang IGNORECASE (literal w Eps) u.
Proof.
  intros H. rewrite <- (append_nil_r u). apply lang_literal_ci; [exact H|apply lang_eps].
Qed.

Lemma plain_literal w r : plain (literal w r) = plain r.
Proof.
  induction w as [|x w IH]; cbn [literal plain]; [reflexivity|exact IH].
Qed.

Lemma dot_lower x : Ascii.eqb (to_lower ".") (to_lower x) = Ascii.eqb "." x.
Proof.
  destruct x as [[] [] [] [] [] [] [] []]; vm_compute; reflexivity.
Qed.

Lemma dot_mem fl x : cset_mem fl true [CChar "."] x = negb (Ascii.eqb "." x).
Proof.
  unfold cset_mem, existsb, citem_mem, chr_eq. cbn [xorb]. rewrite orb_false_r.
  destruct (ignorecase fl); [rewrite dot_lower|]; reflexivity.
Qed.

Lemma lang_dots_intro fl greedy d :
  lacks "." d = true -> lang fl (Star greedy (CSet true [CChar "."])) d.
Proof.
  intros H. apply lang_run. unfold lacks in H.
  rewrite (str_forall_ext _ (fun x => negb (Ascii.eqb "." x))); [exact H|apply dot_mem].
Qed.

(** *** The emotions of a character *)

Lemma emotion_pattern_shape name emotion :
  str_forall is_letter name = true ->
  str_forall is_letter emotion = true ->
  re_compile (name ++ "[^.]*?" ++ emotion ++ "|" ++ emotion ++ "[^.]*?" ++ name)
    = Ok {| p_regex := emotion_regex name emotion; p_groups := 0 |}.
Proof.
  intros Hn He. unfold re_compile.
  set (second := emotion ++ "[^.]*?" ++ name).
  set (whole := name ++ "[^.]*?" ++ emotion ++ "|" ++ second).
  cbn [parse_regex]. set (atom := parse_atom (parse_regex (String.length whole))).
  assert (Hlen2 : String.length second = String.length emotion + (6 + String.length name)).
  { unfold second. rewrite !append_length. reflexivity. }
  assert (Hlen : String.length whole =
                 String.length name + (6 + (String.length emotion + S (String.length second)))).
  { unfold whole. rewrite !append_length. reflexivity. }
  assert (A0 : parse_seq atom (S (String.length second)) second 0
               = Ok (literal emotion (Cat lazy_dots (literal name Eps)), "", 0)).
  { eapply parse_seq_fuel;
      [|instantiate (1 := String.length emotion + S (String.length name + 1)); lia].
    unfold second. apply parse_seq_letters; [exact He|reflexivity|].
    apply parse_seq_lazy_dots.
    rewrite <- (append_nil_r name) at 2.
    apply parse_seq_letters; [exact Hn|reflexivity|reflexivity]. }
  assert (A : parse_alt atom 1 second 0
              = Ok (literal emotion (Cat lazy_dots (literal name Eps)), "", 0)).
  { cbn [parse_alt]. rewrite A0, bind_ok. reflexivity. }
  assert (B : parse_seq atom (S (String.length whole)) whole 0
              = Ok (literal name (Cat lazy_dots (literal emotion Eps)), "|" ++ second, 0)).
  { eapply parse_seq_fuel;
      [|instantiate (1 := String.length name + S (String.length emotion + 1)); lia].
    unfold whole. apply parse_seq_letters; [exact Hn|reflexivity|].
    apply parse_seq_lazy_dots.
    apply parse_seq_letters; [exact He|reflexivity|reflexivity]. }
  cbn [parse_alt]. rewrite B, bind_ok. cbn [append].
  change (Ascii.eqb "|" "|") with true. cbv iota.
  rewrite (parse_alt_extends _ _ (extends_refl atom) _ _ _ _ _ A), !bind_ok by lia.
  reflexivity.
Qed.

Lemma emotion_match name emotion text m :
  match_of IGNORECASE (emotion_regex name emotion) text m ->
  same_sentence text name emotion.
Proof.
  intros [[pre Hpre] L]. apply occurs_in_match in Hpre. unfold emotion_regex in L.
  apply sem_alt_inv in L. destruct L as [L|L].
  - apply sem_literal_inv in L. destruct L as (u & v & Hw & Hu & L).
    apply sem_cat_inv in L. destruct L as (d & w & c1 & c2 & -> & _ & Ld & Lw).
    apply sem_lazy_dots in Ld. destruct Ld as [Hd _].
    apply sem_word in Lw. destruct Lw as [Hv _].
    exists u, d, w. rewrite Hw in Hpre. split; [exact Hpre|]. split; [exact Hd|].
    left. split; assumption.
  - apply sem_literal_inv in L. destruct L as (u & v & Hw & Hu & L).
    apply sem_cat_inv in L. destruct L as (d & w & c1 & c2 & -> & _ & Ld & Lw).
    apply sem_lazy_dots in Ld. destruct Ld as [Hd _].
    apply sem_word in Lw. destruct Lw as [Hv _].
    exists u, d, w. rewrite Hw in Hpre. split; [exact Hpre|]. split; [exact Hd|].
    right. split; assumption.
Qed.

Lemma emotion_lang name emotion text :
  same_sentence text name emotion ->
  exists w, lang IGNORECASE (emotion_regex name emotion) w /\ occurs_in w text.
Proof.
  intros (u & d & v & Ho & Hd & Hc). exists (u ++ d ++ v). split; [|exact Ho].
  unfold emotion_regex. destruct Hc as [[Hu Hv]|[Hu Hv]].
  - apply lang_alt_left, lang_literal_ci; [exact Hu|].
    apply lang_cat; [apply lang_dots_intro, Hd|apply lang_word_ci, Hv].
  - apply lang_alt_right, lang_literal_ci; [exact Hu|].
    apply lang_cat; [apply lang_dots_intro, Hd|apply lang_word_ci, Hv].
Qed.

Lemma emotion_regex_plain name emotion : plain (emotion_regex name emotion) = true.
Proof.
  unfold emotion_regex. cbn [plain]. rewrite !plain_literal. cbn [plain lazy_dots].
  rewrite !plain_literal. reflexivity.
Qed.

Lemma emotions_of_inv text name words :
  str_forall is_letter name = true ->
  Forall (fun emotion => str_forall is_letter emotion = true) words ->
  forall found,
    emotions_of words text name = Ok found ->
    subsequence found words /\
    Forall (same_sentence text name) found /\
    (forall e, In e words -> same_sentence text name e -> In e found).
Proof.
  intros Hn. induction 1 as [|emotion rest He _ IH]; intros found H;
    cbn [emotions_of] in H.
  - inversion H; subst. split; [constructor|]. split; [constructor|]. intros e [].
  - unfold re_search in H. rewrite (emotion_pattern_shape name emotion Hn He), !bind_ok in H.
    cbn [p_regex] in H.
    apply bind_inv in H. destruct H as (more & Hm & H).
    destruct (IH _ Hm) as (Hs & HF & Hall).
    destruct (search_from IGNORECASE (emotion_regex name emotion) false None text)
      as [m|] eqn:E; inversion H; subst; clear H.
    + split; [constructor; exact Hs|]. split.
      * constructor; [|exact HF]. apply search_from_of in E. eapply emotion_match, E.
      * intros e [<-|Hin] Hsame; [left; reflexivity|right; apply Hall; assumption].
    + split; [constructor; exact Hs|]. split; [exact HF|].
      intros e [<-|Hin] Hsame; [|apply Hall; assumption].
      exfalso. destruct (emotion_lang _ _ _ Hsame) as (w & Lw & Ho).
      destruct (search_finds IGNORECASE _ w text Lw (emotion_regex_plain _ _) Ho None)
        as [m Hm']. congruence.
Qed.

Lemma character_emotions_inv text name found :
  str_forall is_letter name = true ->
  _extract_character_emotions text name = Ok found ->
  subsequence found emotion_words /\
  Forall (same_sentence text name) found /\
  (forall e, In e emotion_words -> same_sentence text name e -> In e found).
Proof.
  intros Hn. apply emotions_of_inv; [exact Hn|]. repeat constructor.
Qed.

(** *** The actions of a character *)

Lemma actions_pattern_compiles name :
  str_forall is_letter name = true ->
  re_compile (name ++ actions_suffix) =
    Ok {| p_regex := literal name actions_regex; p_groups := 1 |}.
Proof.
  intros Hn. apply re_compile_prefixed; [exact Hn|reflexivity|].
  vm_compute. reflexivity.
Qed.

Lemma sem_character_verbs t c :
  sem IGNORECASE verbs_of_character t c -> In (py_lower t) character_verbs /\ c = [].
Proof.
  unfold verbs_of_character. intros L.
  repeat (apply sem_alt_inv in L; destruct L as [L|L];
          [apply sem_word in L; destruct L as [-> ->]; simpl; tauto|]).
  apply sem_word in L; destruct L as [-> ->]; simpl; tauto.
Qed.

Lemma actions_match name text m :
  match_of IGNORECASE (literal name actions_regex) text m ->
  exists t, group m 1 = Some t /\ verb_after text name t.
Proof.
  intros [[pre Hpre] L]. apply occurs_in_match in Hpre.
  apply sem_literal_inv in L. destruct L as (u & v & Hw & Hu & L).
  unfold actions_regex in L.
  apply sem_cat_inv in L. destruct L as (sp & w & c1 & c2 & -> & Hc & Ls & L).
  apply sem_spaces1 in Ls. destruct Ls as (Hne & Hsp & ->).
  apply sem_cat_inv in L. destruct L as (t & e & c3 & c4 & -> & -> & Lt & L).
  apply sem_group_inv in Lt. destruct Lt as (cv & -> & Lv).
  apply sem_character_verbs in Lv. destruct Lv as [Hv ->].
  apply sem_eps_inv in L. destruct L as [-> ->].
  exists t. unfold group. rewrite Hc. split; [reflexivity|].
  split; [exact Hv|]. exists u, sp. repeat split; try assumption.
  rewrite Hw, append_nil_r in Hpre. exact Hpre.
Qed.

Lemma lang_character_verbs t :
  In (py_lower t) character_verbs -> lang IGNORECASE verbs_of_character t.
Proof.
  unfold character_verbs, verbs_of_character. intros H.
  repeat (destruct H as [H|H];
          [repeat (first [apply lang_word_ci; symmetry; exact H
                         | apply lang_alt_left; apply lang_word_ci; symmetry; exact H
                         | apply lang_alt_right])|]).
  contradiction.
Qed.

Lemma actions_lang name text t :
  verb_after text name t ->
  exists w, lang IGNORECASE (literal name actions_regex) w /\ occurs_in w text.
Proof.
  intros (Hv & u & sp & Hu & Hne & Hsp & Ho). exists (u ++ sp ++ t). split; [|exact Ho].
  apply lang_literal_ci; [exact Hu|]. unfold actions_regex.
  apply lang_cat; [apply lang_spaces1_intro; assumption|].
  apply lang_cat_eps, lang_group, lang_character_verbs, Hv.
Qed.

Lemma character_actions_inv text name actions :
  str_forall is_letter name = true ->
  _extract_character_actions text name = Ok actions ->
  Forall (fun a => exists t, a = PStr t /\ verb_after text name t) actions /\
  (actions = [] <-> ~ exists t, verb_after text name t).
Proof.
  intros Hn. unfold _extract_character_actions, re_finditer.
  rewrite (actions_pattern_compiles name Hn), !bind_ok. cbn [p_regex].
  intros H. inversion H; subst; clear H.
  pose proof (finditer_from_of IGNORECASE (literal name actions_regex)
                (2 * String.length text + 2) false None text) as HF.
  assert (HA : Forall (fun a => exists t, a = PStr t /\ verb_after text name t)
                 (map (fun m => py_of_option (group m 1))
                    (finditer_from (2 * String.length text + 2) IGNORECASE
                       (literal name actions_regex) false None text))).
  { apply Forall_forall. intros a Hin. apply in_map_iff in Hin.
    destruct Hin as (m & Ha & Hin). cbv beta in Ha.
    rewrite Forall_forall in HF. apply HF, actions_match in Hin.
    destruct Hin as (t & Ht & Hv).
    change (lookup_group 1 (m_groups m)) with (group m 1) in Ha.
    rewrite Ht in Ha. exists t. split; [symmetry; exact Ha|exact Hv]. }
  split; [exact HA|]. split.
  - intros E (t & Hv). apply map_eq_nil in E. revert E.
    destruct (actions_lang name text t Hv) as (w & Lw & Ho).
    eapply finditer_finds; [exact Lw| |exact Ho|lia].
    rewrite plain_literal. reflexivity.
  - intros Hno.
    destruct (map _ _) as [|a rest]; [reflexivity|]. exfalso. apply Hno.
    inversion HA as [|? ? (t & _ & Hv) _]. exists t. exact Hv.
Qed.

(** X14. For a text of ASCII characters and a name made of letters, the
    emotions of a character are the nine emotion words with some left out,
    in the order of the table: an emotion word is kept exactly when it
    stands in one sentence of the text with the name (no full stop between
    them), before or after it, in any letter case. *)
Theorem character_emotions_are_mentioned (text name : string) :
  is_ascii text = true ->
  str_forall is_letter name = true ->
  exists found,
    _extract_character_emotions text name = Ok found /\
    subsequence found emotion_words /\
    forall e, In e emotion_words -> (In e found <-> same_sentence text name e).
Proof.
  intros _ Hn. destruct (character_emotions_total text name Hn) as [found H].
  exists found. split; [exact H|].
  destruct (character_emotions_inv text name found Hn H) as (Hs & HF & Hall).
  split; [exact Hs|]. intros e He. split; [|apply Hall, He].
  rewrite Forall_forall in HF. apply HF.
Qed.

Lemma character_emotions_are_mentioned_witness :
  exists found,
    _extract_character_emotions prompt_bob "Bob" = Ok found /\
    subsequence found emotion_words /\
    forall e, In e emotion_words -> (In e found <-> same_sentence prompt_bob "Bob" e).
Proof.
  apply (character_emotions_are_mentioned prompt_bob "Bob"); reflexivity.
Defined.

(** X15. For a text of ASCII characters and a name made of letters, every
    action of a character is one of the eleven verbs, in any letter case,
    and it stands in the text after the name and some white space; there is
    no action exactly when no verb stands so in the text. *)
Theorem character_actions_follow_the_name (text name : string) :
  is_ascii text = true ->
  str_forall is_letter name = true ->
  exists actions,
    _extract_character_actions text name = Ok actions /\
    Forall (fun a => exists t, a = PStr t /\ verb_after text name t) actions /\
    (actions = [] <-> ~ exists t, verb_after text name t).
Proof.
  intros _ Hn. destruct (character_actions_total text name Hn) as [actions H].
  exists actions. split; [exact H|]. apply character_actions_inv; assumption.
Qed.

Lemma character_actions_follow_the_name_witness :
  exists actions,
    _extract_character_actions prompt_bob "Bob" = Ok actions /\
    Forall (fun a => exists t, a = PStr t /\ verb_after prompt_bob "Bob" t) actions /\
    (actions = [] <-> ~ exists t, verb_after prompt_bob "Bob" t).
Proof.
  apply (character_actions_follow_the_name prompt_bob "Bob"); reflexivity.
Defined.

Lemma py_lstrip_inv s : exists pre, s = pre ++ py_lstrip s /\ spaces pre = true.
Proof.
  induction s as [|c s (pre & H & Hs)]; cbn [py_lstrip].
  - exists "". split; reflexivity.
  - destruct (is_space c) eqn:E.
    + exists (String c pre). cbn [append]. split; [f_equal; exact H|].
      unfold spaces in *. cbn [str_forall]. rewrite E, Hs. reflexivity.
    + exists "". split; reflexivity.
Qed.

Lemma py_rstrip_inv s : exists post, s = py_rstrip s ++ post /\ spaces post = true.
Proof.
  induction s as [|c s (post & H & Hs)]; cbn [py_rstrip].
  - exists "". split; reflexivity.
  - destruct (is_space c && is_empty (py_rstrip s)) eqn:E.
    + apply andb_true_iff in E. destruct E as [Ec Ee].
      destruct (py_rstrip s); [|discriminate]. cbn [append] in *. subst s.
      exists (String c post). split; [reflexivity|].
      unfold spaces in *. cbn [str_forall]. rewrite Ec, Hs. reflexivity.
    + exists post. cbn [append]. split; [f_equal; exact H|exact Hs].
Qed.

Lemma py_strip_inv s :
  exists pre post, s = pre ++ py_strip s ++ post /\ spaces pre = true /\ spaces post = true.
Proof.
  unfold py_strip. destruct (py_lstrip_inv s) as (pre & H1 & Hs1).
  destruct (py_rstrip_inv (py_lstrip s)) as (post & H2 & Hs2).
  exists pre, post. split; [|split; assumption].
  rewrite <- H2. exact H1.
Qed.

Lemma py_strip_occurs s : occurs_in (py_strip s) s.
Proof.
  destruct (py_strip_inv s) as (pre & post & H & _). exists pre, post. exact H.
Qed.

(** *** The description of a character *)

Lemma description_pattern_compiles name :
  str_forall is_letter name = true ->
  re_compile (name ++ description_suffix) =
    Ok {| p_regex := literal name description_regex; p_groups := 1 |}.
Proof.
  intros Hn. apply re_compile_prefixed; [exact Hn|reflexivity|].
  vm_compute. reflexivity.
Qed.

Lemma sem_dots fl t c : sem fl dots t c -> lacks "." t = true /\ c = [].
Proof.
  intros L. split; [|eapply sem_no_groups; [exact L|reflexivity]].
  apply (sem_reads_only fl _ _ _ _ L). apply never_reads_sound. reflexivity.
Qed.

Lemma sem_description_keywords t c :
  sem IGNORECASE description_keywords t c ->
  In (py_lower t) description_words /\ c = [].
Proof.
  unfold description_keywords. intros L.
  repeat (apply sem_alt_inv in L; destruct L as [L|L];
          [apply sem_word in L; destruct L as [-> ->]; simpl; tauto|]).
  apply sem_word in L; destruct L as [-> ->]; simpl; tauto.
Qed.

Lemma word_lacks_dot kw :
  In (py_lower kw) description_words -> lacks "." kw = true.
Proof.
  intros H.
  assert (Hl : lacks "." (py_lower kw) = true).
  { simpl in H. repeat (destruct H as [H|H]; [rewrite <- H; reflexivity|]). contradiction. }
  clear H. unfold lacks, py_lower in *.
  induction kw as [|x kw IH]; cbn [str_map str_forall] in *; [reflexivity|].
  apply andb_true_iff in Hl. destruct Hl as [Hx Hl]. rewrite (IH Hl), andb_true_r.
  apply negb_true_iff. apply negb_true_iff in Hx.
  apply Ascii.eqb_neq. intros <-. vm_compute in Hx. discriminate.
Qed.

Lemma description_match name text m :
  match_of IGNORECASE (literal name description_regex) text m ->
  exists g, group m 1 = Some g /\ describes text name g.
Proof.
  intros [[pre Hpre] L]. apply occurs_in_match in Hpre.
  apply sem_literal_inv in L. destruct L as (u & v & Hw & Hu & L).
  unfold description_regex in L.
  apply sem_cat_inv in L. destruct L as (d & w & c1 & c2 & -> & Hc & Ld & L).
  apply sem_lazy_dots in Ld. destruct Ld as [Hd ->].
  apply sem_cat_inv in L. destruct L as (g & e & c3 & c4 & -> & -> & Lg & L).
  apply sem_group_inv in Lg. destruct Lg as (cg & -> & Lg).
  apply sem_eps_inv in L. destruct L as [-> ->].
  apply sem_cat_inv in Lg. destruct Lg as (x & r1 & c5 & c6 & Hg & -> & Lx & Lg).
  apply sem_dots in Lx. destruct Lx as [Hx ->].
  apply sem_cat_inv in Lg. destruct Lg as (kw & r2 & c7 & c8 & -> & -> & Lk & Lg).
  apply sem_description_keywords in Lk. destruct Lk as [Hk ->].
  apply sem_cat_inv in Lg. destruct Lg as (y & r3 & c9 & c10 & -> & -> & Ly & Lg).
  apply sem_dots in Ly. destruct Ly as [Hy ->].
  apply sem_eps_inv in Lg. destruct Lg as [-> ->].
  rewrite append_nil_r in Hg.
  exists g. unfold group. rewrite Hc. split; [reflexivity|]. split; [|split].
  - rewrite Hg, !lacks_append, Hx, Hy, (word_lacks_dot kw Hk). reflexivity.
  - exists x, kw, y. split; assumption.
  - exists u, d. repeat split; try assumption.
    rewrite Hw, append_nil_r in Hpre. exact Hpre.
Qed.

Lemma lang_description_keywords kw :
  In (py_lower kw) description_words -> lang IGNORECASE description_keywords kw.
Proof.
  unfold description_words, description_keywords. intros H.
  repeat (destruct H as [H|H];
          [repeat (first [apply lang_word_ci; symmetry; exact H
                         | apply lang_alt_left; apply lang_word_ci; symmetry; exact H
                         | apply lang_alt_right])|]).
  contradiction.
Qed.

Lemma description_lang name text g :
  describes text name g ->
  exists w, lang IGNORECASE (literal name description_regex) w /\ occurs_in w text.
Proof.
  intros (Hg & (x & kw & y & -> & Hk) & u & d & Hu & Hd & Ho).
  exists (u ++ d ++ x ++ kw ++ y). split; [|exact Ho].
  rewrite !lacks_append in Hg.
  apply andb_true_iff in Hg. destruct Hg as [Hx Hg].
  apply andb_true_iff in Hg. destruct Hg as [_ Hy].
  apply lang_literal_ci; [exact Hu|]. unfold description_regex.
  apply lang_cat; [apply lang_dots_intro, Hd|].
  apply lang_cat_eps, lang_group.
  apply lang_cat; [apply lang_dots_intro, Hx|].
  apply lang_cat; [apply lang_description_keywords, Hk|].
  apply lang_cat_eps, lang_dots_intro, Hy.
Qed.

Lemma is_space_lower c : is_space (to_lower c) = is_space c.
Proof.
  destruct c as [[] [] [] [] [] [] [] []]; vm_compute; reflexivity.
Qed.

Lemma spaces_lower s : spaces (py_lower s) = spaces s.
Proof.
  unfold spaces, py_lower. induction s as [|c s IH]; cbn [str_map str_forall];
    [reflexivity|]. rewrite is_space_lower, IH. reflexivity.
Qed.

Lemma described_not_blank text name g : describes text name g -> py_strip g <> "".
Proof.
  intros (_ & (x & kw & y & -> & Hk) & _) E.
  destruct (py_strip_inv (x ++ kw ++ y)) as (pre & post & H & Hpre & Hpost).
  rewrite E in H. cbn [append] in H.
  assert (Hs : spaces (x ++ kw ++ y) = true).
  { rewrite H. unfold spaces in *. rewrite str_forall_append, Hpre, Hpost. reflexivity. }
  unfold spaces in Hs. rewrite !str_forall_append in Hs.
  apply andb_true_iff in Hs. destruct Hs as [_ Hs].
  apply andb_true_iff in Hs. destruct Hs as [Hs _].
  fold (spaces kw) in Hs. rewrite <- spaces_lower in Hs.
  simpl in Hk. repeat (destruct Hk as [Hk|Hk]; [rewrite <- Hk in Hs; discriminate Hs|]).
  contradiction.
Qed.

Lemma character_description_inv text name d :
  str_forall is_letter name = true ->
  _extract_character_description text name = Ok d ->
  (d = "" /\ ~ exists g, describes text name g) \/
  (d <> "" /\ exists g, d = py_strip g /\ describes text name g).
Proof.
  intros Hn. unfold _extract_character_description, re_search.
  rewrite (description_pattern_compiles name Hn), !bind_ok. cbn [p_regex].
  destruct (search_from IGNORECASE (literal name description_regex) false None text)
    as [m|] eqn:E.
  - apply search_from_of, description_match in E. destruct E as (g & Hg & Hd).
    rewrite Hg. cbn [need_str]. rewrite bind_ok. intros H. inversion H; subst.
    right. split; [eapply described_not_blank, Hd|].
    exists g. split; [reflexivity|exact Hd].
  - intros H. inversion H. left. split; [reflexivity|].
    intros (g & Hg). destruct (description_lang name text g Hg) as (w & Lw & Ho).
    destruct (search_finds IGNORECASE _ w text Lw) with (p := @None ascii) as [m Hm];
      [rewrite plain_literal; reflexivity|exact Ho|congruence].
Qed.

(** *** The environment *)





















(** *** The names *)

Lemma name_pattern_compiles :
  re_compile name_pattern = Ok {| p_regex := name_regex; p_groups := 1 |}.
Proof. vm_compute. reflexivity. Qed.

Lemma sem_wordb_inv fl neg w c : sem fl (WordB neg) w c -> w = "" /\ c = [].
Proof. intros H. inversion H; subst. auto. Qed.

Lemma sem_ahead_inv fl a w c :
  sem fl (Ahead true a) w c -> w = "" /\ exists u, sem fl a u c.
Proof. intros H. inversion H; subst. eauto. Qed.

Lemma name_match text m :
  match_of NOFLAG name_regex text m ->
  exists n, group m 1 = Some n /\ name_of text n.
Proof.
  intros [[pre Hpre] L]. apply occurs_in_match in Hpre.
  unfold name_regex in L.
  apply sem_cat_inv in L. destruct L as (b & v & c1 & c2 & Hw & Hc & Lb & L).
  apply sem_wordb_inv in Lb. destruct Lb as [-> ->].
  apply sem_cat_inv in L. destruct L as (n & v2 & c3 & c4 & -> & -> & Ln & L).
  apply sem_group_inv in Ln. destruct Ln as (cn & -> & Ln).
  apply sem_capitalized in Ln. destruct Ln as [Hn ->].
  apply sem_cat_inv in L. destruct L as (a & v3 & c5 & c6 & -> & -> & La & L).
  apply sem_ahead_inv in La. destruct La as (-> & look & La).
  apply sem_no_groups in La; [|reflexivity]. subst c5.
  apply sem_eps_inv in L. destruct L as [-> ->].
  exists n. unfold group. rewrite Hc. split; [reflexivity|]. split; [exact Hn|].
  rewrite Hw in Hpre. simpl in Hpre. rewrite append_nil_r in Hpre. exact Hpre.
Qed.

Lemma detected_names_inv self text names :
  ner_pipeline self = None ->
  detect_person_names self text = Ok names ->
  Forall (name_of text) names.
Proof.
  intros Hner. unfold detect_person_names. rewrite Hner. unfold re_findall.
  rewrite name_pattern_compiles, bind_ok. cbn [p_regex p_groups].
  intros H. inversion H; subst; clear H.
  apply Forall_forall. intros n Hin. apply in_map_iff in Hin.
  destruct Hin as (m & Hm & Hin).
  pose proof (finditer_from_of NOFLAG name_regex (2 * String.length text + 2)
                false None text) as HF.
  rewrite Forall_forall in HF. apply HF, name_match in Hin.
  destruct Hin as (n' & Hg & Hn). unfold group_or_empty in Hm. rewrite Hg in Hm.
  subst. exact Hn.
Qed.

Lemma NoDup_map_PStr l : NoDup l -> NoDup (map PStr l).
Proof.
  induction 1 as [|x l Hx _ IH]; simpl; constructor; [|exact IH].
  intros Hin. apply in_map_iff in Hin. destruct Hin as (y & Hy & Hin).
  inversion Hy; subst. contradiction.
Qed.

Lemma regex_characters_inv set_order self text chars :
  ner_pipeline self = None ->
  set_contract set_order ->
  _extract_characters set_order self text = Ok chars ->
  NoDup (character_names chars) /\
  Forall (fun c => exists n,
            Character.name c = PStr n /\ name_of text n /\ keep_name n = true) chars.
Proof.
  intros Hner Hset H.
  destruct (detect_person_names self text) as [names|e] eqn:En.
  - pose proof (characters_follow_names _ _ _ _ _ En H) as Hc.
    pose proof (detected_names_inv _ _ _ Hner En) as Hn.
    destruct (Hset names) as [Hnd Hin]. split.
    + rewrite Hc. apply NoDup_map_PStr, NoDup_filter. exact Hnd.
    + unfold character_names in Hc. revert Hc.
      assert (HF : Forall (fun n => name_of text n /\ keep_name n = true)
                     (filter keep_name (set_order names))).
      { apply Forall_forall. intros n Hf. apply filter_In in Hf. destruct Hf as [Hf Hk].
        split; [|exact Hk]. rewrite Forall_forall in Hn. apply Hn, Hin, Hf. }
      revert HF. generalize (filter keep_name (set_order names)). clear.
      induction chars as [|c chars IH]; intros l HF Hc; [constructor|].
      destruct l as [|n l]; [discriminate|]. inversion Hc. inversion HF; subst.
      constructor; [exists n; tauto|]. eapply IH; eauto.
  - unfold _extract_characters in H. rewrite En in H. discriminate.
Qed.

(** *** A name that is no pattern *)

Lemma mapM_raises {A B : Type} (f : A -> result B) l x :
  In x l -> (exists e, f x = Raise e) -> exists e, mapM f l = Raise e.
Proof.
  intros Hin [e He]. induction l as [|a l IH]; [contradiction|]. cbn [mapM].
  destruct (f a) as [b|e'] eqn:Ea; [|exists e'; reflexivity].
  rewrite bind_ok. destruct Hin as [->|Hin]; [congruence|].
  destruct (IH Hin) as [e2 H2]. rewrite H2. exists e2. reflexivity.
Qed.

Lemma make_character_raises text name e :
  re_compile (name ++ description_suffix) = Raise e ->
  make_character text name = Raise e.
Proof.
  intros H. unfold make_character, _extract_character_description, re_search.
  rewrite H. reflexivity.
Qed.

Lemma unescaped_name_raises set_order self ner text entities ent e :
  ner_pipeline self = Some ner ->
  ner text = Ok entities ->
  In ent entities ->
  entity_group ent = "PER" ->
  keep_name (word ent) = true ->
  set_contract set_order ->
  re_compile (word ent ++ description_suffix) = Raise e ->
  exists e', _process_with_local_nlp set_order self text = Raise e'.
Proof.
  intros Hner Hent Hin Hper Hkeep Hset Hc.
  unfold _process_with_local_nlp, _extract_characters, detect_person_names.
  rewrite Hner, Hent, !bind_ok.
  destruct (mapM_raises (make_character text)
              (filter keep_name
                 (set_order (map word (filter (fun ent0 => String.eqb (entity_group ent0) "PER")
                                         entities))))
              (word ent)) as [e' He'].
  - apply filter_In. split; [|exact Hkeep]. apply (Hset _). apply in_map.
    apply filter_In. split; [exact Hin|]. rewrite Hper. reflexivity.
  - exists e. apply make_character_raises, Hc.
  - exists e'. rewrite He'. reflexivity.
Qed.

(** X16. For a text of ASCII characters and a name made of letters, the
    description of a character is the stripped phrase that follows the name
    in its sentence, a phrase without a full stop that holds one of the
    eight describing words in any letter case; it is empty exactly when no
    such phrase follows the name in the text. *)
Theorem character_description_is_a_phrase (text name : string) :
  is_ascii text = true ->
  str_forall is_letter name = true ->
  exists d,
    _extract_character_description text name = Ok d /\
    ((d = "" /\ ~ exists g, describes text name g) \/
     (d <> "" /\ exists g, d = py_strip g /\ describes text name g)).
Proof.
  intros _ Hn. destruct (description_total text name Hn) as [d H].
  exists d. split; [exact H|]. apply character_description_inv; assumption.
Qed.

Lemma character_description_is_a_phrase_witness :
  exists d,
    _extract_character_description prompt_bob "Bob" = Ok d /\
    ((d = "" /\ ~ exists g, describes prompt_bob "Bob" g) \/
     (d <> "" /\ exists g, d = py_strip g /\ describes prompt_bob "Bob" g)).
Proof.
  apply (character_description_is_a_phrase prompt_bob "Bob"); reflexivity.
Defined.



(** X18. Without a NER pipeline, and with a set iteration that yields every
    member once, the characters have pairwise distinct names, and every name
    is a capitalized word of the text (an upper-case letter and then
    lower-case letters) that is none of the four false positives. *)
Theorem regex_characters_are_capitalized_words
  (set_order : list string -> list string) (self : NaturalLanguageProcessor)
  (text : string) :
  ner_pipeline self = None ->
  set_contract set_order ->
  exists chars,
    _extract_characters set_order self text = Ok chars /\
    NoDup (character_names chars) /\
    Forall (fun c => exists n,
              Character.name c = PStr n /\ name_of text n /\ keep_name n = true) chars.
Proof.
  intros Hner Hset.
  destruct (extract_characters_total set_order self text Hner) as [chars H].
  { intros l x Hin. apply (proj2 (Hset l)). exact Hin. }
  exists chars. split; [exact H|]. eapply regex_characters_inv; eauto.
Qed.

Lemma regex_characters_are_capitalized_words_witness :
  exists chars,
    _extract_characters kept_order local_only prompt_two_names = Ok chars /\
    NoDup (character_names chars) /\
    Forall (fun c => exists n,
              Character.name c = PStr n /\ name_of prompt_two_names n /\
              keep_name n = true) chars.
Proof.
  apply (regex_characters_are_capitalized_words kept_order local_only prompt_two_names).
  - reflexivity.
  - apply kept_order_contract.
Defined.

Lemma name_char_is_ordinary c :
  is_name_char c = true ->
  Ascii.eqb c "(" = false /\ Ascii.eqb c "[" = false /\ Ascii.eqb c "\" = false /\
  Ascii.eqb c "." = false /\ Ascii.eqb c "^" = false /\ Ascii.eqb c "$" = false /\
  Ascii.eqb c "{" = false /\ Ascii.eqb c "|" = false /\ Ascii.eqb c ")" = false /\
  is_quantifier c = false.
Proof.
  destruct c as [[] [] [] [] [] [] [] []]; intros H;
    try discriminate H; vm_compute; repeat split.
Qed.

Lemma parse_atom_name_char alt c s g :
  is_name_char c = true -> parse_atom alt (String c s) g = Ok (Chr c, s, g).
Proof.
  intros H. destruct (name_char_is_ordinary _ H)
    as (H1 & H2 & H3 & H4 & H5 & H6 & H7 & _ & _ & H8).
  unfold parse_atom. rewrite H1, H2, H3, H4, H5, H6, H7, H8. reflexivity.
Qed.

Lemma no_quantifier_name_chars w rest :
  str_forall is_name_char w = true -> no_quantifier_ahead rest = true ->
  no_quantifier_ahead (w ++ rest) = true.
Proof.
  destruct w as [|c w]; simpl; [auto|]. intros H _.
  apply andb_true_iff in H. destruct H as [H _].
  destruct (name_char_is_ordinary _ H) as (_ & _ & _ & _ & _ & _ & _ & _ & _ & Hq).
  rewrite Hq. reflexivity.
Qed.

(** Letters and spaces in front of [rest] parse to their literal in front of
    what [rest] parses to. *)
Lemma parse_seq_name_chars alt w : forall fuel rest g r s3 g3,
  str_forall is_name_char w = true ->
  no_quantifier_ahead rest = true ->
  parse_seq (parse_atom alt) fuel rest g = Ok (r, s3, g3) ->
  parse_seq (parse_atom alt) (String.length w + fuel) (w ++ rest) g =
    Ok (literal w r, s3, g3).
Proof.
  induction w as [|c w IH]; intros fuel rest g r s3 g3 Hw Hq E; [exact E|].
  simpl in Hw. apply andb_true_iff in Hw. destruct Hw as [Hc Hw].
  destruct (name_char_is_ordinary _ Hc) as (_ & _ & _ & _ & _ & _ & _ & Hb & Hp & _).
  change (String.length (String c w) + fuel) with (S (String.length w + fuel)).
  cbn [append parse_seq]. rewrite Hb, Hp. cbn [orb].
  rewrite parse_atom_name_char, bind_ok by exact Hc.
  rewrite parse_quantifier_none, bind_ok by (apply no_quantifier_name_chars; assumption).
  rewrite (IH _ _ _ _ _ _ Hw Hq E), bind_ok. reflexivity.
Qed.

(** When the parser raises on [rest] with whatever fuel, it raises with
    letters and spaces in front of [rest]. *)
Lemma parse_seq_raises_behind alt w rest g :
  str_forall is_name_char w = true ->
  no_quantifier_ahead rest = true ->
  (forall fuel, raises (parse_seq (parse_atom alt) fuel rest g)) ->
  forall fuel, raises (parse_seq (parse_atom alt) fuel (w ++ rest) g).
Proof.
  intros Hw Hq Hr. induction w as [|c w IH]; [exact Hr|].
  simpl in Hw. apply andb_true_iff in Hw. destruct Hw as [Hc Hw].
  destruct (name_char_is_ordinary _ Hc) as (_ & _ & _ & _ & _ & _ & _ & Hb & Hp & _).
  intros [|fuel]; [exists re_error; reflexivity|].
  cbn [append parse_seq]. rewrite Hb, Hp. cbn [orb].
  rewrite parse_atom_name_char, bind_ok by exact Hc.
  rewrite parse_quantifier_none, bind_ok by (apply no_quantifier_name_chars; assumption).
  destruct (IH Hw fuel) as [e He]. rewrite He. exists e. reflexivity.
Qed.

(** The suffix of the description pattern inside the group that the name
    has opened. *)
Lemma description_suffix_in_group :
  exists r g,
    parse_seq (parse_atom (parse_regex (String.length description_suffix)))
      (S (String.length description_suffix)) description_suffix 1 = Ok (r, "", g).
Proof.
  eexists. eexists. vm_compute. reflexivity.
Qed.

(** What stands behind the opening parenthesis of the name is read to its
    end, whatever the depth: no closing parenthesis is left. *)
Lemma group_of_name_is_open b depth x :
  str_forall is_name_char b = true ->
  parse_regex depth (b ++ description_suffix) 1 = Ok x ->
  exists r g, x = (r, "", g).
Proof.
  intros Hb H. destruct description_suffix_in_group as (r0 & g0 & H0).
  destruct depth as [|depth]; [discriminate|]. cbn [parse_regex parse_alt] in H.
  apply bind_inv in H. destruct H as ([[a s1] g1] & Ha & H).
  set (big := depth + String.length description_suffix).
  assert (E1 : parse_seq (parse_atom (parse_regex big))
                 (String.length b + S (String.length description_suffix))
                 (b ++ description_suffix) 1 = Ok (literal b r0, "", g0)).
  { apply parse_seq_name_chars; [exact Hb|reflexivity|].
    eapply parse_seq_extends; [|exact H0|lia].
    apply parse_atom_extends, parse_regex_extends. unfold big. lia. }
  assert (E2 : parse_seq (parse_atom (parse_regex big))
                 (String.length b + S (String.length description_suffix))
                 (b ++ description_suffix) 1 = Ok (a, s1, g1)).
  { eapply parse_seq_extends; [|exact Ha|rewrite append_length; lia].
    apply parse_atom_extends, parse_regex_extends. unfold big. lia. }
  rewrite E1 in E2. inversion E2; subst. inversion H; subst. eauto.
Qed.

Lemma parse_group_open alt b g :
  str_forall is_name_char b = true ->
  parse_group alt (b ++ description_suffix) g =
  parse_capture alt (b ++ description_suffix) g.
Proof.
  intros Hb. destruct b as [|c b]; [reflexivity|].
  simpl in Hb. apply andb_true_iff in Hb. destruct Hb as [Hc _].
  assert (Hq : Ascii.eqb c "?" = false).
  { pose proof (name_char_is_ordinary _ Hc) as (_ & _ & _ & _ & _ & _ & _ & _ & _ & Hq).
    unfold is_quantifier in Hq. apply orb_false_iff in Hq. apply Hq. }
  cbn [append]. unfold parse_group. rewrite Hq.
  destruct (b ++ description_suffix); reflexivity.
Qed.

Lemma open_name_raises name :
  opens_parenthesis name -> raises (re_compile (name ++ description_suffix)).
Proof.
  intros (a & b & -> & Ha & Hb). rewrite !append_assoc.
  set (pattern := a ++ "(" ++ b ++ description_suffix).
  unfold re_compile. cbn [parse_regex parse_alt].
  set (alt := parse_regex (String.length pattern)).
  assert (Hseq : forall fuel, raises (parse_seq (parse_atom alt) fuel pattern 0)).
  { apply parse_seq_raises_behind; [exact Ha|reflexivity|].
    intros [|fuel]; [exists re_error; reflexivity|].
    cbn [append parse_seq]. change (Ascii.eqb "(" "|" || Ascii.eqb "(" ")") with false.
    cbv iota. unfold parse_atom. change (Ascii.eqb "(" "(") with true. cbv iota.
    rewrite (parse_group_open alt b 0 Hb). unfold parse_capture.
    destruct (alt (b ++ description_suffix) 1) as [x|e] eqn:E;
      [|exists e; reflexivity].
    destruct (group_of_name_is_open b _ x Hb E) as (r & g & ->).
    exists re_error. reflexivity. }
  destruct (Hseq (S (String.length pattern))) as [e He]. rewrite He.
  exists e. reflexivity.
Qed.

Lemma open_name_is_kept name : opens_parenthesis name -> keep_name name = true.
Proof.
  intros (a & b & -> & _ & _). unfold keep_name, false_positives.
  assert (H : forall w, lacks "(" w = true -> String.eqb (py_lower (a ++ "(" ++ b)) w = false).
  { intros w Hw. apply String.eqb_neq. intros E.
    assert (Hl : lacks "(" (py_lower (a ++ "(" ++ b)) = true) by (rewrite E; exact Hw).
    clear E Hw. induction a as [|c a IH].
    - cbn in Hl. discriminate Hl.
    - cbn [append py_lower str_map] in Hl. fold (py_lower (a ++ "(" ++ b)) in Hl.
      rewrite lacks_cons in Hl. apply andb_true_iff in Hl. apply IH, Hl. }
  cbn [existsb]. rewrite !H by reflexivity. reflexivity.
Qed.

Lemma open_name_discards_local_tier set_order self ner text entities ent :
  ner_pipeline self = Some ner ->
  ner text = Ok entities ->
  In ent entities ->
  entity_group ent = "PER" ->
  opens_parenthesis (word ent) ->
  set_contract set_order ->
  raises (_process_with_local_nlp set_order self text).
Proof.
  intros Hner Hent Hin Hper Hopen Hset.
  destruct (open_name_raises _ Hopen) as [e He].
  eapply unescaped_name_raises; eauto. apply open_name_is_kept, Hopen.
Qed.

(** X19. The names of the NER pipeline are pasted into patterns as they
    are. When one person name opens a parenthesis that nothing closes,
    letters and spaces around it as in [Ann (Lee], the pattern of its
    description does not compile: the local tier raises, whatever the other
    names and the text are, and without a client the orchestrator returns
    the scene of the fallback tier. *)
Theorem unescaped_name_discards_local_tier
  (json_loads : string -> result pyval) (set_order : list string -> list string)
  (self : NaturalLanguageProcessor) (now : nat)
  (ner : string -> result (list Entity)) (prompt : string)
  (entities : list Entity) (ent : Entity) :
  client self = None ->
  ner_pipeline self = Some ner ->
  ner prompt = Ok entities ->
  In ent entities ->
  entity_group ent = "PER" ->
  opens_parenthesis (word ent) ->
  set_contract set_order ->
  raises (_process_with_local_nlp set_order self prompt) /\
  process_natural_language_prompt json_loads set_order self now prompt =
    _process_with_fallback prompt.
Proof.
  intros Hc Hner Hent Hin Hper Hopen Hset.
  destruct (open_name_discards_local_tier set_order self ner prompt entities ent
              Hner Hent Hin Hper Hopen Hset) as [e' He'].
  split; [exists e'; exact He'|].
  rewrite process_cascade, Hc. unfold local_or_fallback. rewrite He'. reflexivity.
Qed.

Lemma unescaped_name_discards_local_tier_witness :
  raises (_process_with_local_nlp kept_order
            (ner_finds [{| word := "Ann (Lee"; entity_group := "PER" |}]) prompt_alice) /\
  process_natural_language_prompt no_json kept_order
    (ner_finds [{| word := "Ann (Lee"; entity_group := "PER" |}]) 0 prompt_alice =
  _process_with_fallback prompt_alice.
Proof.
  apply (unescaped_name_discards_local_tier no_json kept_order
           (ner_finds [{| word := "Ann (Lee"; entity_group := "PER" |}]) 0
           (fun _ => Ok [{| word := "Ann (Lee"; entity_group := "PER" |}])
           prompt_alice [{| word := "Ann (Lee"; entity_group := "PER" |}]
           {| word := "Ann (Lee"; entity_group := "PER" |}).
  - reflexivity.
  - reflexivity.
  - reflexivity.
  - left. reflexivity.
  - reflexivity.
  - exists "Ann ", "Lee". repeat split.
  - apply kept_order_contract.
Defined.

(** ** The scene of every tier *)

Lemma is_str_list_PStrs l : is_str_list (PStrs l) = true.
Proof.
  unfold PStrs. cbn [is_str_list]. induction l as [|x l IH]; simpl; auto.
Qed.

Lemma strings_are_str_list (P : string -> Prop) l :
  Forall (fun a => exists t, a = PStr t /\ P t) l -> is_str_list (PList l) = true.
Proof.
  cbn [is_str_list]. induction 1 as [|a l (t & -> & _) _ IH]; simpl; auto.
Qed.

Lemma make_character_well_formed text name c :
  str_forall is_letter name = true ->
  make_character text name = Ok c ->
  well_formed_character c = true.
Proof.
  intros Hn H. unfold make_character in H.
  apply bind_inv in H. destruct H as (description & _ & H).
  apply bind_inv in H. destruct H as (emotions & _ & H).
  apply bind_inv in H. destruct H as (actions & Ha & H).
  inversion H; subst; clear H. unfold well_formed_character.
  cbn [Character.name Character.description Character.voice_characteristics
       Character.emotions Character.actions is_str andb].
  rewrite is_str_list_PStrs.
  apply (character_actions_inv text name actions Hn) in Ha. destruct Ha as [Ha _].
  apply (strings_are_str_list _ _ Ha).
Qed.

Lemma mapM_forallb {A B : Type} (f : A -> result B) (P : A -> Prop) (q : B -> bool) l :
  (forall a b, P a -> f a = Ok b -> q b = true) ->
  Forall P l -> forall bs, mapM f l = Ok bs -> forallb q bs = true.
Proof.
  intros Hq. induction 1 as [|a l Ha _ IH]; intros bs H; cbn [mapM] in H.
  - inversion H. reflexivity.
  - apply bind_inv in H. destruct H as (b & Hb & H).
    apply bind_inv in H. destruct H as (bs' & Hbs & H). inversion H; subst.
    cbn [forallb]. rewrite (Hq _ _ Ha Hb), (IH _ Hbs). reflexivity.
Qed.

Lemma characters_well_formed set_order self text chars :
  set_contract set_order ->
  names_are_words self text ->
  _extract_characters set_order self text = Ok chars ->
  forallb well_formed_character chars = true.
Proof.
  intros Hset Hw H. unfold _extract_characters in H.
  destruct (detect_person_names self text) as [names|e] eqn:En; [|discriminate].
  rewrite bind_ok in H.
  eapply (mapM_forallb (make_character text)
            (fun name => str_forall is_letter name = true)); [| |exact H].
  - intros name c Hn Hc. eapply make_character_well_formed; eauto.
  - apply Forall_forall. intros name Hin. apply filter_In in Hin. destruct Hin as [Hin _].
    specialize (Hw names En). rewrite Forall_forall in Hw.
    apply Hw, (proj2 (Hset names)), Hin.
Qed.

Lemma placeholders_are_str lines i n :
  map DialogueLine.character lines = placeholders i n ->
  Forall (fun line => is_str (DialogueLine.character line) = true) lines.
Proof.
  unfold placeholders. revert i n.
  induction lines as [|line lines IH]; intros i n H; [constructor|].
  destruct n as [|n]; [discriminate|]. cbn [seq map] in H. inversion H as [[Hc Hr]].
  constructor; [rewrite Hc; reflexivity|]. apply (IH (S i) n). exact Hr.
Qed.

Lemma dialogue_well_formed text lines :
  _extract_dialogue text = Ok lines -> forallb well_formed_line lines = true.
Proof.
  intros H. apply dialogue_lines_inv in H. destruct H as [Hq Hs].
  assert (Hc : Forall (fun line => is_str (DialogueLine.character line) = true) lines).
  { destruct Hs as [Hs|Hs].
    - eapply Forall_impl; [|exact Hs].
      intros line (name & t & Hn & _). rewrite Hn. reflexivity.
    - eapply placeholders_are_str, Hs. }
  apply forallb_forall. intros line Hin.
  rewrite Forall_forall in Hq, Hc. specialize (Hq _ Hin). specialize (Hc _ Hin).
  destruct Hq as (t & (Ht & He & Ha & Hti & cues & _ & Hnv) & _).
  unfold well_formed_line. rewrite Hc, Ht, He, Ha, Hti, Hnv, is_str_list_PStrs. reflexivity.
Qed.

Lemma local_scene_well_formed set_order self prompt scene :
  set_contract set_order ->
  names_are_words self prompt ->
  _process_with_local_nlp set_order self prompt = Ok scene ->
  well_formed scene = true.
Proof.
  intros Hset Hw H. apply local_scene_inv in H.
  destruct H as (characters & dialogue & actions & environment & Hc & Hd & Ha & He & ->).
  unfold well_formed.
  cbn [ParsedScene.description ParsedScene.characters ParsedScene.dialogue
       ParsedScene.actions ParsedScene.environment ParsedScene.mood
       ParsedScene.duration_estimate is_str is_duration andb].
  rewrite (characters_well_formed _ _ _ _ Hset Hw Hc), (dialogue_well_formed _ _ Hd).
  rewrite (strings_are_str_list _ _ (extract_actions_inv _ _ Ha)).
  pose proof (estimate_duration_bounds prompt dialogue) as Hb.
  cbn [andb]. apply andb_true_iff. split; apply Z.leb_le; lia.
Qed.

Lemma fallback_scene_well_formed prompt quotes :
  well_formed (fallback_scene prompt quotes) = true.
Proof.
  unfold well_formed, fallback_scene.
  cbn [ParsedScene.description ParsedScene.characters ParsedScene.dialogue
       ParsedScene.actions ParsedScene.environment ParsedScene.mood
       ParsedScene.duration_estimate is_str andb].
  assert (Hd : forall l, forallb well_formed_line (map fallback_line l) = true).
  { induction l as [|iq l IH]; simpl; auto. }
  rewrite Hd. reflexivity.
Qed.

Lemma regex_names_are_words self prompt :
  ner_pipeline self = None -> names_are_words self prompt.
Proof.
  intros Hner names H. eapply detected_names_are_letters; eauto.
Qed.

Lemma local_or_fallback_well_formed set_order self prompt scene :
  set_contract set_order ->
  names_are_words self prompt ->
  local_or_fallback set_order self prompt = Ok scene ->
  well_formed scene = true.
Proof.
  intros Hset Hw. unfold local_or_fallback.
  destruct (_process_with_local_nlp set_order self prompt) as [s|e] eqn:E.
  - intros H. inversion H; subst. eapply local_scene_well_formed; eauto.
  - destruct (fallback_total prompt) as (quotes & _ & Hf). rewrite Hf.
    intros H. inversion H. apply fallback_scene_well_formed.
Qed.

(** C1 (amended). For every prompt the orchestrator returns a scene and
    never raises, whatever the remote service, the JSON parser, the NER
    pipeline and the set order do: its result is the scene of the remote
    attempt when a client is configured and the attempt returns; otherwise
    (no client, or any exception in the attempt) it is the scene of the
    local tier when that returns, and otherwise (any exception in the local
    tier) the scene of the fallback tier, which returns on every prompt, the
    empty one included. The scene is well-formed, every field of the type of
    the schema and the duration between 5 and 30, when it comes from the
    fallback tier, or from the local tier with names that are runs of
    letters, as are all names the regex heuristic detects. The scene of the
    remote tier holds the values of the reply as they are. *)
Theorem process_returns_a_scene
  (json_loads : string -> result pyval) (set_order : list string -> list string)
  (self : NaturalLanguageProcessor) (now : nat) (prompt : string) :
  (exists scene,
     process_natural_language_prompt json_loads set_order self now prompt = Ok scene /\
     (remote_succeeds json_loads self now prompt = false ->
      set_contract set_order ->
      names_are_words self prompt ->
      well_formed scene = true)) /\
  process_natural_language_prompt json_loads set_order self now prompt =
    match client self with
    | Some c =>
        match remote_attempt json_loads now c prompt with
        | Ok scene => Ok scene
        | Raise _ =>
            match _process_with_local_nlp set_order self prompt with
            | Ok scene => Ok scene
            | Raise _ => _process_with_fallback prompt
            end
        end
    | None =>
        match _process_with_local_nlp set_order self prompt with
        | Ok scene => Ok scene
        | Raise _ => _process_with_fallback prompt
        end
    end /\
  (exists scene, _process_with_fallback prompt = Ok scene /\ well_formed scene = true) /\
  (ner_pipeline self = None -> names_are_words self prompt) /\
  _process_with_fallback "" = Ok (fallback_scene "" []).
Proof.
  split; [|split; [apply process_cascade|split; [|split]]].
  - rewrite process_cascade. unfold remote_succeeds.
    destruct (client self) as [c|].
    + destruct (remote_attempt json_loads now c prompt) as [scene|e].
      * exists scene. split; [reflexivity|discriminate].
      * destruct (local_or_fallback_total set_order self prompt) as [scene H].
        exists scene. split; [exact H|]. intros _ Hset Hw.
        eapply local_or_fallback_well_formed; eauto.
    + destruct (local_or_fallback_total set_order self prompt) as [scene H].
      exists scene. split; [exact H|]. intros _ Hset Hw.
      eapply local_or_fallback_well_formed; eauto.
  - destruct (fallback_total prompt) as (quotes & _ & H).
    exists (fallback_scene prompt quotes). split; [exact H|apply fallback_scene_well_formed].
  - apply regex_names_are_words.
  - vm_compute. reflexivity.
Qed.

(** Against C1 as stated: a remote reply with a null environment is
    returned as a scene whose environment is [None], which is not
    well-formed. *)
Lemma remote_scene_is_unchecked :
  exists scene,
    process_natural_language_prompt
      (json_only reply_null_environment (PDict [("environment", PNone)]))
      kept_order (remote_says reply_null_environment) 0 "Nothing happens" = Ok scene /\
    ParsedScene.environment scene = PNone /\
    well_formed scene = false.
Proof.
  eexists. repeat split; vm_compute; reflexivity.
Qed.

Lemma process_returns_a_scene_witness :
  exists scene,
    process_natural_language_prompt no_json kept_order local_only 0 prompt_mixed
      = Ok scene /\
    well_formed scene = true.
Proof.
  destruct (process_returns_a_scene no_json kept_order local_only 0 prompt_mixed)
    as ((scene & H & Hw) & _ & _ & Hn & _).
  exists scene. split; [exact H|].
  apply Hw; [reflexivity|apply kept_order_contract|apply Hn; reflexivity].
Defined.
